(** * shub_workflow.graph: the graph manager, embedded in Rocq

    A shallow embedding of [GraphManager] (src/shub_workflow/graph/__init__.py):
    the jobs graph, the pending and running maps, the resource ledger, the
    fan-out expansion, the two admission passes, completion handling and the
    parsing of a resumed command line.

    Python dictionaries that are iterated, or whose order of insertion is
    observable, are insertion-ordered association lists ([odict]); the
    dictionary of available resources, which is only read and written by
    key, is a [gmap]; [set]s of job keys are [gset]s.  Resource amounts
    (integers and [Fraction]s) are canonical rationals [Qc].  Methods are
    state-passing functions over [manager] in a state-and-exception monad. *)

From Stdlib Require Import QArith Qcanon ZArith String Ascii List Bool Lia DecimalString.
From stdpp Require Import base option list gmap sets strings.

Open Scope string_scope.

(* ================================================================== *)
(** * Python values and containers *)
(* ================================================================== *)

(** [x < y] on amounts. *)
Definition Qc_ltb (x y : Qc) : bool :=
  match (x ?= y)%Qc with Lt => true | _ => false end.

(** [list.remove(x)]: drops the first element equal to [x]; [None] stands
    for the [ValueError] raised when there is none. *)
Fixpoint py_remove {A} `{EqDecision A} (x : A) (l : list A) : option (list A) :=
  match l with
  | [] => None
  | y :: l' => if decide (y = x) then Some l'
               else match py_remove x l' with
                    | Some r => Some (y :: r)
                    | None => None
                    end
  end.

(** [x in l] for a list. *)
Definition py_in {A} `{EqDecision A} (x : A) (l : list A) : bool :=
  bool_decide (x ∈ l).

(** Insertion-ordered dictionaries with string keys. *)
Definition odict (V : Type) : Type := list (string * V).

Fixpoint od_get {V} (k : string) (d : odict V) : option V :=
  match d with
  | [] => None
  | (k', v) :: d' => if String.eqb k' k then Some v else od_get k d'
  end.

Definition od_mem {V} (k : string) (d : odict V) : bool :=
  match od_get k d with Some _ => true | None => false end.

(** [d[k] = v]: an existing key keeps its position, a new key goes last. *)
Fixpoint od_set {V} (k : string) (v : V) (d : odict V) : odict V :=
  match d with
  | [] => [(k, v)]
  | (k', v') :: d' => if String.eqb k' k then (k, v) :: d'
                      else (k', v') :: od_set k v d'
  end.

(** [del d[k]] / [d.pop(k)]: no entry under [k] is left. *)
Fixpoint od_del {V} (k : string) (d : odict V) : odict V :=
  match d with
  | [] => []
  | (k', v') :: d' => if String.eqb k' k then od_del k d' else (k', v') :: od_del k d'
  end.

Definition od_keys {V} (d : odict V) : list string := map fst d.
Definition od_values {V} (d : odict V) : list V := map snd d.
Definition od_map {V} (f : string -> V -> V) (d : odict V) : odict V :=
  map (fun kv => (fst kv, f (fst kv) (snd kv))) d.

(** [sorted(keys)]: keys of a dictionary are pairwise distinct, so any
    sorting algorithm yields the list Python computes. *)
Fixpoint insert_sorted (k : string) (l : list string) : list string :=
  match l with
  | [] => [k]
  | k' :: l' => if String.leb k k' then k :: l else k' :: insert_sorted k l'
  end.

Definition sorted (l : list string) : list string :=
  fold_right insert_sorted [] l.

(** ['%d' % i] *)
Definition str_of_nat (i : nat) : string :=
  NilEmpty.string_of_uint (Nat.to_uint i).

(** ["%s_%i" % (job, i)] *)
Definition unit_name (job : string) (i : nat) : string :=
  job ++ "_" ++ str_of_nat i.

(** [s.replace('%d', rep)] *)
Fixpoint replace_pct_d (s rep : string) : string :=
  match s with
  | EmptyString => EmptyString
  | String c s' =>
      match s' with
      | String c' s'' =>
          if (Ascii.eqb c "%" && Ascii.eqb c' "d")%bool
          then rep ++ replace_pct_d s'' rep
          else String c (replace_pct_d s' rep)
      | EmptyString => String c EmptyString
      end
  end.

(* ================================================================== *)
(** * Data model *)
(* ================================================================== *)

(** One resource set: [{res_name: amount}]. *)
Definition resource_set : Type := list (string * Qc).

(** A job description of [jobs_graph]; an absent key is [None]. *)
Record jobconf : Type := JobConf {
  command : string;
  init_args : option (list string);
  retry_args : option (list string);
  tags : option (list string);
  units : option Z;
  project_id : option Z;
  required_resources : option (list resource_set);
  wait_for : option (list string);
  wait_time : option Q;
  retries : option Z;
  on_finish : option (odict (list string));
  parallel_arg : option string
}.

(** A value of [__pending_jobs]. *)
Record pending_job : Type := PendingJob {
  p_wait_for : gset string;
  p_retries : Z;
  p_required_resources : list resource_set;
  p_origin : option string;
  p_wait_time : option Q
}.

(** The manager's mutable state.  [io_count] and [submitted] are not
    attributes of the object: they count the interactions with the world
    (clock readings, status polls, submissions) and log the calls of
    [run_job], in order. *)
Record manager : Type := Manager {
  jobs_graph : odict jobconf;
  pending_jobs : odict pending_job;
  running_jobs : odict (option string);
  available_resources : gmap string Qc;
  acquired_resources : odict (list (string * Qc));
  failed_outcomes : list string;
  parallelization : option nat;
  max_running_jobs : option nat;
  only_starting_jobs : bool;
  io_count : nat;
  submitted : list (string * Z)
}.

Definition base_failed_outcomes : list string :=
  ["failed"; "killed by oom"; "cancelled"; "cancel_timeout";
   "memusage_exceeded"; "cancelled (stalled)"].

(** [GraphManager.__init__] with a given graph and command line options. *)
Definition new_manager (graph : odict jobconf) (par : option nat)
    (maxrun : option nat) (only_starting : bool) : manager :=
  Manager graph [] [] ∅ [] base_failed_outcomes par maxrun only_starting 0 [].

(** Exceptions that leave a method. *)
Inductive exn : Type :=
  | SystemExit (msg : string)          (* argparser.error *)
  | KeyError (key : string)
  | ValueError
  | TypeError
  | BackendError                       (* raised by the backend *)
  | DependencyCycle (stuck : list (string * list string)).

(** What the world answers.  Every oracle takes the number of earlier
    interactions, so that answers may change over time. *)
Inductive sched_result : Type :=
  | Returned (jobid : option string)
  | Raised.

Record world : Type := World {
  task_run : string -> option (nat -> Z -> sched_result);   (* __tasks[job].run *)
  schedule_script : nat -> list string -> option (list string) -> option Z
                    -> option Z -> sched_result;
  is_finished : nat -> option string -> option string;
  elapsed : nat -> Q                                         (* time() - __start_time *)
}.

(* ================================================================== *)
(** * The state-and-exception monad *)
(* ================================================================== *)

Inductive result (A : Type) : Type :=
  | Ok (a : A) (m : manager)
  | Exc (e : exn) (m : manager).
Arguments Ok {A} a m.
Arguments Exc {A} e m.

Definition M (A : Type) : Type := manager -> result A.

Definition ret {A} (a : A) : M A := fun m => Ok a m.
Definition raise {A} (e : exn) : M A := fun m => Exc e m.
Definition bind {A B} (c : M A) (f : A -> M B) : M B :=
  fun m => match c m with
           | Ok a m' => f a m'
           | Exc e m' => Exc e m'
           end.
Definition get : M manager := fun m => Ok m m.
Definition modify (f : manager -> manager) : M unit := fun m => Ok tt (f m).

Notation "x <- c ;; k" := (bind c (fun x => k))
  (at level 100, c at next level, right associativity).
Notation "c ;;; k" := (bind c (fun _ => k))
  (at level 100, right associativity).

(** [for x in l: body x] *)
Fixpoint for_each {A} (l : list A) (body : A -> M unit) : M unit :=
  match l with
  | [] => ret tt
  | x :: l' => body x ;;; for_each l' body
  end.

(** The state a computation ends in, however it ends. *)
Definition final_state {A} (r : result A) : manager :=
  match r with Ok _ m => m | Exc _ m => m end.

(** Field updates. *)
Definition set_jobs_graph (g : odict jobconf) (m : manager) : manager :=
  Manager g (pending_jobs m) (running_jobs m) (available_resources m)
    (acquired_resources m) (failed_outcomes m) (parallelization m)
    (max_running_jobs m) (only_starting_jobs m) (io_count m) (submitted m).
Definition set_pending_jobs (p : odict pending_job) (m : manager) : manager :=
  Manager (jobs_graph m) p (running_jobs m) (available_resources m)
    (acquired_resources m) (failed_outcomes m) (parallelization m)
    (max_running_jobs m) (only_starting_jobs m) (io_count m) (submitted m).
Definition set_running_jobs (r : odict (option string)) (m : manager) : manager :=
  Manager (jobs_graph m) (pending_jobs m) r (available_resources m)
    (acquired_resources m) (failed_outcomes m) (parallelization m)
    (max_running_jobs m) (only_starting_jobs m) (io_count m) (submitted m).
Definition set_available (a : gmap string Qc) (m : manager) : manager :=
  Manager (jobs_graph m) (pending_jobs m) (running_jobs m) a
    (acquired_resources m) (failed_outcomes m) (parallelization m)
    (max_running_jobs m) (only_starting_jobs m) (io_count m) (submitted m).
Definition set_acquired (a : odict (list (string * Qc))) (m : manager) : manager :=
  Manager (jobs_graph m) (pending_jobs m) (running_jobs m) (available_resources m)
    a (failed_outcomes m) (parallelization m)
    (max_running_jobs m) (only_starting_jobs m) (io_count m) (submitted m).
Definition tick_io (m : manager) : manager :=
  Manager (jobs_graph m) (pending_jobs m) (running_jobs m) (available_resources m)
    (acquired_resources m) (failed_outcomes m) (parallelization m)
    (max_running_jobs m) (only_starting_jobs m) (S (io_count m)) (submitted m).
Definition log_submission (job : string) (r : Z) (m : manager) : manager :=
  Manager (jobs_graph m) (pending_jobs m) (running_jobs m) (available_resources m)
    (acquired_resources m) (failed_outcomes m) (parallelization m)
    (max_running_jobs m) (only_starting_jobs m) (io_count m)
    (submitted m ++ [(job, r)]).

(** [get_job(job)]: [argparser.error] leaves the program when the job is
    not in the graph. *)
Definition get_job (job : string) : M jobconf :=
  fun m => match od_get job (jobs_graph m) with
           | Some c => Ok c m
           | None => Exc (SystemExit ("Invalid job: " ++ job)) m
           end.

(** Rewrites the description of [job] in place (the object held by the
    graph is mutated); nothing happens when [job] left the graph. *)
Definition update_job (job : string) (f : jobconf -> jobconf) : M unit :=
  modify (fun m =>
    match od_get job (jobs_graph m) with
    | Some c => set_jobs_graph (od_set job (f c) (jobs_graph m)) m
    | None => m
    end).

Definition update_pending (job : string) (f : pending_job -> pending_job) : M unit :=
  modify (fun m =>
    match od_get job (pending_jobs m) with
    | Some c => set_pending_jobs (od_set job (f c) (pending_jobs m)) m
    | None => m
    end).

(* ================================================================== *)
(** * The resource ledger *)
(* ================================================================== *)

(** [_fill_available_resources]: raises what is available of a resource
    to the largest amount any resource set asks for. *)
Definition fill_resource (av : gmap string Qc) (ra : string * Qc) : gmap string Qc :=
  let old_amount := default (Q2Qc 0) (av !! ra.1) in
  if Qc_ltb old_amount ra.2 then <[ra.1 := ra.2]> av else av.

Definition fill_set (av : gmap string Qc) (rs : resource_set) : gmap string Qc :=
  fold_left fill_resource rs av.

Definition fill_job (av : gmap string Qc) (job_info : jobconf) : gmap string Qc :=
  fold_left fill_set (default [] (required_resources job_info)) av.

Definition fill_graph (av : gmap string Qc) (g : odict jobconf) : gmap string Qc :=
  fold_left fill_job (od_values g) av.

Definition _fill_available_resources : M unit :=
  modify (fun m => set_available (fill_graph (available_resources m) (jobs_graph m)) m).

(** The first loop over one resource set in [_try_acquire_resources]:
    [true] when no resource is short; reading a resource that is not in
    the dictionary raises [KeyError]. *)
Fixpoint check_set (rs : resource_set) : M bool :=
  match rs with
  | [] => ret true
  | (res_name, res_amount) :: rs' =>
      fun m => match available_resources m !! res_name with
               | None => Exc (KeyError res_name) m
               | Some v => if Qc_ltb v res_amount then Ok false m
                           else check_set rs' m
               end
  end.

(** [_available_resources[res_name] -= res_amount] and
    [_acquired_resources[res_name].append((job, res_amount))]. *)
Definition take_resource (job : string) (ra : string * Qc) : M unit :=
  fun m => match available_resources m !! ra.1 with
           | None => Exc (KeyError ra.1) m
           | Some v =>
               let m1 := set_available (<[ra.1 := (v - ra.2)%Qc]> (available_resources m)) m in
               let held := default [] (od_get ra.1 (acquired_resources m1)) in
               Ok tt (set_acquired (od_set ra.1 (held ++ [(job, ra.2)])%list
                                      (acquired_resources m1)) m1)
           end.

Definition take_set (job : string) (rs : resource_set) : M unit :=
  for_each rs (take_resource job).

(** The loop over the resource sets, with the local [result]. *)
Fixpoint try_sets (job : string) (sets : list resource_set) (result : bool) : M bool :=
  match sets with
  | [] => ret result
  | resources :: rest =>
      fits <- check_set resources ;;
      if fits then take_set job resources ;;; ret true
      else try_sets job rest false
  end.

Definition _try_acquire_resources (job : string) : M bool :=
  conf <- get_job job ;;
  try_sets job (default [] (required_resources conf)) true.

(** The inner loop of [_release_resources] walks the list it shrinks:
    index [i] moves on by one after every element, also after a removal.
    [fuel] bounds the number of iterations. *)
Fixpoint release_scan (job res_name : string) (fuel i : nat) : M unit :=
  match fuel with
  | O => ret tt
  | S fuel' =>
      fun m =>
        let held := default [] (od_get res_name (acquired_resources m)) in
        match held !! i with
        | None => Ok tt m
        | Some (rjob, res_amount) =>
            if String.eqb rjob job then
              match available_resources m !! res_name with
              | None => Exc (KeyError res_name) m
              | Some v =>
                  let m1 := set_available
                              (<[res_name := (v + res_amount)%Qc]> (available_resources m)) m in
                  match py_remove (rjob, res_amount) held with
                  | None => Exc ValueError m1
                  | Some held' =>
                      release_scan job res_name fuel' (S i)
                        (set_acquired (od_set res_name held' (acquired_resources m1)) m1)
                  end
              end
            else release_scan job res_name fuel' (S i) m
        end
  end.

Definition release_resource (job res_name : string) : M unit :=
  fun m => release_scan job res_name
             (length (default [] (od_get res_name (acquired_resources m)))) 0 m.

Definition _release_resources (job : string) : M unit :=
  fun m => for_each (od_keys (acquired_resources m)) (release_resource job) m.

(* ================================================================== *)
(** * Pending jobs and the fan-out expansion *)
(* ================================================================== *)

(** Assignments to single keys of a job description. *)
Definition with_required_resources (v : option (list resource_set)) (c : jobconf) : jobconf :=
  JobConf (command c) (init_args c) (retry_args c) (tags c) (units c) (project_id c)
    v (wait_for c) (wait_time c) (retries c) (on_finish c) (parallel_arg c).
Definition with_init_args (v : option (list string)) (c : jobconf) : jobconf :=
  JobConf (command c) v (retry_args c) (tags c) (units c) (project_id c)
    (required_resources c) (wait_for c) (wait_time c) (retries c) (on_finish c)
    (parallel_arg c).
Definition with_retry_args (v : option (list string)) (c : jobconf) : jobconf :=
  JobConf (command c) (init_args c) v (tags c) (units c) (project_id c)
    (required_resources c) (wait_for c) (wait_time c) (retries c) (on_finish c)
    (parallel_arg c).
Definition with_wait_for (v : option (list string)) (c : jobconf) : jobconf :=
  JobConf (command c) (init_args c) (retry_args c) (tags c) (units c) (project_id c)
    (required_resources c) v (wait_time c) (retries c) (on_finish c) (parallel_arg c).
Definition with_retries (v : option Z) (c : jobconf) : jobconf :=
  JobConf (command c) (init_args c) (retry_args c) (tags c) (units c) (project_id c)
    (required_resources c) (wait_for c) (wait_time c) v (on_finish c) (parallel_arg c).
Definition with_on_finish (v : option (odict (list string))) (c : jobconf) : jobconf :=
  JobConf (command c) (init_args c) (retry_args c) (tags c) (units c) (project_id c)
    (required_resources c) (wait_for c) (wait_time c) (retries c) v (parallel_arg c).
Definition with_parallel_arg (v : option string) (c : jobconf) : jobconf :=
  JobConf (command c) (init_args c) (retry_args c) (tags c) (units c) (project_id c)
    (required_resources c) (wait_for c) (wait_time c) (retries c) (on_finish c) v.

Definition with_p_wait_for (v : gset string) (p : pending_job) : pending_job :=
  PendingJob v (p_retries p) (p_required_resources p) (p_origin p) (p_wait_time p).

(** [Fraction(res_amount, parallelization)] *)
Definition Fraction (res_amount : Qc) (n : nat) : Qc :=
  (res_amount / Q2Qc (inject_Z (Z.of_nat n)))%Qc.

(** The resource sets of one unit: every amount split into [n] parts. *)
Definition scale_set (n : nat) (rs : resource_set) : resource_set :=
  map (fun ra => (ra.1, Fraction ra.2 n)) rs.

Definition unit_required_resources (n : nat) (sets : list resource_set)
  : list resource_set := map (scale_set n) sets.

(** [self.get_job(nextjob).setdefault('wait_for', []).append(job_unit)],
    and the same on the pending record when there is one. *)
Definition link_successor (nextjob job_unit : string) : M unit :=
  _ <- get_job nextjob ;;
  update_job nextjob
    (fun c => with_wait_for (Some (default [] (wait_for c) ++ [job_unit])%list) c) ;;;
  update_pending nextjob (fun p => with_p_wait_for (p_wait_for p ∪ {[job_unit]}) p).

(** The loop taken when [nextjob] is not in the graph.  It formats the
    names of its units from [job], the job being expanded, and appends to
    the list that [.get('wait_for', [])] returns: the list of the
    description when it has one, a fresh list otherwise. *)
Definition link_unit (job job_unit : string) (i : nat) : M unit :=
  let nextjobp := unit_name job i in
  _ <- get_job nextjobp ;;
  update_job nextjobp
    (fun c => match wait_for c with
              | Some l => with_wait_for (Some (l ++ [job_unit])%list) c
              | None => c
              end) ;;;
  update_pending nextjobp (fun p => with_p_wait_for (p_wait_for p ∪ {[job_unit]}) p).

(** [for nextjob in copy(nextjobs)]: [todo] is the copy, [nextjobs] the
    list being emptied, [i] the current binding of the variable that the
    inner [for i in range(...)] rebinds.  Returns the list and [i]. *)
Fixpoint strip_nextjobs (job job_unit : string) (n : nat)
    (todo nextjobs : list string) (i : nat) : M (list string * nat) :=
  match todo with
  | [] => ret (nextjobs, i)
  | nextjob :: todo' =>
      if String.eqb nextjob "retry" then strip_nextjobs job job_unit n todo' nextjobs i
      else
        m <- get ;;
        i' <- (if od_mem nextjob (jobs_graph m)
               then link_successor nextjob job_unit ;;; ret i
               else for_each (seq 0 n) (link_unit job job_unit) ;;;
                    ret (match n with O => i | S k => k end)) ;;
        match py_remove nextjob nextjobs with
        | None => raise ValueError
        | Some nextjobs' => strip_nextjobs job job_unit n todo' nextjobs' i'
        end
  end.

(** [for _, nextjobs in job_unit_conf.get('on_finish', {}).items()] *)
Fixpoint strip_on_finish (job job_unit : string) (n : nat)
    (items : odict (list string)) (i : nat) : M (odict (list string) * nat) :=
  match items with
  | [] => ret ([], i)
  | (outcome, nextjobs) :: rest =>
      r <- (if Nat.eqb i 0 then ret (nextjobs, i)
            else strip_nextjobs job job_unit n nextjobs nextjobs i) ;;
      r' <- strip_on_finish job job_unit n rest r.2 ;;
      ret ((outcome, r.1) :: r'.1, r'.2)
  end.

(** The description of unit [i], before its [on_finish] is visited. *)
Definition unit_conf (basejobconf : jobconf) (sets : list resource_set)
    (parallel_arg : string) (n i : nat) : jobconf :=
  let parg := replace_pct_d parallel_arg (str_of_nat i) in
  let c1 := with_required_resources (Some (unit_required_resources n sets)) basejobconf in
  let c2 := with_init_args (Some (default [] (init_args c1) ++ [parg])%list) c1 in
  match retry_args c2 with
  | Some l => with_retry_args (Some (l ++ [parg])%list) c2
  | None => c2
  end.

(** One iteration of [for i in range(self.parallelization)]. *)
Definition add_unit (job : string) (basejobconf : jobconf) (sets : list resource_set)
    (parallel_arg : string) (wait_for : list string) (retries : Z)
    (wait_time : option Q) (n i : nat) : M unit :=
  let job_unit := unit_name job i in
  let c := unit_conf basejobconf sets parallel_arg n i in
  r <- strip_on_finish job job_unit n (default [] (on_finish c)) i ;;
  let job_unit_conf :=
    match on_finish c with
    | Some _ => with_on_finish (Some r.1) c
    | None => c
    end in
  modify (fun m => set_jobs_graph (od_set job_unit job_unit_conf (jobs_graph m)) m) ;;;
  modify (fun m => set_pending_jobs
            (od_set job_unit
               (PendingJob (list_to_set wait_for) retries
                  (default [] (required_resources job_unit_conf)) (Some job) wait_time)
               (pending_jobs m)) m).

(** One iteration of the closing loop: a task waiting for [job] waits
    for all of its units instead. *)
Definition rewire (job : string) (n : nat) (other : string) : M unit :=
  m <- get ;;
  match od_get other (jobs_graph m) with
  | None => ret tt
  | Some oconf =>
      let wl := default [] (wait_for oconf) in
      if py_in job wl then
        match py_remove job wl with
        | None => raise ValueError
        | Some wl' =>
            let job_units := map (unit_name job) (seq 0 n) in
            update_job other (with_wait_for (Some (wl' ++ job_units)%list)) ;;;
            update_pending other
              (fun p => with_p_wait_for ((p_wait_for p ∖ {[job]}) ∪ list_to_set job_units) p)
        end
      else ret tt
  end.

Definition _add_pending_job (job : string) (wait_for : list string) (retries : Z) : M unit :=
  basejobconf0 <- get_job job ;;
  let wait_time := wait_time basejobconf0 in
  let required_resources_sets := default [] (required_resources basejobconf0) in
  let parallel_arg := parallel_arg basejobconf0 in
  let basejobconf := with_parallel_arg None basejobconf0 in      (* .pop('parallel_arg') *)
  update_job job (fun _ => basejobconf) ;;;
  match parallel_arg with
  | Some (String a s) =>
      modify (fun m => set_jobs_graph (od_del job (jobs_graph m)) m) ;;;
      m <- get ;;
      match parallelization m with
      | None => raise TypeError                                   (* range(None) *)
      | Some n =>
          for_each (seq 0 n)
            (add_unit job basejobconf required_resources_sets (String a s)
               wait_for retries wait_time n) ;;;
          m' <- get ;;
          for_each (od_keys (jobs_graph m')) (rewire job n)
      end
  | _ =>
      modify (fun m => set_pending_jobs
                (od_set job
                   (PendingJob (list_to_set wait_for) retries required_resources_sets
                      None wait_time)
                   (pending_jobs m)) m)
  end.

Definition _add_initial_pending_job (job : string) : M unit :=
  c <- get_job job ;;
  _add_pending_job job (default [] (wait_for c)) 0.

(* ================================================================== *)
(** * Running jobs *)
(* ================================================================== *)

Definition get_command_line (job : string) (retries : Z) : M (list string) :=
  jobconf <- get_job job ;;
  let init := default [] (init_args jobconf) in
  let retry := default init (retry_args jobconf) in
  ret (command jobconf :: (if Z.eqb retries 0 then init else retry)).

(** [run_job]: a programmatic task runs itself; otherwise the command
    line goes to [schedule_script], and a job id that is not truthy is
    not returned. *)
Definition run_job (w : world) (job : string) (retries : Z) : M (option string) :=
  match task_run w job with
  | Some run =>
      fun m =>
        let m1 := tick_io (log_submission job retries m) in
        match run (io_count m) retries with
        | Returned jobid => Ok jobid m1
        | Raised => Exc BackendError m1
        end
  | None =>
      jobconf <- get_job job ;;
      cmd <- get_command_line job retries ;;
      fun m =>
        let m1 := tick_io (log_submission job retries m) in
        match schedule_script w (io_count m) cmd (tags jobconf) (units jobconf)
                (project_id jobconf) with
        | Returned (Some (String a s)) => Ok (Some (String a s)) m1
        | Returned _ => Ok None m1
        | Raised => Exc BackendError m1
        end
  end.

Definition pending_conf (job : string) : M pending_job :=
  fun m => match od_get job (pending_jobs m) with
           | Some conf => Ok conf m
           | None => Exc (KeyError job) m
           end.

(** [_must_wait_time]: the clock is read only when the job has a
    [wait_time]. *)
Definition _must_wait_time (w : world) (job : string) : M bool :=
  conf <- pending_conf job ;;
  match p_wait_time conf with
  | Some t =>
      fun m =>
        let wait_time := (t - elapsed w (io_count m))%Q in
        Ok (negb (Qle_bool wait_time 0)) (tick_io m)
  | None => ret false
  end.

(** The body of [if job_can_run:] in both passes. *)
Definition start_job (w : world) (job : string) (conf : pending_job) : M unit :=
  fun m =>
    match run_job w job (p_retries conf) m with
    | Exc e m1 =>
        match _release_resources job m1 with
        | Ok _ m2 => Exc e m2
        | Exc e' m2 => Exc e' m2
        end
    | Ok jobid m1 =>
        match od_get job (pending_jobs m1) with
        | None => Exc (KeyError job) m1
        | Some _ =>
            Ok tt (set_running_jobs (od_set job jobid (running_jobs m1))
                     (set_pending_jobs (od_del job (pending_jobs m1)) m1))
        end
    end.

(** [len(self.__running_jobs) >= max_running_jobs], where an absent or
    zero option stands for infinity. *)
Definition at_capacity (m : manager) : bool :=
  match max_running_jobs m with
  | Some (S k) => Nat.leb (S k) (length (running_jobs m))
  | _ => false
  end.

Definition is_empty {A} (l : list A) : bool :=
  match l with [] => true | _ => false end.

(** [job_can_run] of the first pass, with its short-circuits. *)
Definition can_run_a (w : world) (job : string) (conf : pending_job) : M bool :=
  if bool_decide (p_wait_for conf = ∅) then
    must_wait <- _must_wait_time w job ;;
    if must_wait then ret false else _try_acquire_resources job
  else ret false.

(** Normal mode: the loop over [sorted(self.__pending_jobs.keys())]. *)
Fixpoint pass_a (w : world) (jobs : list string) : M unit :=
  match jobs with
  | [] => ret tt
  | job :: rest =>
      m <- get ;;
      if at_capacity m then ret tt
      else
        conf <- pending_conf job ;;
        job_can_run <- can_run_a w job conf ;;
        (if job_can_run then start_job w job conf else ret tt) ;;;
        pass_a w rest
  end.

(** The negation of the condition under which [run_pending_jobs] returns
    after the first loop. *)
Definition enters_pass_b (m : manager) : bool :=
  negb (is_empty (pending_jobs m) || negb (is_empty (running_jobs m))
        || existsb (fun conf => match p_wait_time conf with Some _ => true | None => false end)
             (od_values (pending_jobs m))).

(** Truth value of [origin_job]. *)
Definition truthy (o : option string) : bool :=
  match o with Some (String _ _) => true | _ => false end.

Definition can_run_b (job : string) (conf : pending_job) (origin_job : option string)
  : M bool :=
  m <- get ;;
  if forallb (fun w => negb (od_mem w (pending_jobs m))) (elements (p_wait_for conf))
  then if negb (truthy origin_job) || bool_decide (p_origin conf = origin_job)
       then _try_acquire_resources job
       else ret false
  else ret false.

(** "Skip unknown deps" mode.  Leaving the loop by [break], by [return]
    or at its end is the same to the caller: the [return] is taken only
    with a job running, and after the loop the method returns when a job
    is running. *)
Fixpoint pass_b (w : world) (jobs : list string) (origin_job : option string) : M unit :=
  match jobs with
  | [] => ret tt
  | job :: rest =>
      m <- get ;;
      if at_capacity m then ret tt
      else
        conf <- pending_conf job ;;
        job_can_run <- can_run_b job conf origin_job ;;
        let origin_job' := p_origin conf in
        (if job_can_run then start_job w job conf else ret tt) ;;;
        m' <- get ;;
        if negb (truthy origin_job') && negb (is_empty (running_jobs m'))
        then ret tt
        else pass_b w rest origin_job'
  end.

Definition cycle_report (m : manager) : list (string * list string) :=
  map (fun job => (job, match od_get job (pending_jobs m) with
                        | Some conf => sorted (elements (p_wait_for conf))
                        | None => []
                        end))
      (sorted (od_keys (pending_jobs m))).

(** The second loop and what follows it. *)
Definition second_pass (w : world) : M unit :=
  m1 <- get ;;
  pass_b w (sorted (od_keys (pending_jobs m1))) None ;;;
  m2 <- get ;;
  if is_empty (running_jobs m2) then raise (DependencyCycle (cycle_report m2))
  else ret tt.

Definition run_pending_jobs (w : world) : M unit :=
  m <- get ;;
  pass_a w (sorted (od_keys (pending_jobs m))) ;;;
  m1 <- get ;;
  if enters_pass_b m1 then second_pass w else ret tt.

(* ================================================================== *)
(** * Completion handling *)
(* ================================================================== *)

Definition _get_next_jobs (job outcome : string) : M (list string) :=
  m <- get ;;
  if only_starting_jobs m then ret []
  else
    conf <- get_job job ;;
    let on_fin := default [] (on_finish conf) in
    match od_get outcome on_fin with
    | Some nextjobs => ret nextjobs
    | None =>
        if py_in outcome (failed_outcomes m)
        then ret (default [] (od_get "failed" on_fin))
        else ret (default [] (od_get "default" on_fin))
    end.

(** [jobconf['retries'] -= 1] on the object fetched before the job was
    added again: the graph sees it when it still holds that object. *)
Definition decrement_retries (job : string) : M unit :=
  update_job job (fun c => with_retries (Some (default 0%Z (retries c) - 1)%Z) c).

(** The body of [for nextjob in self._get_next_jobs(job, outcome)]. *)
Definition handle_next (job nextjob : string) : M unit :=
  if String.eqb nextjob "retry" then
    jobconf <- get_job job ;;
    if (0 <? default 0 (retries jobconf))%Z then
      _add_pending_job job [] 1 ;;;
      decrement_retries job
    else ret tt
  else
    m <- get ;;
    if od_mem nextjob (pending_jobs m) then ret tt
    else
      c <- get_job nextjob ;;
      _add_pending_job nextjob (default [] (wait_for c)) 0.

Definition discard_dependency (job : string) : M unit :=
  modify (fun m => set_pending_jobs
            (od_map (fun _ conf => with_p_wait_for (p_wait_for conf ∖ {[job]}) conf)
               (pending_jobs m)) m) ;;;
  modify (fun m => set_jobs_graph
            (od_map (fun _ conf =>
               match wait_for conf with
               | Some l => match py_remove job l with
                           | Some l' => with_wait_for (Some l') conf
                           | None => conf
                           end
               | None => conf
               end) (jobs_graph m)) m).

Definition pop_running (job : string) : M unit :=
  fun m => match od_get job (running_jobs m) with
           | Some _ => Ok tt (set_running_jobs (od_del job (running_jobs m)) m)
           | None => Exc (KeyError job) m
           end.

(** The body of [if outcome is not None:]. *)
Definition finish_job (job outcome : string) : M unit :=
  discard_dependency job ;;;
  nextjobs <- _get_next_jobs job outcome ;;
  for_each nextjobs (handle_next job) ;;;
  _release_resources job ;;;
  pop_running job.

Definition check_running_job (w : world) (entry : string * option string) : M unit :=
  outcome <- (fun m => Ok (is_finished w (io_count m) entry.2) (tick_io m)) ;;
  match outcome with
  | Some o => finish_job entry.1 o
  | None => ret tt
  end.

Definition check_running_jobs (w : world) : M unit :=
  m <- get ;;
  for_each (running_jobs m) (check_running_job w).

(** One tick; [false] tells the driver that the workflow is complete. *)
Definition workflow_loop (w : world) : M bool :=
  check_running_jobs w ;;;
  m <- get ;;
  if negb (is_empty (pending_jobs m)) then run_pending_jobs w ;;; ret true
  else if is_empty (running_jobs m) then ret false
  else ret true.

(** Modelled from the spec: the driver loop of the base class
    [WorkFlowManager], which is not part of this module (section 2, item 4:
    "calls the scheduler's tick at a fixed cadence until it signals
    completion").  Returns [true] when the tick signalled completion within
    [fuel] ticks. *)
Fixpoint run_workflow (w : world) (fuel : nat) : M bool :=
  match fuel with
  | O => ret false
  | S fuel' =>
      continue <- workflow_loop w ;;
      if continue then run_workflow w fuel' else ret true
  end.

(* ================================================================== *)
(** * Resuming *)
(* ================================================================== *)

Fixpoint strip_prefix (p s : string) : option string :=
  match p with
  | EmptyString => Some s
  | String c p' =>
      match s with
      | String c' s' => if Ascii.eqb c c' then strip_prefix p' s' else None
      | EmptyString => None
      end
  end.

(** The longest run of characters other than a line feed: what [.+]
    consumes. *)
Fixpoint dot_plus (s : string) : string :=
  match s with
  | EmptyString => EmptyString
  | String c s' => if Ascii.eqb c "010" then EmptyString else String c (dot_plus s')
  end.

(** [_STARTING_JOB_RE.match(opt)] for ["--starting-job(?:=(.+))?"]:
    [None] when there is no match, otherwise [m.groups()[0]]. *)
Definition starting_job_match (opt : string) : option (option string) :=
  match strip_prefix "--starting-job" opt with
  | None => None
  | Some rest =>
      match rest with
      | String "=" value =>
          match dot_plus value with
          | EmptyString => Some None
          | task => Some (Some task)
          end
      | _ => Some None
      end
  end.

(** The loop of [_get_starting_jobs_from_resumed_job] over the recorded
    command line.  Inside [if m:] the source tests [m] again. *)
Fixpoint scan_job_cmd (job_cmd : list string) (next_option_is_task : bool)
    (starting_jobs : list (option string)) : list (option string) :=
  match job_cmd with
  | [] => starting_jobs
  | opt :: rest =>
      if next_option_is_task
      then scan_job_cmd rest next_option_is_task (starting_jobs ++ [Some opt])
      else
        match starting_job_match opt with
        | Some task =>
            let m_is_true := true in
            if m_is_true
            then scan_job_cmd rest next_option_is_task (starting_jobs ++ [task])
            else scan_job_cmd rest true starting_jobs
        | None => scan_job_cmd rest next_option_is_task starting_jobs
        end
  end.

Definition _get_starting_jobs_from_resumed_job (job_cmd : list string)
  : list (option string) :=
  scan_job_cmd job_cmd false [].

(* ================================================================== *)
(** * Notions used to state the properties *)
(* ================================================================== *)

(** ** The ledger *)

(** Sum of the amounts of a list of [(job, amount)] entries. *)
Definition amounts_sum (held : list (string * Qc)) : Qc :=
  fold_right (fun e s => (e.2 + s)%Qc) (Q2Qc 0) held.

(** Sum of the amounts recorded for [r] in the acquired ledger. *)
Definition acquired_sum (r : string) (m : manager) : Qc :=
  amounts_sum (default [] (od_get r (acquired_resources m))).

(** What is available of [r], read as [_fill_available_resources] reads
    it: [_available_resources.get(r, 0)]. *)
Definition available_amount (r : string) (m : manager) : Qc :=
  default (Q2Qc 0) (available_resources m !! r).

(** The quantity the ledger keeps for [r]. *)
Definition ledger_total (r : string) (m : manager) : Qc :=
  (available_amount r m + acquired_sum r m)%Qc.

Definition Qc_max (x y : Qc) : Qc := if Qc_ltb x y then y else x.

(** The amounts that the resource sets of the graph ask of [r]. *)
Definition set_amounts (r : string) (rs : resource_set) : list Qc :=
  map snd (List.filter (fun ra => String.eqb ra.1 r) rs).

Definition job_amounts (r : string) (c : jobconf) : list Qc :=
  flat_map (set_amounts r) (default [] (required_resources c)).

Definition graph_amounts (r : string) (g : odict jobconf) : list Qc :=
  flat_map (job_amounts r) (od_values g).

Definition max_list (l : list Qc) : option Qc :=
  match l with
  | [] => None
  | x :: l' => Some (fold_left Qc_max l' x)
  end.

(** The largest amount of [r] in any resource set of any task; [None]
    when no task mentions [r]. *)
Definition initial_capacity (r : string) (g : odict jobconf) : option Qc :=
  max_list (graph_amounts r g).

(** Amounts are non-negative (section 3 of the specification). *)
Definition nonneg_amounts (g : odict jobconf) : Prop :=
  forall r a, In a (graph_amounts r g) -> (Q2Qc 0 <= a)%Qc.

(** A check of [nonneg_amounts] that computes. *)
Definition nonneg_amountsb (g : odict jobconf) : bool :=
  forallb (fun c => forallb (forallb (fun ra : string * Qc => negb (Qc_ltb ra.2 (Q2Qc 0))))
                      (default [] (required_resources c)))
          (od_values g).

(** States of the ledger reached from [on_start] by acquisitions and
    releases, whether they return or raise. *)
Inductive ledger_reachable (g : odict jobconf) : manager -> Prop :=
  | reach_start m0 :
      jobs_graph m0 = g ->
      available_resources m0 = ∅ ->
      acquired_resources m0 = [] ->
      ledger_reachable g (final_state (_fill_available_resources m0))
  | reach_acquire m job :
      ledger_reachable g m ->
      ledger_reachable g (final_state (_try_acquire_resources job m))
  | reach_release m job :
      ledger_reachable g m ->
      ledger_reachable g (final_state (_release_resources job m)).

(** ** Acquisition *)

(** A resource set fits: every resource it names is available in at
    least the requested amount. *)
Definition fits (m : manager) (rs : resource_set) : bool :=
  forallb (fun ra => match available_resources m !! ra.1 with
                     | Some v => negb (Qc_ltb v ra.2)
                     | None => false
                     end) rs.

(** Every resource named by the sets has an entry in the dictionary of
    available resources. *)
Definition resources_known (m : manager) (sets : list resource_set) : Prop :=
  forall rs ra, In rs sets -> In ra rs -> is_Some (available_resources m !! ra.1).

(** The amount a resource set asks of [r]. *)
Definition requested (r : string) (rs : resource_set) : option Qc := od_get r rs.

(** What [take_set] does to the ledger, and that it does nothing else. *)
Definition after_take (job : string) (rs : resource_set) (m m' : manager) : Prop :=
  (forall r, available_resources m' !! r =
             match requested r rs with
             | Some a => (fun v => (v - a)%Qc) <$> available_resources m !! r
             | None => available_resources m !! r
             end) /\
  (forall r, default [] (od_get r (acquired_resources m')) =
             match requested r rs with
             | Some a => (default [] (od_get r (acquired_resources m)) ++ [(job, a)])%list
             | None => default [] (od_get r (acquired_resources m))
             end) /\
  jobs_graph m' = jobs_graph m /\
  pending_jobs m' = pending_jobs m /\
  running_jobs m' = running_jobs m.

(** ** Admission *)

(** The condition of the stalemate escape: jobs are pending, none is
    running, and no pending job has a [wait_time]. *)
Definition stalemate (m : manager) : Prop :=
  pending_jobs m <> [] /\
  running_jobs m = [] /\
  forall conf, In conf (od_values (pending_jobs m)) -> p_wait_time conf = None.

(** Admission by the first pass on timer and resources alone. *)
Definition can_run_without_deps (w : world) (job : string) : M bool :=
  must_wait <- _must_wait_time w job ;;
  if must_wait then ret false else _try_acquire_resources job.

(** The declared [wait_for] of a job of the graph. *)
Definition declared_wait_for (job : string) (m : manager) : option (list string) :=
  od_get job (jobs_graph m) ≫= wait_for.

(** The outstanding dependencies of a pending job. *)
Definition pending_wait_for (job : string) (m : manager) : option (list string) :=
  (fun p => elements (p_wait_for p)) <$> od_get job (pending_jobs m).

(** ** Fan-out *)

(** The amount of [r] in the [k]-th resource set of unit [i], as the
    expansion builds it. *)
Definition unit_amount (base : jobconf) (parallel_arg : string) (n k : nat)
    (r : string) (i : nat) : option Qc :=
  sets ← required_resources
           (unit_conf base (default [] (required_resources base)) parallel_arg n i);
  rs ← sets !! k;
  requested r rs.

(** The amount of [r] in the [k]-th resource set of a job of the graph. *)
Definition graph_amount (m : manager) (job : string) (k : nat) (r : string) : option Qc :=
  c ← od_get job (jobs_graph m);
  sets ← required_resources c;
  rs ← sets !! k;
  requested r rs.

(** Sum of a list of amounts. *)
Definition Qc_sum (l : list Qc) : Qc := fold_right Qcplus (Q2Qc 0) l.

(** [m'] keeps every job of the graph of [m], with the same resource
    sets, and the same parallelization. *)
Definition extends (m m' : manager) : Prop :=
  parallelization m' = parallelization m /\
  forall k c, od_get k (jobs_graph m) = Some c ->
    exists c', od_get k (jobs_graph m') = Some c'
               /\ required_resources c' = required_resources c.

(** Every successor other than ["retry"] named by [on_fin] is a job of
    the graph. *)
Definition successors_declared (on_fin : odict (list string)) (m : manager) : Prop :=
  forall outcome nextjobs nextjob,
    In (outcome, nextjobs) on_fin -> In nextjob nextjobs -> nextjob <> "retry" ->
    od_mem nextjob (jobs_graph m) = true.

(** The first [j] units of [job] are in the graph with the resource
    sets [sets]. *)
Definition units_stored (job : string) (sets : list resource_set) (j : nat)
    (m : manager) : Prop :=
  forall i, i < j ->
    exists c, od_get (unit_name job i) (jobs_graph m) = Some c
              /\ required_resources c = Some sets.

(** ** Startup and retries *)

(** [on_start] with one [--starting-job]. *)
Definition start_with (job : string) : M unit :=
  _fill_available_resources ;;; _add_initial_pending_job job.

(** Task [A] with a retry budget of [k] and
    [on_finish.failed = ["retry"]], and the states the retry scenario goes
    through: only the pending and running maps, the budget, the
    interaction count and the log change. *)
Definition retry_task (k : Z) : jobconf :=
  JobConf "a.py" None None None None None None None None (Some k)
    (Some [("failed", ["retry"])]) None.

Definition retry_state (k : Z) (pending : odict pending_job)
    (running : odict (option string)) (io : nat) (log : list (string * Z)) : manager :=
  Manager [("A", retry_task k)] pending running ∅ [] base_failed_outcomes
    None None false io log.

Definition retry_pending (r : Z) : odict pending_job :=
  [("A", PendingJob ∅ r [] None None)].

(** A backend that takes every submission of [A] and reports every job
    failed at every poll. *)
Definition always_failing (w : world) : Prop :=
  task_run w "A" = None
  /\ (forall n cmd t u p, schedule_script w n cmd t u p <> Raised)
  /\ (forall n id, is_finished w n id = Some "failed").

(* ================================================================== *)
(** * Example graphs, states and backends *)
(* ================================================================== *)

(** A description with a command and nothing else. *)
Definition plain_job (cmd : string) : jobconf :=
  JobConf cmd None None None None None None None None None None None.

(** A pending record with the given dependencies, origin and timer. *)
Definition waiting (deps : list string) (origin : option string) (t : option Q)
  : pending_job := PendingJob (list_to_set deps) 0 [] origin t.

(** A backend that schedules nothing: [schedule_script] returns [None]. *)
Definition null_backend : world :=
  World (fun _ => None) (fun _ _ _ _ _ => Returned None) (fun _ _ => None)
        (fun _ => 0%Q).

(** A backend that schedules every job and reports none finished;
    [time() - __start_time] reads 5 seconds. *)
Definition idle_backend : world :=
  World (fun _ => None) (fun n _ _ _ _ => Returned (Some ("job" ++ str_of_nat n)))
        (fun _ _ => None) (fun _ => 5%Q).

(** A backend that schedules every job and reports it failed at the
    next poll. *)
Definition failing_backend : world :=
  World (fun _ => None) (fun n _ _ _ _ => Returned (Some ("job" ++ str_of_nat n)))
        (fun _ _ => Some "failed") (fun _ => 0%Q).

(** [X] asks for one cpu; [Y] for two, and one of memory. *)
Definition two_cpu_jobs : odict jobconf :=
  [("X", JobConf "x.py" None None None None None
           (Some [[("cpu", Q2Qc 1)]]) None None None None None);
   ("Y", JobConf "y.py" None None None None None
           (Some [[("cpu", Q2Qc 2); ("mem", Q2Qc 1)]]) None None None None None)].

(** One job with two alternative resource sets, and one unit of cpu
    available. *)
Definition two_sets_job : jobconf :=
  JobConf "j.py" None None None None None
    (Some [[("cpu", Q2Qc 2)]; [("cpu", Q2Qc 1)]]) None None None None None.

Definition one_cpu_manager : manager :=
  set_available {["cpu" := Q2Qc 1]}
    (set_pending_jobs [("J", PendingJob ∅ 0 [] None None)]
       (new_manager [("J", two_sets_job)] None None false)).

(** One pending job that asks for no resource. *)
Definition free_job_manager : manager :=
  set_pending_jobs [("J", PendingJob ∅ 0 [] None None)]
    (new_manager [("J", plain_job "j.py")] None None false).

(** One job waiting for a task that is not pending. *)
Definition stale_edge_manager : manager :=
  set_pending_jobs [("M", waiting ["Z"] None None)]
    (new_manager [("M", plain_job "m.py")] None None false).

(** The same, with a [wait_time] of zero seconds. *)
Definition elapsed_timer_manager : manager :=
  set_pending_jobs [("J", waiting ["Z"] None (Some 0%Q))]
    (new_manager [("J", plain_job "j.py")] None None false).

(** Unit [A_0] waits for the pending [B_0]; [B_0] waits for a task that
    is not pending. *)
Definition blocked_first_manager : manager :=
  set_pending_jobs [("A_0", waiting ["B_0"] (Some "A") None);
                    ("B_0", waiting ["Z"] (Some "B") None)]
    (new_manager [("A_0", plain_job "a.py"); ("B_0", plain_job "b.py")] None None false).

(** [P_0] and [Q_1] wait for a task that is not pending, [Q_0] waits
    for [P_0]. *)
Definition two_families_manager : manager :=
  set_pending_jobs [("P_0", waiting ["Z"] (Some "P") None);
                    ("Q_0", waiting ["P_0"] (Some "Q") None);
                    ("Q_1", waiting ["Z"] (Some "Q") None)]
    (new_manager [("P_0", plain_job "p.py"); ("Q_0", plain_job "q.py");
                  ("Q_1", plain_job "q.py")] None None false).

(** Two fan-out tasks, [P] with successor [Q], and a parallelization
    of 2. *)
Definition fan_out_graph : odict jobconf :=
  [("P", JobConf "p.py" None None None None None None None None None
           (Some [("default", ["Q"])]) (Some "--shard=%d"));
   ("Q", JobConf "q.py" None None None None None None (Some []) None None
           None (Some "--part=%d"))].

Definition fan_out_manager : manager :=
  new_manager fan_out_graph (Some 2) None false.

(** Task [P] asks for one cpu and two of memory and is split in three. *)
Definition shard_job : jobconf :=
  JobConf "p.py" None None None None None
    (Some [[("cpu", Q2Qc 1); ("mem", Q2Qc 2)]]) None None None None (Some "--shard=%d").

Definition shard_manager : manager :=
  new_manager [("P", shard_job)] (Some 3) None false.

(** Task [A] with a retry budget of 2. *)
Definition retry_graph : odict jobconf := [("A", retry_task 2)].

(** Task [B] waits for [A], has one retry left, and is running. *)
Definition retry_once_manager : manager :=
  set_running_jobs [("B", Some "job0")]
    (new_manager
       [("B", JobConf "b.py" None None None None None None (Some ["A"]) None (Some 1%Z)
                (Some [("failed", ["retry"])]) None)] None None false).

From Stdlib Require DecimalNat.

(* ================================================================== *)
(** * Further notions: frames and ledger states *)
(* ================================================================== *)

(** [m'] differs from [m] at most in the ledger, the interaction count
    and the log. *)
Definition same_jobs (m m' : manager) : Prop :=
  jobs_graph m' = jobs_graph m /\
  pending_jobs m' = pending_jobs m /\
  running_jobs m' = running_jobs m /\
  failed_outcomes m' = failed_outcomes m /\
  parallelization m' = parallelization m /\
  max_running_jobs m' = max_running_jobs m /\
  only_starting_jobs m' = only_starting_jobs m.

(** The entries recorded for [r] in the acquired ledger. *)
Definition held_for (r : string) (m : manager) : list (string * Qc) :=
  default [] (od_get r (acquired_resources m)).

(** [job] has no entry in the acquired ledger. *)
Definition holds_nothing (job : string) (m : manager) : Prop :=
  forall r e, In e (held_for r m) -> e.1 <> job.

(** The ledgers of [m] and [m'] agree: the same amounts available, the
    same entries recorded for every resource. *)
Definition same_ledger (m m' : manager) : Prop :=
  available_resources m' = available_resources m /\
  forall r, held_for r m' = held_for r m.

(** While a job's acquisition is undone resource by resource, a
    resource is either back where it was in [m0], or still carries the
    entry of the job and lacks its amount. *)
Definition released_at (m0 m' : manager) (r : string) : Prop :=
  held_for r m' = held_for r m0 /\
  available_resources m' !! r = available_resources m0 !! r.

Definition to_release_at (job : string) (rs : resource_set) (m0 m' : manager)
    (r : string) : Prop :=
  exists a v, requested r rs = Some a
              /\ available_resources m0 !! r = Some v
              /\ held_for r m' = (held_for r m0 ++ [(job, a)])%list
              /\ available_resources m' !! r = Some (v - a)%Qc.

(** [X] holds the only cpu of the two-job graph. *)
Definition busy_manager : manager :=
  set_acquired [("cpu", [("X", Q2Qc 1)])]
    (set_available {["cpu" := Q2Qc 1; "mem" := Q2Qc 1]}
       (new_manager two_cpu_jobs None None false)).

(** The two-job graph after [on_start] filled the ledger. *)
Definition filled_manager : manager :=
  set_available {["cpu" := Q2Qc 2; "mem" := Q2Qc 1]}
    (new_manager two_cpu_jobs None None false).

Definition filled_pending_manager : manager :=
  set_pending_jobs [("Y", PendingJob ∅ 0 [] None None)] filled_manager.

(** A backend whose [schedule_script] raises. *)
Definition raising_backend : world :=
  World (fun _ => None) (fun _ _ _ _ _ => Raised) (fun _ _ => None) (fun _ => 0%Q).

(** The resource sets of the graph are dictionaries: no resource is
    named twice in one set. *)
Definition sets_well_keyed (g : odict jobconf) : Prop :=
  forall job conf rs,
    od_get job g = Some conf ->
    In rs (default [] (required_resources conf)) -> NoDup rs.*1.

(** No amount of the ledger is negative. *)
Definition ledger_nonneg (m : manager) : Prop :=
  (forall r v, available_resources m !! r = Some v -> (Q2Qc 0 <= v)%Qc) /\
  (forall r e, In e (held_for r m) -> (Q2Qc 0 <= e.2)%Qc).

(** A check of [sets_well_keyed] that computes. *)
Definition sets_well_keyedb (g : odict jobconf) : bool :=
  forallb (fun c => forallb (fun rs : resource_set => bool_decide (NoDup rs.*1))
                      (default [] (required_resources c)))
          (od_values g).

(** Job [Z] asks for nothing of [gpu]; no other job names it. *)
Definition zero_amount_graph : odict jobconf :=
  [("Z", JobConf "z.py" None None None None None
           (Some [[("gpu", Q2Qc 0); ("cpu", Q2Qc 1)]]) None None None None None)].

(** The running map respects a cap of [S k] jobs. *)
Definition within_cap (k : nat) (m : manager) : Prop :=
  max_running_jobs m = Some (S k) /\ length (running_jobs m) <= S k.

(** Two pending jobs without dependencies, and a cap of one running job. *)
Definition capped_manager : manager :=
  set_pending_jobs [("A", PendingJob ∅ 0 [] None None); ("B", PendingJob ∅ 0 [] None None)]
    (new_manager [("A", plain_job "a.py"); ("B", plain_job "b.py")] None (Some 1) false).

(** Every pending job waits for a job that is itself pending. *)
Definition deadlocked (m : manager) : Prop :=
  forall job conf, od_get job (pending_jobs m) = Some conf ->
    exists dep, dep ∈ p_wait_for conf /\ od_mem dep (pending_jobs m) = true.

(** [U] waits for [V] and [V] for [U]. *)
Definition cycle_manager : manager :=
  set_pending_jobs [("U", waiting ["V"] None None); ("V", waiting ["U"] None None)]
    (new_manager [("U", plain_job "u.py"); ("V", plain_job "v.py")] None None false).

(** [M] and [N] wait for a task that is not pending. *)
Definition stale_pair_manager : manager :=
  set_pending_jobs [("N", waiting ["Z"] None None); ("M", waiting ["Z"] None None)]
    (new_manager [("M", plain_job "m.py"); ("N", plain_job "n.py")] None None false).

(** [D] waits for [A]; [A] waits for nothing. *)
Definition chain_manager : manager :=
  set_pending_jobs [("A", waiting [] None None); ("D", waiting ["A"] None None)]
    (new_manager [("A", plain_job "a.py"); ("D", plain_job "d.py")] None None false).

(** Two running jobs and one pending job that waits for one of them. *)
Definition running_pair_manager : manager :=
  set_running_jobs [("A", Some "job0"); ("B", Some "job1")]
    (set_pending_jobs [("C", waiting ["A"] None None)]
       (new_manager [("A", JobConf "a.py" None None None None None None None None
                             (Some 1%Z) (Some [("default", ["B"]); ("failed", ["retry"])])
                             None);
                      ("B", plain_job "b.py"); ("C", plain_job "c.py")]
          None None true)).

(** A backend that reports every job finished. *)
Definition finishing_backend : world :=
  World (fun _ => None) (fun n _ _ _ _ => Returned (Some ("job" ++ str_of_nat n)))
        (fun _ _ => Some "finished") (fun _ => 0%Q).

(** [m'] has the jobs of [m] in its graph and in its pending map, in
    the same order, and the same [only_starting_jobs] flag. *)
Definition same_keys (m m' : manager) : Prop :=
  only_starting_jobs m' = only_starting_jobs m /\
  od_keys (pending_jobs m') = od_keys (pending_jobs m) /\
  od_keys (jobs_graph m') = od_keys (jobs_graph m).

(* ================================================================== *)
(** * Further notions: the fan-out expansion *)
(* ================================================================== *)

(** The entries of [on_finish] with every successor other than
    ["retry"] taken out of the lists. *)
Definition only_retries (items : odict (list string)) : odict (list string) :=
  map (fun kv => (kv.1, List.filter (fun x => String.eqb x "retry") kv.2)) items.

(** The description stored for unit [i]: the copy of the task's
    description with the scaled resource sets and the unit's argument;
    unit 0 keeps the successors, the others keep ["retry"] only. *)
Definition unit_description (base : jobconf) (sets : list resource_set)
    (parallel_arg : string) (n i : nat) : jobconf :=
  let c := unit_conf base sets parallel_arg n i in
  match on_finish c with
  | Some items => with_on_finish (Some (if Nat.eqb i 0 then items else only_retries items)) c
  | None => c
  end.

(** The pending record stored for a unit. *)
Definition unit_record (job : string) (sets : list resource_set) (wait_for : list string)
    (retries : Z) (wait_time : option Q) (n : nat) : pending_job :=
  PendingJob (list_to_set wait_for) retries (unit_required_resources n sets) (Some job)
    wait_time.

(** [c'] is [c] up to the list under [wait_for], which lost at most the
    names in [gone]. *)
Definition rewaits (gone : list string) (c c' : jobconf) : Prop :=
  with_wait_for None c' = with_wait_for None c /\
  forall x, In x (default [] (wait_for c)) -> ~ In x gone ->
            In x (default [] (wait_for c')).

Definition p_rewaits (gone : list string) (p p' : pending_job) : Prop :=
  with_p_wait_for ∅ p' = with_p_wait_for ∅ p /\
  forall x, x ∈ p_wait_for p -> ~ In x gone -> x ∈ p_wait_for p'.

Definition opt_rel {A} (R : A -> A -> Prop) (x y : option A) : Prop :=
  match x, y with
  | Some a, Some b => R a b
  | None, None => True
  | _, _ => False
  end.

(** [m'] has the jobs of [m], in the same order, with the same
    descriptions and records up to [wait_for]; the jobs outside [K] are
    exactly as they were. *)
Definition rewired (gone : list string) (K : string -> Prop) (m m' : manager) : Prop :=
  parallelization m' = parallelization m /\
  od_keys (jobs_graph m') = od_keys (jobs_graph m) /\
  od_keys (pending_jobs m') = od_keys (pending_jobs m) /\
  (forall k, opt_rel (rewaits gone) (od_get k (jobs_graph m)) (od_get k (jobs_graph m'))) /\
  (forall k, opt_rel (p_rewaits gone) (od_get k (pending_jobs m))
                     (od_get k (pending_jobs m'))) /\
  (forall k, ~ K k -> od_get k (jobs_graph m') = od_get k (jobs_graph m)
                      /\ od_get k (pending_jobs m') = od_get k (pending_jobs m)).

(** The state after unit [j] is stored. *)
Definition store_unit (job : string) (base : jobconf) (sets : list resource_set)
    (parallel_arg : string) (wait_for : list string) (retries : Z) (wait_time : option Q)
    (n j : nat) (m : manager) : manager :=
  set_pending_jobs
    (od_set (unit_name job j) (unit_record job sets wait_for retries wait_time n)
       (pending_jobs m))
    (set_jobs_graph
       (od_set (unit_name job j) (unit_description base sets parallel_arg n j)
          (jobs_graph m)) m).

(** The first [j] units are in the graph and pending, as they were
    stored up to [wait_for]. *)
Definition units_described (job : string) (base : jobconf) (sets : list resource_set)
    (parallel_arg : string) (wait_for : list string) (retries : Z) (wait_time : option Q)
    (n j : nat) (m : manager) : Prop :=
  forall i, i < j ->
    exists c p,
      od_get (unit_name job i) (jobs_graph m) = Some c
      /\ rewaits [job] (unit_description base sets parallel_arg n i) c
      /\ od_get (unit_name job i) (pending_jobs m) = Some p
      /\ p_rewaits [job] (unit_record job sets wait_for retries wait_time n) p.

(** The first [j] units are in the graph and pending exactly as they
    were stored. *)
Definition units_exact (job : string) (base : jobconf) (sets : list resource_set)
    (parallel_arg : string) (wait_for : list string) (retries : Z) (wait_time : option Q)
    (n j : nat) (m : manager) : Prop :=
  forall i, i < j ->
    od_get (unit_name job i) (jobs_graph m)
    = Some (unit_description base sets parallel_arg n i)
    /\ od_get (unit_name job i) (pending_jobs m)
       = Some (unit_record job sets wait_for retries wait_time n).

(** The jobs of [m0] that are not units of [job] are in [m], with
    dependencies added at most. *)
Definition others_kept (job : string) (n : nat) (m0 m : manager) : Prop :=
  forall k, (forall i, i < n -> k <> unit_name job i) ->
    opt_rel (rewaits []) (od_get k (jobs_graph m0)) (od_get k (jobs_graph m))
    /\ opt_rel (p_rewaits []) (od_get k (pending_jobs m0)) (od_get k (pending_jobs m)).

(** The first [j] units come last, in order, in the graph and in the
    pending map. *)
Definition units_appended (job : string) (m0 : manager) (j : nat) (m : manager) : Prop :=
  od_keys (jobs_graph m) = (od_keys (jobs_graph m0) ++ map (unit_name job) (seq 0 j))%list
  /\ od_keys (pending_jobs m)
     = (od_keys (pending_jobs m0) ++ map (unit_name job) (seq 0 j))%list.

(** [other] has all [n] units of [job] in its dependencies, in the
    graph and in the pending map, and the pending record does not name
    [job]. *)
Definition waits_for_units (job : string) (n : nat) (other : string) (m : manager) : Prop :=
  exists c, od_get other (jobs_graph m) = Some c
    /\ (forall i, i < n -> In (unit_name job i) (default [] (wait_for c)))
    /\ forall p, od_get other (pending_jobs m) = Some p ->
         (job ∉ p_wait_for p) /\ forall i, i < n -> unit_name job i ∈ p_wait_for p.

(** [x] has [u] in its dependencies: in the list of its description
    and, when it is pending, in its record. *)
Definition linked (x u : string) (m : manager) : Prop :=
  (exists c, od_get x (jobs_graph m) = Some c /\ In u (default [] (wait_for c))) /\
  (forall p, od_get x (pending_jobs m) = Some p -> u ∈ p_wait_for p).

(** [k] is a successor, other than ["retry"], named by [on_fin]. *)
Definition successor_of (on_fin : odict (list string)) (k : string) : Prop :=
  exists outcome nextjobs, In (outcome, nextjobs) on_fin /\ In k nextjobs /\ k <> "retry".

(** [k] has [job] in the [wait_for] list of its description. *)
Definition waits_for (job : string) (m : manager) (k : string) : Prop :=
  exists c, od_get k (jobs_graph m) = Some c /\ In job (default [] (wait_for c)).

(** A fan-out task [P] with a successor [Q]; [R] waits for [P]. *)
Definition fan_task : jobconf :=
  JobConf "p.py" (Some ["--in=x"]) (Some ["--again"]) None None None
    (Some [[("cpu", Q2Qc 1)]]) (Some ["S"]) None (Some 2%Z)
    (Some [("default", ["Q"]); ("failed", ["retry"; "Q"])]) (Some "--part=%d").

Definition fan_graph : odict jobconf :=
  [("P", fan_task);
   ("Q", plain_job "q.py");
   ("R", JobConf "r.py" None None None None None None (Some ["P"]) None None None None)].

Definition fan_manager : manager :=
  set_pending_jobs [("R", waiting ["P"] None None)]
    (new_manager fan_graph (Some 3) None false).

(* ================================================================== *)
(** * Further notions: what a job holds *)
(* ================================================================== *)

(** The entries of [job] in a list of the acquired ledger, and the
    entries of the other jobs. *)
Definition entries_of (job : string) (held : list (string * Qc)) : list (string * Qc) :=
  List.filter (fun e => String.eqb e.1 job) held.

Definition entries_but (job : string) (held : list (string * Qc)) : list (string * Qc) :=
  List.filter (fun e => negb (String.eqb e.1 job)) held.

(** No two entries of [job] are next to each other. *)
Fixpoint apart (job : string) (held : list (string * Qc)) : bool :=
  match held with
  | [] => true
  | e :: held' =>
      match held' with
      | [] => true
      | e' :: _ => negb (String.eqb e.1 job && String.eqb e'.1 job) && apart job held'
      end
  end.

(** The entries of [job] are apart under every resource, and every
    resource it holds has an available amount. *)
Definition releasable (job : string) (m : manager) : Prop :=
  forall r, apart job (held_for r m) = true
            /\ (entries_of job (held_for r m) <> [] -> is_Some (available_resources m !! r)).

(** [X] acquired the cpu twice, with [Y] in between. *)
Definition twice_manager : manager :=
  set_acquired [("cpu", [("X", Q2Qc 1); ("Y", Q2Qc 1); ("X", Q2Qc 2)]);
                ("mem", [("Y", Q2Qc 1)])]
    (set_available {["cpu" := Q2Qc 0; "mem" := Q2Qc 0]}
       (new_manager two_cpu_jobs None None false)).

(** Resource [r] in [m'] is as in [m], and: the entries of [job] are
    gone from it and their amounts are available again. *)
Definition as_before (m m' : manager) (r : string) : Prop :=
  held_for r m' = held_for r m /\
  available_resources m' !! r = available_resources m !! r.

Definition given_back (job : string) (m m' : manager) (r : string) : Prop :=
  held_for r m' = entries_but job (held_for r m) /\
  available_resources m' !! r
  = ((fun v => v + amounts_sum (entries_of job (held_for r m)))%Qc
       <$> available_resources m !! r).

(* ================================================================== *)
(** * Further notions: dependencies of finished jobs *)
(* ================================================================== *)

(** No job of the graph is a fan-out task. *)
Definition plain_graph (m : manager) : Prop :=
  forall k c, od_get k (jobs_graph m) = Some c -> truthy (parallel_arg c) = false.

(** No [wait_for] list of the graph names a job twice. *)
Definition distinct_waits (m : manager) : Prop :=
  forall k c, od_get k (jobs_graph m) = Some c -> NoDup (default [] (wait_for c)).

(** Checks of the two that compute. *)
Definition plain_graphb (m : manager) : bool :=
  forallb (fun c => negb (truthy (parallel_arg c))) (od_values (jobs_graph m)).

Definition distinct_waitsb (m : manager) : bool :=
  forallb (fun c => bool_decide (NoDup (default [] (wait_for c)))) (od_values (jobs_graph m)).

(** No description and no pending record names [job] as a dependency. *)
Definition nobody_waits_for (job : string) (m : manager) : Prop :=
  (forall k c, od_get k (jobs_graph m) = Some c -> ~ In job (default [] (wait_for c))) /\
  (forall k p, od_get k (pending_jobs m) = Some p -> job ∉ p_wait_for p).

(** From [m] to [m'] jobs were made pending, none of them a fan-out
    task: the running map is the same, the descriptions keep their
    [wait_for], and a pending record is as before or waits for jobs that
    some description names. *)
Definition enqueues (m m' : manager) : Prop :=
  running_jobs m' = running_jobs m /\
  (forall k c', od_get k (jobs_graph m') = Some c' ->
     exists c, od_get k (jobs_graph m) = Some c /\ wait_for c' = wait_for c
               /\ (truthy (parallel_arg c) = false -> truthy (parallel_arg c') = false)) /\
  (forall k p', od_get k (pending_jobs m') = Some p' ->
     od_get k (pending_jobs m) = Some p'
     \/ exists j c, od_get j (jobs_graph m) = Some c
                    /\ forall x, x ∈ p_wait_for p' -> In x (default [] (wait_for c))).

(** [A] runs; its successor [B] and the pending job [C] wait for it. *)
Definition finishing_manager : manager :=
  set_running_jobs [("A", Some "job0")]
    (set_pending_jobs [("C", waiting ["A"] None None)]
       (new_manager
          [("A", JobConf "a.py" None None None None None None None None None
                   (Some [("default", ["B"])]) None);
           ("B", JobConf "b.py" None None None None None None (Some ["A"]) None None None None);
           ("C", JobConf "c.py" None None None None None None (Some ["A"]) None None None None)]
          None None false)).

(* ================================================================== *)
(** * Further notions: jobs that are ready *)
(* ================================================================== *)

(** [job] is pending with no dependency left and no timer, asks for no
    resource, and no cap on running jobs is set. *)
Definition ready (job : string) (m : manager) : Prop :=
  (forall k, max_running_jobs m <> Some (S k)) /\
  (exists p, od_get job (pending_jobs m) = Some p
             /\ p_wait_for p = ∅ /\ p_wait_time p = None) /\
  (exists conf, od_get job (jobs_graph m) = Some conf
                /\ default [] (required_resources conf) = []).

(** [job] left the pending map and is in the running map. *)
Definition started (job : string) (m : manager) : Prop :=
  od_get job (pending_jobs m) = None /\ od_mem job (running_jobs m) = true.

(** [B] is ready; [C] waits for a job that is not pending. *)
Definition ready_manager : manager :=
  set_pending_jobs [("C", waiting ["Z"] None None); ("B", waiting [] None None)]
    (new_manager [("B", plain_job "b.py"); ("C", plain_job "c.py")] None None false).

(* ================================================================== *)
(** * Further notions: recorded command lines *)
(* ================================================================== *)

(** An option of a recorded command line: a starting job in the
    one-token form, or any other text. *)
Inductive cli_option : Type :=
  | StartingJob (task : string)
  | OtherOption (text : string).

Definition render_option (o : cli_option) : string :=
  match o with
  | StartingJob task => "--starting-job=" ++ task
  | OtherOption text => text
  end.

(** The starting jobs of a command line, in order. *)
Definition starting_jobs_of (l : list cli_option) : list string :=
  flat_map (fun o => match o with StartingJob task => [task] | OtherOption _ => [] end) l.

(** A task name is not empty and has no line feed; any other option
    does not begin with the flag. *)
Definition plain_option (o : cli_option) : bool :=
  match o with
  | StartingJob task => negb (String.eqb task "") && String.eqb (dot_plus task) task
  | OtherOption text =>
      match strip_prefix "--starting-job" text with None => true | Some _ => false end
  end.


(* ================================================================== *)
(** * Further notions: successors of finished jobs *)
(* ================================================================== *)

(** [c'] names the successors that [c] names, and is a fan-out task
    only if [c] is. *)
Definition same_successors (c c' : jobconf) : Prop :=
  on_finish c' = on_finish c /\
  (truthy (parallel_arg c) = false -> truthy (parallel_arg c') = false).

(** From [m] to [m'] no job left the pending map, the jobs of the graph
    kept their successors, and the options are the same. *)
Definition keeps_successors (m m' : manager) : Prop :=
  only_starting_jobs m' = only_starting_jobs m /\
  failed_outcomes m' = failed_outcomes m /\
  (forall k, opt_rel same_successors (od_get k (jobs_graph m)) (od_get k (jobs_graph m'))) /\
  (forall k, od_mem k (pending_jobs m) = true -> od_mem k (pending_jobs m') = true).

(** The same, without an interaction with the backend. *)
Definition follows (m m' : manager) : Prop :=
  io_count m' = io_count m /\ keeps_successors m m'.

(** [A] and [X] run; when [A] finishes, [B] follows. *)
Definition two_running_manager : manager :=
  set_running_jobs [("X", Some "job0"); ("A", Some "job1")]
    (new_manager
       [("A", JobConf "a.py" None None None None None None None None None
                (Some [("finished", ["B"])]) None);
        ("B", JobConf "b.py" None None None None None None (Some ["A"]) None None None None);
        ("X", plain_job "x.py")]
       None None false).

(* ================================================================== *)
(** * Tasks, and where a resumed workflow starts *)
(* ================================================================== *)

(** A task object as the manager reads it: [task_id],
    [as_jobgraph_dict()] and [get_next_tasks()]. *)
#[warnings="-register-all"] Inductive task : Type :=
  Task (id : string) (jobgraph_dict : jobconf) (next_tasks : list task).

Definition task_id (t : task) : string := match t with Task id _ _ => id end.
Definition as_jobgraph_dict (t : task) : jobconf := match t with Task _ d _ => d end.
Definition get_next_tasks (t : task) : list task := match t with Task _ _ l => l end.

(** [jobs_graph] and [__tasks] while the workflow is configured. *)
Definition registry : Type := (odict jobconf * odict task)%type.

(** [_add_task]; [None] is the assertion that fails when a task id is
    in the graph already. *)
Fixpoint _add_task (t : task) (st : registry) : option registry :=
  match t with
  | Task id conf nexts =>
      if od_mem id st.1 then None
      else fold_left (fun acc ntask => match acc with
                                       | Some st' => _add_task ntask st'
                                       | None => None
                                       end)
             nexts (Some (od_set id conf st.1, od_set id t st.2))
  end.

(** The loop of [__init__] over the tasks of [configure_workflow()]. *)
Definition add_tasks (roots : list task) (st : registry) : option registry :=
  fold_left (fun acc t => match acc with
                          | Some st' => _add_task t st'
                          | None => None
                          end)
    roots (Some st).

(** The tasks reachable from a task, itself first, and their ids. *)
Fixpoint subtasks (t : task) : list task :=
  match t with Task _ _ nexts => t :: flat_map subtasks nexts end.

Definition task_ids (t : task) : list string := map task_id (subtasks t).

(** The ids are pairwise distinct and none is in the graph. *)
Definition fresh_ids (l : list task) (g : odict jobconf) : Prop :=
  NoDup (flat_map task_ids l) /\
  forall id, In id (flat_map task_ids l) -> od_mem id g = false.

(** What configuring a list of tasks amounts to: it succeeds exactly
    when the ids are fresh, and then appends the ids to the graph in
    preorder, registers every task under its id, and leaves the other
    entries alone. *)
Definition registers (l : list task) (st : registry) : Prop :=
  match add_tasks l st with
  | Some st' =>
      fresh_ids l st.1
      /\ od_keys st'.1 = (od_keys st.1 ++ flat_map task_ids l)%list
      /\ (forall t, In t (flat_map subtasks l) ->
            od_get (task_id t) st'.1 = Some (as_jobgraph_dict t)
            /\ od_get (task_id t) st'.2 = Some t)
      /\ (forall k, ~ In k (flat_map task_ids l) ->
            od_get k st'.1 = od_get k st.1 /\ od_get k st'.2 = od_get k st.2)
  | None => ~ fresh_ids l st.1
  end.

(** How deep the next tasks of a task go. *)
Fixpoint depth (t : task) : nat :=
  match t with Task _ _ nexts => S (fold_right (fun n d => Nat.max (depth n) d) 0 nexts) end.

(** [_add_initial_pending_job] for a candidate; the command line of a
    resumed job may yield [None] (see
    [_get_starting_jobs_from_resumed_job]), which [get_job] rejects. *)
Definition pend_candidate (candidate : option string) : M unit :=
  match candidate with
  | Some taskid => _add_initial_pending_job taskid
  | None => raise (SystemExit "Invalid job: None")
  end.

(** The loop of [_setup_starting_jobs] over its candidates, with the
    registry [__tasks]; [fuel] bounds the depth of the recursion, and
    [None] says that it was not enough. *)
Fixpoint setup_candidates (tasks : odict task) (ran_tasks : list string) (fuel : nat)
    (candidates : list (option string)) (m : manager) : option (result unit) :=
  match fuel with
  | O => None
  | S fuel' =>
      (fix loop (l : list (option string)) (m : manager) : option (result unit) :=
         match l with
         | [] => Some (Ok tt m)
         | candidate :: rest =>
             let step :=
               match candidate with
               | Some taskid =>
                   if py_in taskid ran_tasks then
                     match od_get taskid tasks with
                     | None => Some (Exc (KeyError taskid) m)
                     | Some t =>
                         match map task_id (get_next_tasks t) with
                         | [] => Some (Ok tt m)
                         | next_tasks =>
                             setup_candidates tasks ran_tasks fuel' (map Some next_tasks) m
                         end
                     end
                   else Some (pend_candidate candidate m)
               | None => Some (pend_candidate candidate m)
               end in
             match step with
             | Some (Ok _ m1) => loop rest m1
             | Some (Exc e m1) => Some (Exc e m1)
             | None => None
             end
         end) candidates m
  end.

(** [_setup_starting_jobs(ran_tasks)] as [on_start] calls it:
    the candidates are the [--starting-job] options or, without any, the
    starting jobs of the resumed job's command line. *)
Definition _setup_starting_jobs (tasks : odict task) (ran_tasks : list string) (fuel : nat)
    (starting_job : list string) (job_cmd : list string) : manager -> option (result unit) :=
  let candidates :=
    match starting_job with
    | [] => _get_starting_jobs_from_resumed_job job_cmd
    | _ => map Some starting_job
    end in
  setup_candidates tasks ran_tasks fuel candidates.

(** Where a resumed workflow starts below a task: at the task when it
    did not run, below its next tasks when it did. *)
Fixpoint frontier (ran_tasks : list string) (t : task) : list string :=
  match t with
  | Task id _ nexts =>
      if py_in id ran_tasks then flat_map (frontier ran_tasks) nexts else [id]
  end.

(** A workflow of three tasks: [T1] is followed by [T2] and [T3]. *)
Definition three_tasks : task :=
  Task "T1" (plain_job "t1.py")
    [Task "T2" (plain_job "t2.py") []; Task "T3" (plain_job "t3.py") []].

(** The same with [T3] given twice. *)
Definition twice_tasks : task :=
  Task "T1" (plain_job "t1.py")
    [Task "T3" (plain_job "t2.py") []; Task "T3" (plain_job "t3.py") []].

(** The graph and the registry of the three tasks, as [__init__]
    builds them. *)
Definition three_registry : registry :=
  default ([], []) (add_tasks [three_tasks] ([], [])).

Definition three_manager : manager :=
  new_manager three_registry.1 None None false.

(* ================================================================== *)
(** * Lemmas on the containers *)
(* ================================================================== *)

Lemma od_get_set_eq {V} (k : string) (v : V) (d : odict V) :
  od_get k (od_set k v d) = Some v.
Proof.
  induction d as [|[k' v'] d IH]; simpl.
  - now rewrite String.eqb_refl.
  - destruct (String.eqb k' k) eqn:E; simpl.
    + now rewrite String.eqb_refl.
    + now rewrite E.
Qed.

Lemma od_get_set_ne {V} (k k0 : string) (v : V) (d : odict V) :
  k0 <> k -> od_get k (od_set k0 v d) = od_get k d.
Proof.
  intros Hne. induction d as [|[k' v'] d IH]; simpl.
  - destruct (String.eqb k0 k) eqn:E; [apply String.eqb_eq in E; congruence | reflexivity].
  - destruct (String.eqb k' k0) eqn:E; simpl.
    + apply String.eqb_eq in E. subst k'.
      destruct (String.eqb k0 k) eqn:E'; [apply String.eqb_eq in E'; congruence | reflexivity].
    + now rewrite IH.
Qed.

Lemma od_get_set {V} (k k0 : string) (v : V) (d : odict V) :
  od_get k (od_set k0 v d) = if String.eqb k0 k then Some v else od_get k d.
Proof.
  induction d as [|[k' v'] d IH]; simpl.
  - reflexivity.
  - destruct (String.eqb k' k0) eqn:E; simpl.
    + apply String.eqb_eq in E. subst k'. now destruct (String.eqb k0 k).
    + rewrite IH. destruct (String.eqb k0 k) eqn:E'; [|reflexivity].
      apply String.eqb_eq in E'. subst k. now rewrite E.
Qed.

Lemma od_mem_set {V} (x k : string) (v : V) (d : odict V) :
  od_mem x d = true -> od_mem x (od_set k v d) = true.
Proof.
  unfold od_mem. rewrite od_get_set. now destruct (String.eqb k x).
Qed.

Lemma od_get_del_eq {V} (k : string) (d : odict V) : od_get k (od_del k d) = None.
Proof.
  induction d as [|[k' v'] d IH]; simpl; [reflexivity|].
  destruct (String.eqb k' k) eqn:E; simpl; [assumption | now rewrite E].
Qed.

Lemma od_get_del_ne {V} (k k0 : string) (d : odict V) :
  k0 <> k -> od_get k (od_del k0 d) = od_get k d.
Proof.
  intros Hne. induction d as [|[k' v'] d IH]; simpl; [reflexivity|].
  destruct (String.eqb k' k0) eqn:E; simpl.
  - apply String.eqb_eq in E. subst k'.
    destruct (String.eqb k0 k) eqn:E'; [apply String.eqb_eq in E'; congruence | assumption].
  - now rewrite IH.
Qed.

Lemma Qc_ltb_lt (x y : Qc) : Qc_ltb x y = true <-> (x < y)%Qc.
Proof.
  unfold Qc_ltb. rewrite Qclt_alt. destruct (x ?= y)%Qc; split; intros; congruence.
Qed.

Lemma amounts_sum_app (l1 l2 : list (string * Qc)) :
  amounts_sum (l1 ++ l2)%list = (amounts_sum l1 + amounts_sum l2)%Qc.
Proof.
  induction l1 as [|e l1 IH]; simpl.
  - ring.
  - rewrite IH. ring.
Qed.

Lemma amounts_sum_remove (e : string * Qc) (l l' : list (string * Qc)) :
  py_remove e l = Some l' -> amounts_sum l = (e.2 + amounts_sum l')%Qc.
Proof.
  revert l'. induction l as [|y l IH]; simpl; intros l' H; [discriminate|].
  destruct (decide (y = e)) as [->|Hne].
  - now inversion H.
  - destruct (py_remove e l) as [r|] eqn:E; [|discriminate].
    inversion H; subst l'. simpl. rewrite (IH r eq_refl). ring.
Qed.

Lemma py_remove_elem {A} `{EqDecision A} (x : A) (l : list A) :
  x ∈ l -> is_Some (py_remove x l).
Proof.
  induction 1 as [? l|? y l Hin IH]; simpl.
  - rewrite decide_True by reflexivity. eauto.
  - destruct (decide (y = x)); [eauto|].
    destruct IH as [r ->]. eauto.
Qed.

(** A property kept by every iteration is kept by the loop, also when
    an iteration raises. *)
Lemma for_each_final_inv {A} (P : manager -> Prop) (body : A -> M unit) (l : list A) :
  (forall x m, P m -> P (final_state (body x m))) ->
  forall m, P m -> P (final_state (for_each l body m)).
Proof.
  intros Hbody. induction l as [|x l IH]; intros m Hm; simpl; [assumption|].
  unfold bind. specialize (Hbody x m Hm).
  destruct (body x m) as [[] m1|e m1]; simpl in *; auto.
Qed.

(* ================================================================== *)
(** * The resource ledger *)
(* ================================================================== *)

Lemma take_resource_total (job : string) (ra : string * Qc) (r : string) (m : manager) :
  ledger_total r (final_state (take_resource job ra m)) = ledger_total r m.
Proof.
  unfold take_resource.
  destruct (available_resources m !! ra.1) as [v|] eqn:E; simpl; [|reflexivity].
  unfold ledger_total, available_amount, acquired_sum; simpl.
  destruct (decide (ra.1 = r)) as [<-|Hne].
  - rewrite lookup_insert_eq, od_get_set_eq, E. simpl.
    rewrite amounts_sum_app. simpl. ring.
  - rewrite lookup_insert_ne, od_get_set_ne by assumption. reflexivity.
Qed.

Lemma check_set_state (rs : resource_set) (m : manager) :
  final_state (check_set rs m) = m.
Proof.
  induction rs as [|[res_name res_amount] rs IH]; simpl; [reflexivity|].
  destruct (available_resources m !! res_name); [|reflexivity].
  destruct (Qc_ltb q res_amount); [reflexivity | assumption].
Qed.

Lemma take_set_total (job : string) (rs : resource_set) (r : string) (m : manager) :
  ledger_total r (final_state (take_set job rs m)) = ledger_total r m.
Proof.
  unfold take_set.
  apply (for_each_final_inv (fun m' => ledger_total r m' = ledger_total r m)); [|reflexivity].
  intros x m' H. now rewrite take_resource_total.
Qed.

Lemma try_sets_total (job : string) (sets : list resource_set) (b : bool) (r : string)
    (m : manager) :
  ledger_total r (final_state (try_sets job sets b m)) = ledger_total r m.
Proof.
  revert b. induction sets as [|rs sets IH]; intros b; simpl; [reflexivity|].
  unfold bind. pose proof (check_set_state rs m) as Hc.
  destruct (check_set rs m) as [fit m1|e m1]; simpl in Hc; subst m1; [|reflexivity].
  destruct fit.
  - pose proof (take_set_total job rs r m) as Ht.
    destruct (take_set job rs m) as [[] m2|e m2]; simpl in *; assumption.
  - apply IH.
Qed.

Lemma try_acquire_total (job r : string) (m : manager) :
  ledger_total r (final_state (_try_acquire_resources job m)) = ledger_total r m.
Proof.
  unfold _try_acquire_resources, bind, get_job.
  destruct (od_get job (jobs_graph m)); [apply try_sets_total | reflexivity].
Qed.

Lemma release_scan_total (job res_name r : string) (fuel : nat) :
  forall i m,
  ledger_total r (final_state (release_scan job res_name fuel i m)) = ledger_total r m.
Proof.
  induction fuel as [|fuel IH]; intros i m; simpl; [reflexivity|].
  destruct (default [] (od_get res_name (acquired_resources m)) !! i)
    as [[rjob res_amount]|] eqn:Ei; [|reflexivity].
  destruct (String.eqb rjob job); [|apply IH].
  destruct (available_resources m !! res_name) as [v|] eqn:Ev; [|reflexivity].
  destruct (py_remove (rjob, res_amount) (default [] (od_get res_name (acquired_resources m))))
    as [held'|] eqn:Er.
  - rewrite IH. unfold ledger_total, available_amount, acquired_sum; simpl.
    destruct (decide (res_name = r)) as [<-|Hne].
    + rewrite lookup_insert_eq, od_get_set_eq, Ev. simpl.
      rewrite (amounts_sum_remove _ _ _ Er). simpl. ring.
    + rewrite lookup_insert_ne, od_get_set_ne by assumption. reflexivity.
  - apply list_elem_of_lookup_2, py_remove_elem in Ei.
    rewrite Er in Ei. now destruct Ei.
Qed.

Lemma release_total (job r : string) (m : manager) :
  ledger_total r (final_state (_release_resources job m)) = ledger_total r m.
Proof.
  unfold _release_resources.
  apply (for_each_final_inv (fun m' => ledger_total r m' = ledger_total r m)); [|reflexivity].
  intros res_name m' H. unfold release_resource. now rewrite release_scan_total.
Qed.

(** ** What [_fill_available_resources] provides *)

Lemma fill_resource_amount (av : gmap string Qc) (ra : string * Qc) (r : string) :
  default (Q2Qc 0) (fill_resource av ra !! r) =
  if String.eqb ra.1 r then Qc_max (default (Q2Qc 0) (av !! r)) ra.2
  else default (Q2Qc 0) (av !! r).
Proof.
  unfold fill_resource, Qc_max.
  destruct (String.eqb ra.1 r) eqn:E.
  - apply String.eqb_eq in E. subst r.
    destruct (Qc_ltb (default (Q2Qc 0) (av !! ra.1)) ra.2); [|reflexivity].
    now rewrite lookup_insert_eq.
  - apply String.eqb_neq in E.
    destruct (Qc_ltb (default (Q2Qc 0) (av !! ra.1)) ra.2); [|reflexivity].
    now rewrite lookup_insert_ne.
Qed.

Lemma fill_set_amount (rs : resource_set) (r : string) :
  forall av,
  default (Q2Qc 0) (fill_set av rs !! r) =
  fold_left Qc_max (set_amounts r rs) (default (Q2Qc 0) (av !! r)).
Proof.
  unfold fill_set, set_amounts.
  induction rs as [|ra rs IH]; intros av; simpl; [reflexivity|].
  rewrite IH, fill_resource_amount.
  destruct (String.eqb ra.1 r); reflexivity.
Qed.

Lemma fill_job_amount (c : jobconf) (r : string) (av : gmap string Qc) :
  default (Q2Qc 0) (fill_job av c !! r) =
  fold_left Qc_max (job_amounts r c) (default (Q2Qc 0) (av !! r)).
Proof.
  unfold fill_job, job_amounts.
  generalize (default [] (required_resources c)) as sets. intros sets. revert av.
  induction sets as [|rs sets IH]; intros av; simpl; [reflexivity|].
  now rewrite IH, fill_set_amount, fold_left_app.
Qed.

Lemma fill_graph_amount (g : odict jobconf) (r : string) :
  forall av,
  default (Q2Qc 0) (fill_graph av g !! r) =
  fold_left Qc_max (graph_amounts r g) (default (Q2Qc 0) (av !! r)).
Proof.
  unfold fill_graph, graph_amounts.
  induction (od_values g) as [|c cs IH]; intros av; simpl; [reflexivity|].
  now rewrite IH, fill_job_amount, fold_left_app.
Qed.

Lemma Qc_max_zero (a : Qc) : (Q2Qc 0 <= a)%Qc -> Qc_max (Q2Qc 0) a = a.
Proof.
  intros Ha. unfold Qc_max.
  destruct (Qc_ltb (Q2Qc 0) a) eqn:E; [reflexivity|].
  apply Qcle_antisym; [assumption|].
  apply Qcnot_lt_le. intros Hlt. apply Qc_ltb_lt in Hlt. congruence.
Qed.

(** On a graph of non-negative amounts the dictionary is filled with
    the largest amount asked of each resource. *)
Lemma fill_initial_capacity (g : odict jobconf) (r : string) (c : Qc) :
  nonneg_amounts g ->
  initial_capacity r g = Some c ->
  default (Q2Qc 0) (fill_graph ∅ g !! r) = c.
Proof.
  intros Hnn Hc. rewrite fill_graph_amount, lookup_empty. simpl.
  unfold initial_capacity, max_list in Hc. specialize (Hnn r).
  destruct (graph_amounts r g) as [|a l]; [discriminate|].
  inversion Hc. simpl. rewrite Qc_max_zero; [reflexivity|].
  apply Hnn. now left.
Qed.

Lemma nonneg_amountsb_sound (g : odict jobconf) :
  nonneg_amountsb g = true -> nonneg_amounts g.
Proof.
  unfold nonneg_amountsb, nonneg_amounts, graph_amounts, job_amounts, set_amounts.
  intros H r a Hin.
  apply in_flat_map in Hin as (c & Hc & Hin).
  apply in_flat_map in Hin as (rs & Hrs & Hin).
  apply in_map_iff in Hin as (ra & <- & Hin).
  apply filter_In in Hin as [Hin _].
  rewrite forallb_forall in H. specialize (H c Hc).
  rewrite forallb_forall in H. specialize (H rs Hrs).
  rewrite forallb_forall in H. specialize (H ra Hin).
  apply negb_true_iff in H. apply Qcnot_lt_le. intros Hlt.
  apply Qc_ltb_lt in Hlt. congruence.
Qed.

(** ** Entries of the dictionary are never removed *)

Lemma take_resource_known (job : string) (ra : string * Qc) (r : string) (m : manager) :
  is_Some (available_resources m !! r) ->
  is_Some (available_resources (final_state (take_resource job ra m)) !! r).
Proof.
  intros Hr. unfold take_resource.
  destruct (available_resources m !! ra.1) as [v|]; simpl; [|assumption].
  destruct (decide (ra.1 = r)) as [<-|Hne].
  - rewrite lookup_insert_eq. eauto.
  - now rewrite lookup_insert_ne.
Qed.

Lemma try_acquire_known (job r : string) (m : manager) :
  is_Some (available_resources m !! r) ->
  is_Some (available_resources (final_state (_try_acquire_resources job m)) !! r).
Proof.
  intros Hr. unfold _try_acquire_resources, bind, get_job.
  destruct (od_get job (jobs_graph m)) as [conf|]; [|assumption].
  generalize true as b.
  induction (default [] (required_resources conf)) as [|rs sets IH]; intros b; simpl;
    [assumption|].
  unfold bind. pose proof (check_set_state rs m) as Hc.
  destruct (check_set rs m) as [fit m1|e m1]; simpl in Hc; subst m1; [|assumption].
  destruct fit; [|apply IH].
  assert (is_Some (available_resources (final_state (take_set job rs m)) !! r)) as Ht.
  { apply (for_each_final_inv (fun m' => is_Some (available_resources m' !! r)));
      [|assumption].
    intros x m'. apply take_resource_known. }
  destruct (take_set job rs m) as [[] m2|e m2]; assumption.
Qed.

Lemma release_scan_known (job res_name r : string) (fuel : nat) :
  forall i m,
  is_Some (available_resources m !! r) ->
  is_Some (available_resources (final_state (release_scan job res_name fuel i m)) !! r).
Proof.
  induction fuel as [|fuel IH]; intros i m Hr; simpl; [assumption|].
  destruct (default [] (od_get res_name (acquired_resources m)) !! i)
    as [[rjob res_amount]|]; [|assumption].
  destruct (String.eqb rjob job); [|now apply IH].
  destruct (available_resources m !! res_name) as [v|]; [|assumption].
  assert (is_Some (<[res_name := (v + res_amount)%Qc]> (available_resources m) !! r)) as Hi.
  { destruct (decide (res_name = r)) as [<-|Hne].
    - rewrite lookup_insert_eq. eauto.
    - now rewrite lookup_insert_ne. }
  destruct (py_remove (rjob, res_amount) _); [|assumption].
  apply IH. assumption.
Qed.

Lemma release_known (job r : string) (m : manager) :
  is_Some (available_resources m !! r) ->
  is_Some (available_resources (final_state (_release_resources job m)) !! r).
Proof.
  unfold _release_resources.
  apply (for_each_final_inv (fun m' => is_Some (available_resources m' !! r))).
  intros res_name m'. unfold release_resource. apply release_scan_known.
Qed.

(** The inner loop of a release stops at the end of the list it walks,
    not for want of fuel. *)
Lemma py_remove_length {A} `{EqDecision A} (x : A) (l l' : list A) :
  py_remove x l = Some l' -> length l = S (length l').
Proof.
  revert l'. induction l as [|y l IH]; simpl; intros l' H; [discriminate|].
  destruct (decide (y = x)).
  - now inversion H.
  - destruct (py_remove x l) as [r|]; [|discriminate].
    inversion H. simpl. now rewrite (IH r eq_refl).
Qed.

Lemma release_scan_S (job res_name : string) (fuel i : nat) (m : manager) :
  release_scan job res_name (S fuel) i m =
  match default [] (od_get res_name (acquired_resources m)) !! i with
  | None => Ok tt m
  | Some (rjob, res_amount) =>
      if String.eqb rjob job then
        match available_resources m !! res_name with
        | None => Exc (KeyError res_name) m
        | Some v =>
            match py_remove (rjob, res_amount)
                    (default [] (od_get res_name (acquired_resources m))) with
            | None =>
                Exc ValueError
                  (set_available (<[res_name := (v + res_amount)%Qc]> (available_resources m)) m)
            | Some held' =>
                release_scan job res_name fuel (S i)
                  (set_acquired (od_set res_name held' (acquired_resources m))
                     (set_available
                        (<[res_name := (v + res_amount)%Qc]> (available_resources m)) m))
            end
        end
      else release_scan job res_name fuel (S i) m
  end.
Proof. reflexivity. Qed.

Lemma release_scan_fuel (job res_name : string) (fuel : nat) :
  forall i m,
  length (default [] (od_get res_name (acquired_resources m))) <= i + fuel ->
  release_scan job res_name (S fuel) i m = release_scan job res_name fuel i m.
Proof.
  induction fuel as [|fuel IH]; intros i m Hlen.
  - rewrite release_scan_S. rewrite Nat.add_0_r in Hlen.
    now rewrite (lookup_ge_None_2 _ i Hlen).
  - rewrite (release_scan_S job res_name (S fuel) i m), (release_scan_S job res_name fuel i m).
    destruct (default [] (od_get res_name (acquired_resources m)) !! i)
      as [[rjob res_amount]|]; [|reflexivity].
    destruct (String.eqb rjob job).
    + destruct (available_resources m !! res_name) as [v|]; [|reflexivity].
      destruct (py_remove (rjob, res_amount) _) as [held'|] eqn:Er; [|reflexivity].
      apply IH. cbn [acquired_resources set_acquired set_available].
      rewrite od_get_set_eq. simpl.
      apply py_remove_length in Er. lia.
    + apply IH. lia.
Qed.

(** C2. In every state reached from [_fill_available_resources] by
    acquisitions and releases, what is available of a resource plus the
    amounts recorded for it in the acquired ledger is the initial capacity
    of the resource: the largest amount of it in any resource set of any
    task.  A resource of positive capacity has its entry in the
    dictionary. *)
Theorem ledger_conservation (g : odict jobconf) (m : manager) (r : string) (c : Qc) :
  nonneg_amounts g ->
  ledger_reachable g m ->
  initial_capacity r g = Some c ->
  (available_amount r m + acquired_sum r m)%Qc = c
  /\ ((Q2Qc 0 < c)%Qc -> is_Some (available_resources m !! r)).
Proof.
  intros Hnn Hreach Hc.
  change (ledger_total r m = c /\ ((Q2Qc 0 < c)%Qc -> is_Some (available_resources m !! r))).
  induction Hreach as [m0 Hg Hav Hacq|m job _ [IH1 IH2]|m job _ [IH1 IH2]].
  - pose proof (fill_initial_capacity g r c Hnn Hc) as Hfill.
    unfold ledger_total, available_amount, acquired_sum. simpl.
    rewrite Hg, Hav, Hacq. simpl. rewrite Hfill. split; [ring|].
    intros Hpos. destruct (fill_graph ∅ g !! r); [eauto|].
    simpl in Hfill. subst c. now apply Qclt_not_eq in Hpos.
  - rewrite try_acquire_total. split; [assumption|].
    intros Hpos. apply try_acquire_known. auto.
  - rewrite release_total. split; [assumption|].
    intros Hpos. apply release_known. auto.
Qed.

Lemma ledger_conservation_witness :
  let m0 := new_manager two_cpu_jobs None None false in
  let m1 := final_state (_fill_available_resources m0) in
  let m2 := final_state (_try_acquire_resources "X" m1) in
  let m3 := final_state (_try_acquire_resources "Y" m2) in
  let m4 := final_state (_release_resources "X" m3) in
  (available_amount "cpu" m4 + acquired_sum "cpu" m4)%Qc = Q2Qc 2
  /\ ((Q2Qc 0 < Q2Qc 2)%Qc -> is_Some (available_resources m4 !! "cpu")).
Proof.
  intros m0 m1 m2 m3 m4.
  apply (ledger_conservation two_cpu_jobs m4 "cpu" (Q2Qc 2)).
  - apply nonneg_amountsb_sound. vm_compute. reflexivity.
  - unfold m4, m3, m2, m1.
    apply reach_release, reach_acquire, reach_acquire, reach_start; reflexivity.
  - vm_compute. reflexivity.
Defined.

(** ** Acquisition *)

Lemma check_set_fits (rs : resource_set) (m : manager) :
  (forall ra, In ra rs -> is_Some (available_resources m !! ra.1)) ->
  check_set rs m = Ok (fits m rs) m.
Proof.
  induction rs as [|[res_name res_amount] rs IH]; intros Hk; simpl; [reflexivity|].
  destruct (Hk (res_name, res_amount) (or_introl eq_refl)) as [v Hv]. simpl in Hv.
  rewrite Hv. destruct (Qc_ltb v res_amount); simpl; [reflexivity|].
  apply IH. intros ra Hin. apply Hk. now right.
Qed.

Lemma requested_notin (r : string) (rs : resource_set) :
  r ∉ rs.*1 -> requested r rs = None.
Proof.
  unfold requested. induction rs as [|[k a] rs IH]; simpl; intros Hn; [reflexivity|].
  destruct (String.eqb k r) eqn:E.
  - apply String.eqb_eq in E. subst k. exfalso. apply Hn. left.
  - apply IH. intros Hin. apply Hn. now right.
Qed.

Lemma take_set_effect (job : string) (rs : resource_set) :
  forall m,
  (forall ra, In ra rs -> is_Some (available_resources m !! ra.1)) ->
  NoDup rs.*1 ->
  exists m', take_set job rs m = Ok tt m' /\ after_take job rs m m'.
Proof.
  unfold take_set.
  induction rs as [|[r0 a0] rs IH]; intros m Hk Hnd; simpl.
  - exists m. split; [reflexivity|]. now repeat split.
  - destruct (Hk (r0, a0) (or_introl eq_refl)) as [v Hv]. simpl in Hv.
    apply NoDup_cons in Hnd as [Hnotin Hnd].
    unfold bind at 1. unfold take_resource at 1. simpl. rewrite Hv.
    match goal with |- context [for_each rs _ ?m1] => set (mid := m1) end.
    destruct (IH mid) as (m' & Hrun & Hav & Hacq & Hg & Hp & Hr); [|assumption|].
    { intros ra Hin. unfold mid. simpl.
      destruct (decide (r0 = ra.1)) as [->|Hne].
      - rewrite lookup_insert_eq. eauto.
      - rewrite lookup_insert_ne by assumption. apply Hk. now right. }
    exists m'. split; [assumption|].
    unfold after_take, requested. simpl.
    split; [|split; [|now rewrite Hg, Hp, Hr]].
    + intros r. rewrite Hav. unfold mid. simpl.
      destruct (String.eqb r0 r) eqn:E.
      * apply String.eqb_eq in E. subst r.
        rewrite (requested_notin r0 rs Hnotin), lookup_insert_eq, Hv. reflexivity.
      * apply String.eqb_neq in E. rewrite lookup_insert_ne by assumption. reflexivity.
    + intros r. rewrite Hacq. unfold mid. simpl.
      destruct (String.eqb r0 r) eqn:E.
      * apply String.eqb_eq in E. subst r.
        rewrite (requested_notin r0 rs Hnotin), od_get_set_eq. reflexivity.
      * apply String.eqb_neq in E. rewrite od_get_set_ne by assumption. reflexivity.
Qed.

Lemma try_sets_first_fit (job : string) (sets : list resource_set) (m : manager) :
  resources_known m sets ->
  (forall rs, In rs sets -> NoDup rs.*1) ->
  forall result,
  match List.find (fits m) sets with
  | Some rs => exists m', try_sets job sets result m = Ok true m' /\ after_take job rs m m'
  | None => try_sets job sets result m = Ok (if is_empty sets then result else false) m
  end.
Proof.
  induction sets as [|rs sets IH]; intros Hk Hnd result; simpl; [reflexivity|].
  assert (Hc : check_set rs m = Ok (fits m rs) m).
  { apply check_set_fits. intros ra Hin. apply (Hk rs ra); [now left | assumption]. }
  destruct (fits m rs) eqn:Hfit.
  - destruct (take_set_effect job rs m) as (m' & Hrun & Heff).
    + intros ra Hin. apply (Hk rs ra); [now left | assumption].
    + apply Hnd. now left.
    + exists m'. split; [|assumption]. unfold bind. now rewrite Hc, Hrun.
  - specialize (IH (fun rs' ra H1 H2 => Hk rs' ra (or_intror H1) H2)
                   (fun rs' H1 => Hnd rs' (or_intror H1)) false).
    unfold bind. rewrite Hc.
    destruct (List.find (fits m) sets); [assumption|].
    rewrite IH. now destruct sets.
Qed.

(** C3, as the code has it.  With every resource of the job's sets in
    the dictionary: the sets are tried in declared order; the first that
    fits is taken whole, its amounts subtracted from what is available and
    appended to the acquired ledger under the job, and [true] is returned;
    when none fits the manager is left as it was, and [false] is returned
    if the job declares a resource set, [true] if it declares none. *)
Theorem try_acquire_first_fit (job : string) (conf : jobconf) (m : manager) :
  od_get job (jobs_graph m) = Some conf ->
  resources_known m (default [] (required_resources conf)) ->
  (forall rs, In rs (default [] (required_resources conf)) -> NoDup rs.*1) ->
  match List.find (fits m) (default [] (required_resources conf)) with
  | Some rs => exists m', _try_acquire_resources job m = Ok true m' /\ after_take job rs m m'
  | None => _try_acquire_resources job m
            = Ok (is_empty (default [] (required_resources conf))) m
  end.
Proof.
  intros Hjob Hk Hnd.
  pose proof (try_sets_first_fit job _ m Hk Hnd true) as H.
  unfold _try_acquire_resources, bind, get_job. rewrite Hjob.
  destruct (List.find (fits m) (default [] (required_resources conf))); [assumption|].
  rewrite H. now destruct (default [] (required_resources conf)).
Qed.

Lemma try_acquire_first_fit_witness :
  exists m', _try_acquire_resources "J" one_cpu_manager = Ok true m'
             /\ after_take "J" [("cpu", Q2Qc 1)] one_cpu_manager m'.
Proof.
  refine (try_acquire_first_fit "J" two_sets_job one_cpu_manager eq_refl _ _).
  - intros rs ra [<-|[<-|[]]] [<-|[]]; vm_compute; eauto.
  - intros rs [<-|[<-|[]]]; repeat constructor; set_solver.
Defined.

(** C3 as stated fails for a job that declares no resource set: no set
    fits, and [true] is returned. *)
Lemma try_acquire_no_sets_counterexample :
  List.find (fits free_job_manager) (default [] (required_resources (plain_job "j.py"))) = None
  /\ _try_acquire_resources "J" free_job_manager = Ok true free_job_manager.
Proof. split; reflexivity. Qed.

(* ================================================================== *)
(** * Starting a job *)
(* ================================================================== *)

Lemma run_job_pending (w : world) (job : string) (r : Z) (m : manager) :
  pending_jobs (final_state (run_job w job r m)) = pending_jobs m
  /\ running_jobs (final_state (run_job w job r m)) = running_jobs m.
Proof.
  unfold run_job.
  destruct (task_run w job) as [run|].
  - destruct (run (io_count m) r); simpl; auto.
  - unfold bind, get_command_line, bind, get_job, ret.
    destruct (od_get job (jobs_graph m)) eqn:E; simpl; [|auto].
    rewrite E. simpl.
    match goal with |- context [schedule_script ?a ?b ?c ?d ?e ?f] =>
      destruct (schedule_script a b c d e f) as [[[|? ?]|]|] end; simpl; auto.
Qed.

(** Acquisition and the timer touch neither the graph nor the pending
    and running maps. *)
Lemma try_acquire_frame (job : string) (m : manager) :
  pending_jobs (final_state (_try_acquire_resources job m)) = pending_jobs m
  /\ running_jobs (final_state (_try_acquire_resources job m)) = running_jobs m.
Proof.
  unfold _try_acquire_resources, bind, get_job.
  destruct (od_get job (jobs_graph m)) as [conf|]; [|auto].
  generalize true as b.
  induction (default [] (required_resources conf)) as [|rs sets IH]; intros b; simpl; [auto|].
  unfold bind. pose proof (check_set_state rs m) as Hc.
  destruct (check_set rs m) as [fit m1|e m1]; simpl in Hc; subst m1; [|auto].
  destruct fit; [|apply IH].
  assert (pending_jobs (final_state (take_set job rs m)) = pending_jobs m
          /\ running_jobs (final_state (take_set job rs m)) = running_jobs m) as Ht.
  { apply (for_each_final_inv
             (fun m' => pending_jobs m' = pending_jobs m /\ running_jobs m' = running_jobs m));
      [|auto].
    intros x m' Hm'. unfold take_resource.
    destruct (available_resources m' !! x.1); exact Hm'. }
  destruct (take_set job rs m) as [[] m2|e m2]; exact Ht.
Qed.

Lemma can_run_a_frame (w : world) (job : string) (conf : pending_job) (m : manager) :
  pending_jobs (final_state (can_run_a w job conf m)) = pending_jobs m
  /\ running_jobs (final_state (can_run_a w job conf m)) = running_jobs m.
Proof.
  unfold can_run_a.
  destruct (bool_decide (p_wait_for conf = ∅)); [|auto].
  unfold bind, _must_wait_time, bind, pending_conf.
  destruct (od_get job (pending_jobs m)) as [c|]; [|auto].
  destruct (p_wait_time c) as [t|]; simpl.
  - destruct (Qle_bool _ _); simpl; [|auto].
    apply (try_acquire_frame job (tick_io m)).
  - apply try_acquire_frame.
Qed.

(** A job that the first pass refuses stays where it is, and the pass
    goes on with the next key. *)
Lemma refused_job_stays_pending (w : world) (job : string) (rest : list string)
    (conf : pending_job) (m m1 : manager) :
  at_capacity m = false ->
  od_get job (pending_jobs m) = Some conf ->
  can_run_a w job conf m = Ok false m1 ->
  pass_a w (job :: rest) m = pass_a w rest m1
  /\ od_get job (pending_jobs m1) = Some conf.
Proof.
  intros Hcap Hp Hrun. simpl. unfold bind at 1. unfold get at 1. rewrite Hcap.
  unfold bind at 1. unfold pending_conf at 1. rewrite Hp.
  unfold bind at 1. rewrite Hrun. split; [reflexivity|].
  destruct (can_run_a_frame w job conf m) as [Hpend _].
  rewrite Hrun in Hpend. simpl in Hpend. now rewrite Hpend.
Qed.

(** A job that the first pass starts moves to the running map also
    when [run_job] returns no job id. *)
Lemma started_without_jobid (w : world) (job : string) (rest : list string)
    (conf : pending_job) (m m1 m2 : manager) :
  at_capacity m = false ->
  od_get job (pending_jobs m) = Some conf ->
  can_run_a w job conf m = Ok true m1 ->
  run_job w job (p_retries conf) m1 = Ok None m2 ->
  exists m3, pass_a w (job :: rest) m = pass_a w rest m3
             /\ od_get job (pending_jobs m3) = None
             /\ od_get job (running_jobs m3) = Some None.
Proof.
  intros Hcap Hp Hcan Hrun.
  destruct (can_run_a_frame w job conf m) as [Hpend _].
  rewrite Hcan in Hpend. simpl in Hpend.
  destruct (run_job_pending w job (p_retries conf) m1) as [Hpend2 _].
  rewrite Hrun in Hpend2. simpl in Hpend2.
  eexists. split.
  - simpl. unfold bind at 1. unfold get at 1. rewrite Hcap.
    unfold bind at 1. unfold pending_conf at 1. rewrite Hp.
    unfold bind at 1. rewrite Hcan.
    unfold bind at 1. unfold start_job. rewrite Hrun, Hpend2, Hpend, Hp. reflexivity.
  - simpl. split; [apply od_get_del_eq | apply od_get_set_eq].
Qed.

(** C1, as the code has it.  When [run_job] returns without a job id,
    the job being started is taken out of the pending map all the same and is
    recorded in the running map under the null id. *)
Theorem start_job_without_jobid (w : world) (job : string) (conf : pending_job)
    (m m1 : manager) :
  od_get job (pending_jobs m) = Some conf ->
  run_job w job (p_retries conf) m = Ok None m1 ->
  exists m2, start_job w job conf m = Ok tt m2
             /\ od_get job (pending_jobs m2) = None
             /\ od_get job (running_jobs m2) = Some None.
Proof.
  intros Hp Hrun. unfold start_job. rewrite Hrun.
  destruct (run_job_pending w job (p_retries conf) m) as [Hpend _].
  rewrite Hrun in Hpend. simpl in Hpend. rewrite Hpend, Hp.
  eexists. split; [reflexivity|]. simpl.
  split; [apply od_get_del_eq | apply od_get_set_eq].
Qed.

Lemma start_job_without_jobid_witness :
  exists m2, start_job null_backend "J" (PendingJob ∅ 0 [] None None) free_job_manager
             = Ok tt m2
             /\ od_get "J" (pending_jobs m2) = None
             /\ od_get "J" (running_jobs m2) = Some None.
Proof.
  refine (start_job_without_jobid null_backend "J" (PendingJob ∅ 0 [] None None)
            free_job_manager _ eq_refl eq_refl).
Defined.

(** C1 as stated fails: the backend returns no job id, and after
    [run_pending_jobs] the job is no longer pending and is in the running
    map. *)
Lemma null_jobid_counterexample :
  run_job null_backend "J" 0 free_job_manager
    = Ok None (tick_io (log_submission "J" 0 free_job_manager))
  /\ exists m', run_pending_jobs null_backend free_job_manager = Ok tt m'
                /\ od_get "J" (pending_jobs m') = None
                /\ running_jobs m' = [("J", None)].
Proof.
  split; [reflexivity|].
  eexists. split; [vm_compute; reflexivity|]. split; reflexivity.
Qed.

(* ================================================================== *)
(** * The two admission passes *)
(* ================================================================== *)

Lemma enters_pass_b_stalemate (m : manager) :
  enters_pass_b m = true <-> stalemate m.
Proof.
  unfold enters_pass_b, stalemate.
  rewrite negb_true_iff, !orb_false_iff, negb_false_iff.
  split.
  - intros [[Hp Hr] Hw]. repeat split.
    + intros E. now rewrite E in Hp.
    + now destruct (running_jobs m).
    + intros conf Hin.
      destruct (p_wait_time conf) eqn:E; [|reflexivity].
      assert (existsb (fun c => match p_wait_time c with Some _ => true | None => false end)
                (od_values (pending_jobs m)) = true) as Hex.
      { apply existsb_exists. exists conf. now rewrite E. }
      congruence.
  - intros (Hp & Hr & Hw). repeat split.
    + now destruct (pending_jobs m).
    + now rewrite Hr.
    + destruct (existsb _ _) eqn:E; [|reflexivity].
      apply existsb_exists in E as (conf & Hin & Hc).
      now rewrite (Hw conf Hin) in Hc.
Qed.

(** C4, as the code has it.  After the first pass, the second pass is
    entered exactly when jobs are pending, none is running and no pending
    job has a [wait_time] at all, elapsed or not; otherwise
    [run_pending_jobs] returns with the state the first pass left. *)
Theorem second_pass_entered (w : world) (m m1 : manager) :
  pass_a w (sorted (od_keys (pending_jobs m))) m = Ok tt m1 ->
  (stalemate m1 -> run_pending_jobs w m = second_pass w m1)
  /\ (~ stalemate m1 -> run_pending_jobs w m = Ok tt m1).
Proof.
  intros Ha. unfold run_pending_jobs, bind, get. rewrite Ha.
  split; intros H.
  - apply enters_pass_b_stalemate in H. now rewrite H.
  - destruct (enters_pass_b m1) eqn:E; [|reflexivity].
    now apply enters_pass_b_stalemate in E.
Qed.

Lemma second_pass_entered_witness :
  (stalemate stale_edge_manager ->
   run_pending_jobs idle_backend stale_edge_manager
   = second_pass idle_backend stale_edge_manager)
  /\ (~ stalemate stale_edge_manager ->
      run_pending_jobs idle_backend stale_edge_manager = Ok tt stale_edge_manager).
Proof.
  apply (second_pass_entered idle_backend stale_edge_manager stale_edge_manager).
  vm_compute. reflexivity.
Defined.

(** C4 as stated fails: the only pending job has a [wait_time] that has
    elapsed, nothing runs after the first pass, and the second pass, which
    would start the job, is not entered. *)
Lemma elapsed_timer_counterexample :
  let m := elapsed_timer_manager in
  _must_wait_time idle_backend "J" m = Ok false (tick_io m)
  /\ pass_a idle_backend (sorted (od_keys (pending_jobs m))) m = Ok tt m
  /\ pending_jobs m <> [] /\ running_jobs m = []
  /\ run_pending_jobs idle_backend m = Ok tt m
  /\ exists m', second_pass idle_backend m = Ok tt m'
                /\ od_keys (running_jobs m') = ["J"].
Proof.
  repeat split; try (vm_compute; reflexivity); try discriminate.
  eexists. split; vm_compute; reflexivity.
Qed.

(** C5: the code at the failing input.  [A_0] is visited first and is
    not started, yet its origin becomes the required one; [B_0], whose
    only dependency is not pending, is then refused, and the pass ends
    in the report of a dependency cycle. *)
Theorem origin_of_skipped_job_blocks :
  let m := blocked_first_manager in
  stalemate m
  /\ can_run_b "B_0" (waiting ["Z"] (Some "B") None) None m = Ok true m
  /\ run_pending_jobs idle_backend m
     = Exc (DependencyCycle [("A_0", ["B_0"]); ("B_0", ["Z"])]) m.
Proof.
  repeat split; try (vm_compute; reflexivity); try discriminate.
  intros conf [<-|[<-|[]]]; reflexivity.
Qed.

(** The same slip after a start: [P_0] (origin [P]) is started, the
    skipped [Q_0] makes [Q] the required origin, and [Q_1] is started in
    the same call. *)
Lemma origin_of_skipped_job_starts_other :
  exists m', run_pending_jobs idle_backend two_families_manager = Ok tt m'
             /\ submitted m' = [("P_0", 0%Z); ("Q_1", 0%Z)]
             /\ od_keys (pending_jobs m') = ["Q_0"].
Proof. eexists. split; [vm_compute; reflexivity|]. split; reflexivity. Qed.

(* ================================================================== *)
(** * Fan-out: successors that are themselves expanded *)
(* ================================================================== *)

(** C7: the code at the failing input.  [Q] is made pending first and
    expanded into [Q_0] and [Q_1]; then [P], whose successor is [Q], is
    expanded.  For unit [P_1] the loop over the units of the successor
    formats its names from [P]: [P_1] is added to the dependencies of
    [P_0], the lookup of [P_1] leaves the program, and no unit of [Q]
    waits for [P_1]. *)
Theorem fan_out_successor_units_not_linked :
  exists m',
    (_add_initial_pending_job "Q" ;;; _add_initial_pending_job "P") fan_out_manager
      = Exc (SystemExit "Invalid job: P_1") m'
    /\ od_keys (jobs_graph m') = ["Q_0"; "Q_1"; "P_0"]
    /\ declared_wait_for "Q_0" m' = Some []
    /\ declared_wait_for "Q_1" m' = Some []
    /\ pending_wait_for "Q_0" m' = Some []
    /\ pending_wait_for "Q_1" m' = Some []
    /\ pending_wait_for "P_0" m' = Some ["P_1"].
Proof.
  eexists. split; [vm_compute; reflexivity|].
  repeat split; vm_compute; reflexivity.
Qed.

(* ================================================================== *)
(** * Resuming: the starting jobs of the recorded command line *)
(* ================================================================== *)

Lemma strip_prefix_app (p s : string) : strip_prefix p (p ++ s) = Some s.
Proof.
  induction p as [|c p IH]; simpl; [reflexivity|].
  now rewrite Ascii.eqb_refl.
Qed.

(** The one-token form yields its task. *)
Lemma starting_job_match_equals (c : ascii) (task : string) :
  dot_plus (String c task) = String c task ->
  starting_job_match ("--starting-job=" ++ String c task) = Some (Some (String c task)).
Proof.
  intros Hdot. unfold starting_job_match.
  change ("--starting-job=" ++ String c task)
    with ("--starting-job" ++ String "=" (String c task)).
  rewrite strip_prefix_app, Hdot. reflexivity.
Qed.

(** C9: the code at the failing input.  For the two-token form the
    entry recorded is [None], and the token after the flag is skipped;
    the one-token form contributes its task. *)
Theorem two_token_starting_job_lost :
  _get_starting_jobs_from_resumed_job ["manager.py"; "--starting-job"; "A"] = [None]
  /\ _get_starting_jobs_from_resumed_job ["manager.py"; "--starting-job=A"] = [Some "A"].
Proof. split; reflexivity. Qed.

(* ================================================================== *)
(** * Retries *)
(* ================================================================== *)

(** A task without [parallel_arg] becomes one pending job; its
    description in the graph has no [parallel_arg] afterwards. *)
Lemma add_pending_plain (job : string) (conf : jobconf) (deps : list string) (r : Z)
    (m : manager) :
  od_get job (jobs_graph m) = Some conf ->
  truthy (parallel_arg conf) = false ->
  exists m',
    _add_pending_job job deps r m = Ok tt m'
    /\ od_get job (jobs_graph m') = Some (with_parallel_arg None conf)
    /\ od_get job (pending_jobs m')
       = Some (PendingJob (list_to_set deps) r (default [] (required_resources conf))
                 None (wait_time conf)).
Proof.
  intros Hjob Hpar.
  unfold _add_pending_job, update_job, modify, bind, get_job. rewrite Hjob. simpl.
  rewrite Hjob.
  destruct (parallel_arg conf) as [[|? ?]|]; try discriminate; simpl;
    (eexists; split; [reflexivity|]; simpl; rewrite !od_get_set_eq; split; reflexivity).
Qed.

(** The units of a fan-out task have no [parallel_arg] either. *)
Lemma unit_conf_parallel_arg (conf : jobconf) (sets : list resource_set) (parg : string)
    (n i : nat) :
  parallel_arg (unit_conf (with_parallel_arg None conf) sets parg n i) = None.
Proof. unfold unit_conf. simpl. now destruct (retry_args conf). Qed.

(** What the ["retry"] successor does to a finished job with budget
    left, when the job is not a fan-out task. *)
Lemma handle_next_retry (job : string) (conf : jobconf) (m : manager) :
  od_get job (jobs_graph m) = Some conf ->
  (0 < default 0 (retries conf))%Z ->
  truthy (parallel_arg conf) = false ->
  exists m',
    handle_next job "retry" m = Ok tt m'
    /\ od_get job (pending_jobs m')
       = Some (PendingJob ∅ 1 (default [] (required_resources conf)) None (wait_time conf))
    /\ od_get job (jobs_graph m')
       = Some (with_retries (Some (default 0 (retries conf) - 1)%Z)
                 (with_parallel_arg None conf))
    /\ running_jobs m' = running_jobs m
    /\ submitted m' = submitted m.
Proof.
  intros Hjob Hpos Hpar.
  unfold handle_next. rewrite String.eqb_refl.
  unfold bind at 1. unfold get_job at 1. rewrite Hjob.
  apply Z.ltb_lt in Hpos. rewrite Hpos.
  unfold _add_pending_job, decrement_retries, update_job, modify, bind, get_job.
  rewrite Hjob. simpl. rewrite Hjob. simpl.
  assert (Hsame : match parallel_arg conf with
                  | Some (String _ _) => False
                  | _ => True
                  end).
  { destruct (parallel_arg conf) as [[|? ?]|]; simpl in Hpar; [exact I|discriminate|exact I]. }
  destruct (parallel_arg conf) as [[|? ?]|]; try contradiction; simpl;
    rewrite od_get_set_eq; simpl;
    (eexists; split; [reflexivity|]; simpl;
     rewrite !od_get_set_eq; repeat split; reflexivity).
Qed.

Lemma handle_next_retry_exhausted (job : string) (conf : jobconf) (m : manager) :
  od_get job (jobs_graph m) = Some conf ->
  (default 0 (retries conf) <= 0)%Z ->
  handle_next job "retry" m = Ok tt m.
Proof.
  intros Hjob Hle. unfold handle_next. rewrite String.eqb_refl.
  unfold bind, get_job. rewrite Hjob.
  apply Z.ltb_ge in Hle. now rewrite Hle.
Qed.

(** C10. A job added again through ["retry"] gets a pending record
    with an empty [wait_for], whatever its declared [wait_for]: the first
    pass then starts it on its timer and its resources alone. *)
Theorem retried_job_has_no_dependencies (w : world) (job : string) (conf : jobconf)
    (m : manager) :
  od_get job (jobs_graph m) = Some conf ->
  (0 < default 0 (retries conf))%Z ->
  truthy (parallel_arg conf) = false ->
  exists m' rec,
    handle_next job "retry" m = Ok tt m'
    /\ od_get job (pending_jobs m') = Some rec
    /\ p_wait_for rec = ∅
    /\ forall m'', can_run_a w job rec m'' = can_run_without_deps w job m''.
Proof.
  intros Hjob Hpos Hpar.
  destruct (handle_next_retry job conf m Hjob Hpos Hpar) as (m' & Hrun & Hp & _).
  eexists m', _. split; [exact Hrun|]. split; [exact Hp|]. split; [reflexivity|].
  intros m''. unfold can_run_a. simpl. now rewrite bool_decide_eq_true_2.
Qed.

Lemma retried_job_has_no_dependencies_witness :
  exists m' rec,
    handle_next "B" "retry" retry_once_manager = Ok tt m'
    /\ od_get "B" (pending_jobs m') = Some rec
    /\ p_wait_for rec = ∅
    /\ forall m'', can_run_a idle_backend "B" rec m'' = can_run_without_deps idle_backend "B" m''.
Proof.
  refine (retried_job_has_no_dependencies idle_backend "B" _ retry_once_manager
            eq_refl _ eq_refl).
  reflexivity.
Defined.

(** ** The retry scenario, tick by tick *)

Section RetryScenario.

Variable w : world.
Hypothesis Hw : always_failing w.

Lemma workflow_loop_unfold (m : manager) :
  workflow_loop w m =
  match check_running_jobs w m with
  | Ok _ m1 =>
      if negb (is_empty (pending_jobs m1)) then
        match run_pending_jobs w m1 with
        | Ok _ m2 => Ok true m2
        | Exc e m2 => Exc e m2
        end
      else if is_empty (running_jobs m1) then Ok false m1 else Ok true m1
  | Exc e m1 => Exc e m1
  end.
Proof.
  unfold workflow_loop, bind, get, ret.
  destruct (check_running_jobs w m) as [[] m1|e m1]; [|reflexivity].
  destruct (negb (is_empty (pending_jobs m1))); [reflexivity|].
  now destruct (is_empty (running_jobs m1)).
Qed.

Lemma run_workflow_S (fuel : nat) (m : manager) :
  run_workflow w (S fuel) m =
  match workflow_loop w m with
  | Ok true m1 => run_workflow w fuel m1
  | Ok false m1 => Ok true m1
  | Exc e m1 => Exc e m1
  end.
Proof.
  simpl. unfold bind. destruct (workflow_loop w m) as [[] m1|e m1]; reflexivity.
Qed.

(** The pending job is submitted and moves to the running map. *)
Lemma run_pending_retry (k r : Z) (io : nat) (log : list (string * Z)) :
  exists jobid,
    run_pending_jobs w (retry_state k (retry_pending r) [] io log)
    = Ok tt (retry_state k [] [("A", jobid)] (S io) (log ++ [("A", r)])).
Proof.
  destruct Hw as (Htask & Hsched & _).
  unfold run_pending_jobs, bind, get. simpl.
  unfold bind, get, pending_conf, can_run_a. simpl.
  rewrite bool_decide_eq_true_2 by reflexivity.
  unfold bind, _must_wait_time, bind, pending_conf, ret. simpl.
  unfold start_job, run_job. rewrite Htask.
  unfold bind, get_command_line, bind, get_job, ret. simpl.
  match goal with |- context [schedule_script w ?a ?b ?c ?d ?e] =>
    destruct (schedule_script w a b c d e) as [[[|c0 s0]|]|] eqn:E end;
    [| | |exfalso; eapply Hsched; exact E]; simpl; eexists; reflexivity.
Qed.

(** The running job is found failed: it is added again while budget is
    left, and leaves the running map. *)
Lemma check_running_retry (k : Z) (jobid : option string) (io : nat)
    (log : list (string * Z)) :
  check_running_jobs w (retry_state k [] [("A", jobid)] io log)
  = Ok tt (if (0 <? k)%Z
           then retry_state (k - 1) (retry_pending 1) [] (S io) log
           else retry_state k [] [] (S io) log).
Proof.
  destruct Hw as (_ & _ & Hfin).
  unfold check_running_jobs, bind, get. simpl.
  unfold bind, check_running_job, bind. simpl. rewrite Hfin.
  unfold finish_job, bind, discard_dependency, bind, modify. simpl.
  unfold bind, _get_next_jobs, bind, get, get_job. simpl.
  unfold bind, handle_next. simpl. unfold bind, get_job. simpl.
  destruct (0 <? k)%Z; reflexivity.
Qed.

Lemma tick_retry (k : Z) (jobid : option string) (io : nat) (log : list (string * Z)) :
  (0 < k)%Z ->
  exists jobid',
    workflow_loop w (retry_state k [] [("A", jobid)] io log)
    = Ok true (retry_state (k - 1) [] [("A", jobid')] (S (S io)) (log ++ [("A", 1%Z)])).
Proof.
  intros Hk. rewrite workflow_loop_unfold, check_running_retry.
  apply Z.ltb_lt in Hk. rewrite Hk.
  destruct (run_pending_retry (k - 1) 1 (S io) log) as [jobid' Hrun].
  exists jobid'. change (negb (is_empty (pending_jobs
    (retry_state (k - 1) (retry_pending 1) [] (S io) log)))) with true.
  cbv iota. now rewrite Hrun.
Qed.

Lemma tick_dropped (k : Z) (jobid : option string) (io : nat) (log : list (string * Z)) :
  (k <= 0)%Z ->
  workflow_loop w (retry_state k [] [("A", jobid)] io log)
  = Ok false (retry_state k [] [] (S io) log).
Proof.
  intros Hk. rewrite workflow_loop_unfold, check_running_retry.
  apply Z.ltb_ge in Hk. rewrite Hk. reflexivity.
Qed.

(** With [n] retries left and the job running, [n] more submissions
    follow, all of them retries, and tick [n + 1] signals completion. *)
Lemma retries_run_out (n : nat) :
  forall jobid io log,
  exists io',
    run_workflow w (S n) (retry_state (Z.of_nat n) [] [("A", jobid)] io log)
    = Ok true (retry_state 0 [] [] io' (log ++ repeat ("A", 1%Z) n)).
Proof.
  induction n as [|n IH]; intros jobid io log.
  - exists (S io). rewrite run_workflow_S, tick_dropped by reflexivity.
    simpl. now rewrite app_nil_r.
  - destruct (tick_retry (Z.of_nat (S n)) jobid io log) as [jobid' Htick]; [lia|].
    replace (Z.of_nat (S n) - 1)%Z with (Z.of_nat n) in Htick by lia.
    destruct (IH jobid' (S (S io)) (log ++ [("A", 1%Z)])%list) as [io' Hrun].
    exists io'. rewrite run_workflow_S, Htick, Hrun.
    now rewrite <- app_assoc.
Qed.

(** From the start: a budget of [n] gives [n + 1] submissions, and tick
    [n + 2] signals completion with nothing pending or running. *)
Lemma budget_bounds_submissions (n : nat) :
  exists io',
    run_workflow w (S (S n)) (retry_state (Z.of_nat n) (retry_pending 0) [] 0 [])
    = Ok true (retry_state 0 [] [] io' (("A", 0%Z) :: repeat ("A", 1%Z) n)).
Proof.
  destruct (run_pending_retry (Z.of_nat n) 0 0 []) as [jobid Hrun].
  destruct (retries_run_out n jobid 1 [("A", 0%Z)]) as [io' Hrest].
  exists io'. rewrite run_workflow_S, workflow_loop_unfold.
  change (check_running_jobs w (retry_state (Z.of_nat n) (retry_pending 0) [] 0 []))
    with (@Ok unit tt (retry_state (Z.of_nat n) (retry_pending 0) [] 0 [])).
  change (negb (is_empty (pending_jobs
    (retry_state (Z.of_nat n) (retry_pending 0) [] 0 [])))) with true.
  cbv iota. rewrite Hrun. exact Hrest.
Qed.

End RetryScenario.

(** C6. The ["retry"] successor of a finished job with budget left
    puts the task back in the pending map with [retries = 1] and takes one
    off the budget of the declared task; with no budget left nothing is
    added.  With a budget of 2, [on_finish.failed = ["retry"]] and a
    backend that fails every run, the task is submitted three times, the
    third failure adds nothing, and the fourth tick signals completion
    with nothing pending or running. *)
Theorem retry_until_budget_exhausted :
  (forall job conf m,
     od_get job (jobs_graph m) = Some conf ->
     (0 < default 0 (retries conf))%Z ->
     truthy (parallel_arg conf) = false ->
     exists m',
       handle_next job "retry" m = Ok tt m'
       /\ p_retries <$> od_get job (pending_jobs m') = Some 1%Z
       /\ od_get job (jobs_graph m') ≫= retries = Some (default 0 (retries conf) - 1)%Z)
  /\ (forall job conf m,
        od_get job (jobs_graph m) = Some conf ->
        (default 0 (retries conf) <= 0)%Z ->
        handle_next job "retry" m = Ok tt m)
  /\ (forall w,
        always_failing w ->
        exists m0 m4,
          start_with "A" (new_manager retry_graph None None false) = Ok tt m0
          /\ run_workflow w 4 m0 = Ok true m4
          /\ submitted m4 = [("A", 0%Z); ("A", 1%Z); ("A", 1%Z)]
          /\ pending_jobs m4 = []
          /\ running_jobs m4 = []
          /\ od_get "A" (jobs_graph m4) ≫= retries = Some 0%Z).
Proof.
  split; [|split].
  - intros job conf m Hjob Hpos Hpar.
    destruct (handle_next_retry job conf m Hjob Hpos Hpar) as (m' & Hrun & Hp & Hg & _).
    exists m'. split; [exact Hrun|]. rewrite Hp, Hg. split; reflexivity.
  - exact handle_next_retry_exhausted.
  - intros w Hw.
    destruct (budget_bounds_submissions w Hw 2) as [io' Hrun].
    eexists _, _. split; [vm_compute; reflexivity|].
    split; [exact Hrun|]. repeat split; reflexivity.
Qed.

Lemma failing_backend_always_failing : always_failing failing_backend.
Proof. repeat split; intros; simpl; congruence. Qed.

Lemma retry_until_budget_exhausted_witness :
  (exists m',
     handle_next "B" "retry" retry_once_manager = Ok tt m'
     /\ p_retries <$> od_get "B" (pending_jobs m') = Some 1%Z
     /\ od_get "B" (jobs_graph m') ≫= retries = Some 0%Z)
  /\ (exists m0 m4,
        start_with "A" (new_manager retry_graph None None false) = Ok tt m0
        /\ run_workflow failing_backend 4 m0 = Ok true m4
        /\ submitted m4 = [("A", 0%Z); ("A", 1%Z); ("A", 1%Z)]
        /\ pending_jobs m4 = []
        /\ running_jobs m4 = []
        /\ od_get "A" (jobs_graph m4) ≫= retries = Some 0%Z).
Proof.
  split.
  - refine (proj1 retry_until_budget_exhausted "B" _ retry_once_manager eq_refl _ eq_refl).
    reflexivity.
  - apply (proj2 (proj2 retry_until_budget_exhausted) failing_backend).
    repeat split; intros; simpl; congruence.
Defined.

(** The scenario on the example backend: after three ticks the third
    run is still in the running map, the fourth tick ends the workflow. *)
Lemma retry_scenario_ticks :
  exists m0 m3 m4,
    start_with "A" (new_manager retry_graph None None false) = Ok tt m0
    /\ run_workflow failing_backend 3 m0 = Ok false m3
    /\ od_keys (running_jobs m3) = ["A"]
    /\ submitted m3 = [("A", 0%Z); ("A", 1%Z); ("A", 1%Z)]
    /\ run_workflow failing_backend 4 m0 = Ok true m4
    /\ submitted m4 = submitted m3.
Proof.
  eexists _, _, _.
  split; [vm_compute; reflexivity|].
  split; [vm_compute; reflexivity|].
  split; [reflexivity|]. split; [reflexivity|].
  split; [vm_compute; reflexivity|]. reflexivity.
Qed.

(* ================================================================== *)
(** * Fan-out: the resources of the units *)
(* ================================================================== *)

Lemma requested_scale_set (n : nat) (r : string) (rs : resource_set) :
  requested r (scale_set n rs) = (fun a => Fraction a n) <$> requested r rs.
Proof.
  unfold requested, scale_set.
  induction rs as [|[k a] rs IH]; simpl; [reflexivity|].
  destruct (String.eqb k r); [reflexivity | assumption].
Qed.

Lemma unit_conf_required_resources (base : jobconf) (sets : list resource_set)
    (parg : string) (n i : nat) :
  required_resources (unit_conf base sets parg n i) = Some (unit_required_resources n sets).
Proof.
  unfold unit_conf. simpl. now destruct (retry_args base).
Qed.

Lemma Qc_of_nat_nonzero (n : nat) :
  0 < n -> Q2Qc (inject_Z (Z.of_nat n)) <> Q2Qc 0.
Proof.
  intros Hn E. apply Q2Qc_eq_iff in E.
  unfold Qeq in E. simpl in E. lia.
Qed.

Lemma Qc_of_nat_succ (n : nat) :
  Q2Qc (inject_Z (Z.of_nat (S n))) = (1 + Q2Qc (inject_Z (Z.of_nat n)))%Qc.
Proof.
  apply Qc_is_canon. unfold Qcplus, Q2Qc, this.
  rewrite !Qred_correct, Nat2Z.inj_succ. unfold Z.succ.
  rewrite inject_Z_plus. unfold Qeq. simpl. ring.
Qed.

Lemma Qc_sum_constant (x : Qc) (l : list nat) :
  Qc_sum (map (fun _ => x) l) = (Q2Qc (inject_Z (Z.of_nat (length l))) * x)%Qc.
Proof.
  induction l as [|i l IH].
  - change (Q2Qc 0 = Q2Qc 0 * x)%Qc. ring.
  - change (Qc_sum (map (fun _ => x) (i :: l)))
      with (x + Qc_sum (map (fun _ => x) l))%Qc.
    rewrite IH. simpl length. rewrite Qc_of_nat_succ. ring.
Qed.

(** ** The expansion runs to its end *)

Lemma extends_refl (m : manager) : extends m m.
Proof. split; [reflexivity|]. intros k c H. eauto. Qed.

Lemma extends_trans (m1 m2 m3 : manager) :
  extends m1 m2 -> extends m2 m3 -> extends m1 m3.
Proof.
  intros [Hp1 H1] [Hp2 H2]. split; [congruence|].
  intros k c Hk. destruct (H1 k c Hk) as (c' & Hk' & Hr').
  destruct (H2 k c' Hk') as (c'' & Hk'' & Hr''). exists c''. split; congruence.
Qed.

Lemma update_job_extends (k : string) (f : jobconf -> jobconf) (m : manager) :
  (forall c, required_resources (f c) = required_resources c) ->
  exists m', update_job k f m = Ok tt m' /\ extends m m'.
Proof.
  intros Hf. unfold update_job, modify.
  destruct (od_get k (jobs_graph m)) as [c|] eqn:E.
  - eexists. split; [reflexivity|]. split; [reflexivity|].
    intros k' c' Hk'. simpl. rewrite od_get_set.
    destruct (String.eqb k k') eqn:E'.
    + apply String.eqb_eq in E'. subst k'. exists (f c). split; [reflexivity|].
      rewrite Hf. congruence.
    + eauto.
  - eexists. split; [reflexivity | apply extends_refl].
Qed.

Lemma update_pending_extends (k : string) (f : pending_job -> pending_job) (m : manager) :
  exists m', update_pending k f m = Ok tt m' /\ extends m m'.
Proof.
  unfold update_pending, modify.
  destruct (od_get k (pending_jobs m)); eexists; (split; [reflexivity|]);
    (split; [reflexivity|]); intros k' c' Hk'; simpl; eauto.
Qed.

Lemma od_mem_extends (x : string) (m m' : manager) :
  extends m m' -> od_mem x (jobs_graph m) = true -> od_mem x (jobs_graph m') = true.
Proof.
  intros [_ H] Hx. unfold od_mem in *.
  destruct (od_get x (jobs_graph m)) as [c|] eqn:E; [|discriminate].
  destruct (H x c E) as (c' & -> & _). reflexivity.
Qed.

Lemma link_successor_extends (nextjob job_unit : string) (m : manager) :
  od_mem nextjob (jobs_graph m) = true ->
  exists m', link_successor nextjob job_unit m = Ok tt m' /\ extends m m'.
Proof.
  intros Hx. unfold link_successor, bind, get_job. unfold od_mem in Hx.
  destruct (od_get nextjob (jobs_graph m)) as [c|] eqn:E; [|discriminate].
  destruct (update_job_extends nextjob
              (fun c => with_wait_for (Some (default [] (wait_for c) ++ [job_unit])%list) c) m)
    as (m1 & -> & H1); [reflexivity|].
  destruct (update_pending_extends nextjob
              (fun p => with_p_wait_for (p_wait_for p ∪ {[job_unit]}) p) m1)
    as (m2 & -> & H2).
  exists m2. split; [reflexivity | eapply extends_trans; eassumption].
Qed.

(** The list being emptied is a run of ["retry"] followed by what is
    left of the copy. *)
Lemma py_remove_after_retries (x : string) (kept todo : list string) :
  Forall (fun y => y = "retry") kept -> x <> "retry" ->
  py_remove x (kept ++ x :: todo)%list = Some (kept ++ todo)%list.
Proof.
  intros Hk Hx. induction Hk as [|y kept -> _ IH]; simpl.
  - now rewrite decide_True.
  - rewrite decide_False by congruence. now rewrite IH.
Qed.

Lemma strip_nextjobs_succeeds (job job_unit : string) (n : nat) (todo : list string) :
  forall kept i m,
  Forall (fun y => y = "retry") kept ->
  (forall x, In x todo -> x <> "retry" -> od_mem x (jobs_graph m) = true) ->
  exists l m', strip_nextjobs job job_unit n todo (kept ++ todo)%list i m = Ok (l, i) m'
               /\ extends m m'.
Proof.
  induction todo as [|x todo IH]; intros kept i m Hk Hx; simpl.
  - eexists _, m. split; [reflexivity | apply extends_refl].
  - destruct (String.eqb x "retry") eqn:E.
    + apply String.eqb_eq in E. subst x.
      replace (kept ++ "retry" :: todo)%list with ((kept ++ ["retry"]) ++ todo)%list
        by now rewrite <- app_assoc.
      apply IH.
      * apply Forall_app. split; [assumption | now constructor].
      * intros y Hy. apply Hx. now right.
    + apply String.eqb_neq in E.
      unfold bind at 1. unfold get at 1.
      rewrite (Hx x (or_introl eq_refl) E).
      destruct (link_successor_extends x job_unit m (Hx x (or_introl eq_refl) E))
        as (m1 & Hl & He).
      unfold bind at 1. unfold bind at 1. rewrite Hl. unfold ret at 1.
      rewrite (py_remove_after_retries x kept todo Hk E).
      destruct (IH kept i m1 Hk) as (l & m2 & Hs & He2).
      { intros y Hy Hne. eapply od_mem_extends; [exact He|]. apply Hx; [now right | assumption]. }
      exists l, m2. split; [exact Hs | eapply extends_trans; eassumption].
Qed.

Lemma strip_on_finish_succeeds (job job_unit : string) (n : nat) (items : odict (list string)) :
  forall i m,
  successors_declared items m ->
  exists l i' m', strip_on_finish job job_unit n items i m = Ok (l, i') m'
                  /\ extends m m'.
Proof.
  induction items as [|[outcome nextjobs] items IH]; intros i m Hs; simpl.
  - eexists _, _, m. split; [reflexivity | apply extends_refl].
  - assert (exists l i1 m1,
              (if Nat.eqb i 0 then ret (nextjobs, i)
               else strip_nextjobs job job_unit n nextjobs nextjobs i) m = Ok (l, i1) m1
              /\ extends m m1) as (l & i1 & m1 & H1 & He1).
    { destruct (Nat.eqb i 0).
      - eexists _, _, m. split; [reflexivity | apply extends_refl].
      - destruct (strip_nextjobs_succeeds job job_unit n nextjobs [] i m) as (l & m1 & H & He).
        + constructor.
        + intros x Hin Hne. apply (Hs outcome nextjobs x); [now left | assumption | assumption].
        + exists l, i, m1. split; [exact H | exact He]. }
    destruct (IH i1 m1) as (l' & i' & m' & H2 & He2).
    { intros o njs x Hin Hx Hne. eapply od_mem_extends; [exact He1|].
      apply (Hs o njs x); [now right | assumption | assumption]. }
    unfold bind. rewrite H1. simpl. rewrite H2. simpl.
    eexists _, _, m'. split; [reflexivity | eapply extends_trans; eassumption].
Qed.

Lemma unit_conf_on_finish (base : jobconf) (sets : list resource_set) (parg : string)
    (n i : nat) :
  on_finish (unit_conf base sets parg n i) = on_finish base.
Proof. unfold unit_conf. simpl. now destruct (retry_args base). Qed.

(** One unit more is stored, and what the loop relies on is kept. *)
Lemma add_unit_succeeds (job : string) (base : jobconf) (sets : list resource_set)
    (parg : string) (deps : list string) (r : Z) (t : option Q) (n j : nat) (m : manager) :
  successors_declared (default [] (on_finish base)) m ->
  units_stored job (unit_required_resources n sets) j m ->
  exists m', add_unit job base sets parg deps r t n j m = Ok tt m'
             /\ successors_declared (default [] (on_finish base)) m'
             /\ units_stored job (unit_required_resources n sets) (S j) m'
             /\ parallelization m' = parallelization m.
Proof.
  intros Hs Hu. unfold add_unit.
  rewrite unit_conf_on_finish.
  destruct (strip_on_finish_succeeds job (unit_name job j) n (default [] (on_finish base)) j m Hs)
    as (l & i' & m1 & Hrun & [Hpar Hext]).
  unfold bind, modify. rewrite Hrun. simpl.
  eexists. split; [reflexivity|]. simpl.
  split; [|split; [|exact Hpar]].
  - intros o njs x Hin Hx Hne. apply od_mem_set.
    eapply od_mem_extends; [split; eassumption|]. eapply Hs; eassumption.
  - intros i Hi. cbn [jobs_graph set_pending_jobs set_jobs_graph]. rewrite od_get_set.
    destruct (String.eqb (unit_name job j) (unit_name job i)) eqn:E.
    + eexists. split; [reflexivity|].
      destruct (on_finish base); simpl; apply unit_conf_required_resources.
    + assert (i < j) as Hlt.
      { destruct (decide (i = j)) as [->|]; [|lia]. now rewrite String.eqb_refl in E. }
      destruct (Hu i Hlt) as (c & Hc & Hr).
      destruct (Hext _ c Hc) as (c' & Hc' & Hr'). exists c'. split; congruence.
Qed.

Lemma add_units_succeed (job : string) (base : jobconf) (sets : list resource_set)
    (parg : string) (deps : list string) (r : Z) (t : option Q) (n len : nat) :
  forall j m,
  successors_declared (default [] (on_finish base)) m ->
  units_stored job (unit_required_resources n sets) j m ->
  exists m', for_each (seq j len) (add_unit job base sets parg deps r t n) m = Ok tt m'
             /\ units_stored job (unit_required_resources n sets) (j + len) m'
             /\ parallelization m' = parallelization m.
Proof.
  induction len as [|len IH]; intros j m Hs Hu; simpl.
  - exists m. rewrite Nat.add_0_r. auto.
  - destruct (add_unit_succeeds job base sets parg deps r t n j m Hs Hu)
      as (m1 & Hrun & Hs1 & Hu1 & Hp1).
    destruct (IH (S j) m1 Hs1 Hu1) as (m2 & Hrun2 & Hu2 & Hp2).
    exists m2. unfold bind. rewrite Hrun. split; [exact Hrun2|].
    split; [|congruence]. now replace (j + S len) with (S j + len) by lia.
Qed.

Lemma rewire_extends (job : string) (n : nat) (other : string) (m : manager) :
  exists m', rewire job n other m = Ok tt m' /\ extends m m'.
Proof.
  unfold rewire, bind, get.
  destruct (od_get other (jobs_graph m)) as [oconf|];
    [|exists m; split; [reflexivity | apply extends_refl]].
  destruct (py_in job (default [] (wait_for oconf))) eqn:Hin;
    [|exists m; split; [reflexivity | apply extends_refl]].
  apply bool_decide_eq_true_1, py_remove_elem in Hin. destruct Hin as [wl' ->].
  destruct (update_job_extends other
              (with_wait_for (Some (wl' ++ map (unit_name job) (seq 0 n))%list)) m)
    as (m1 & -> & H1); [reflexivity|].
  destruct (update_pending_extends other
              (fun p => with_p_wait_for
                          ((p_wait_for p ∖ {[job]})
                           ∪ list_to_set (map (unit_name job) (seq 0 n))) p) m1)
    as (m2 & -> & H2).
  exists m2. split; [reflexivity | eapply extends_trans; eassumption].
Qed.

Lemma for_each_extends {A} (body : A -> M unit) (l : list A) :
  (forall x m, exists m', body x m = Ok tt m' /\ extends m m') ->
  forall m, exists m', for_each l body m = Ok tt m' /\ extends m m'.
Proof.
  intros Hbody. induction l as [|x l IH]; intros m; simpl.
  - exists m. split; [reflexivity | apply extends_refl].
  - destruct (Hbody x m) as (m1 & H1 & E1). destruct (IH m1) as (m2 & H2 & E2).
    exists m2. unfold bind. rewrite H1. split; [exact H2 | eapply extends_trans; eassumption].
Qed.

Lemma units_stored_extends (job : string) (sets : list resource_set) (j : nat)
    (m m' : manager) :
  extends m m' -> units_stored job sets j m -> units_stored job sets j m'.
Proof.
  intros [_ Hext] Hu i Hi. destruct (Hu i Hi) as (c & Hc & Hr).
  destruct (Hext _ c Hc) as (c' & Hc' & Hr'). exists c'. split; congruence.
Qed.

(** The expansion of a fan-out task whose successors are jobs of the
    graph returns, and leaves all [n] units in the graph with the scaled
    resource sets. *)
Lemma expansion_stores_units (job : string) (conf : jobconf) (a : ascii) (s : string)
    (n : nat) (deps : list string) (r : Z) (m : manager) :
  od_get job (jobs_graph m) = Some conf ->
  parallel_arg conf = Some (String a s) ->
  parallelization m = Some n ->
  (forall outcome nextjobs nextjob,
     In (outcome, nextjobs) (default [] (on_finish conf)) -> In nextjob nextjobs ->
     nextjob <> "retry" -> nextjob <> job /\ od_mem nextjob (jobs_graph m) = true) ->
  exists m', _add_pending_job job deps r m = Ok tt m'
             /\ units_stored job
                  (unit_required_resources n (default [] (required_resources conf))) n m'.
Proof.
  intros Hjob Hpar Hn Hsucc.
  unfold _add_pending_job. unfold bind at 1. unfold get_job at 1. rewrite Hjob, Hpar.
  unfold bind at 1. unfold update_job, modify at 1. rewrite Hjob.
  unfold bind at 1. unfold modify at 1.
  unfold bind at 1. unfold get at 1. cbn [parallelization set_jobs_graph]. rewrite Hn.
  match goal with |- exists _, bind _ _ ?m0 = _ /\ _ =>
    destruct (add_units_succeed job (with_parallel_arg None conf)
                (default [] (required_resources conf)) (String a s) deps r
                (wait_time conf) n n 0 m0) as (m1 & Hrun & Hu & Hp)
  end.
  - intros o njs x Hin Hx Hne. simpl in Hin.
    destruct (Hsucc o njs x Hin Hx Hne) as [Hxj Hmem].
    unfold od_mem in *. simpl.
    rewrite od_get_del_ne, od_get_set_ne by congruence. exact Hmem.
  - intros i Hi. lia.
  - unfold bind at 1. rewrite Hrun.
    unfold bind at 1. unfold get at 1.
    destruct (for_each_extends (rewire job n) (od_keys (jobs_graph m1))
                (rewire_extends job n) m1) as (m2 & Hrun2 & Hext).
    exists m2. split; [exact Hrun2|].
    eapply units_stored_extends; [exact Hext | exact Hu].
Qed.

(** C8. With a parallelization [n] of at least 1, every amount of every
    resource set of every unit that the expansion builds is the declared
    amount divided by [n], as an exact rational, and the amounts of the
    [n] units add up to the declared amount.  When the successors of the
    task are jobs of the graph the expansion returns, and the units are
    in the graph with these amounts. *)
Theorem fan_out_splits_resources (job : string) (conf : jobconf) (a : ascii) (s : string)
    (n : nat) (deps : list string) (retries : Z) (m : manager)
    (k : nat) (rs : resource_set) (res : string) (amount : Qc) :
  od_get job (jobs_graph m) = Some conf ->
  parallel_arg conf = Some (String a s) ->
  parallelization m = Some n ->
  0 < n ->
  default [] (required_resources conf) !! k = Some rs ->
  requested res rs = Some amount ->
  let part := (amount / Q2Qc (inject_Z (Z.of_nat n)))%Qc in
  let base := with_parallel_arg None conf in
  (forall i, unit_amount base (String a s) n k res i = Some part)
  /\ Qc_sum (map (fun i => default (Q2Qc 0) (unit_amount base (String a s) n k res i))
               (seq 0 n)) = amount
  /\ ((forall outcome nextjobs nextjob,
         In (outcome, nextjobs) (default [] (on_finish conf)) -> In nextjob nextjobs ->
         nextjob <> "retry" -> nextjob <> job /\ od_mem nextjob (jobs_graph m) = true) ->
      exists m', _add_pending_job job deps retries m = Ok tt m'
                 /\ forall i, i < n -> graph_amount m' (unit_name job i) k res = Some part).
Proof.
  intros Hjob Hpar Hpn Hn Hk Hr part base.
  assert (Hunit : forall i, unit_amount base (String a s) n k res i = Some part).
  { intros i. unfold unit_amount.
    rewrite unit_conf_required_resources. simpl.
    unfold unit_required_resources. rewrite list_lookup_fmap, Hk. simpl.
    rewrite requested_scale_set, Hr. reflexivity. }
  split; [exact Hunit|]. split.
  - rewrite (map_ext _ (fun _ => part)).
    2:{ intros i. now rewrite Hunit. }
    rewrite Qc_sum_constant, length_seq. unfold part.
    field. now apply Qc_of_nat_nonzero.
  - intros Hsucc.
    destruct (expansion_stores_units job conf a s n deps retries m Hjob Hpar Hpn Hsucc)
      as (m' & Hrun & Hu).
    exists m'. split; [exact Hrun|]. intros i Hi.
    destruct (Hu i Hi) as (c & Hc & Hres).
    unfold graph_amount. rewrite Hc. simpl. rewrite Hres. simpl.
    unfold unit_required_resources. rewrite list_lookup_fmap, Hk. simpl.
    rewrite requested_scale_set, Hr. reflexivity.
Qed.

Lemma fan_out_splits_resources_witness :
  let third := (Q2Qc 2 / Q2Qc (inject_Z (Z.of_nat 3)))%Qc in
  let base := with_parallel_arg None shard_job in
  (forall i, unit_amount base "--shard=%d" 3 0 "mem" i = Some third)
  /\ Qc_sum (map (fun i => default (Q2Qc 0) (unit_amount base "--shard=%d" 3 0 "mem" i))
               (seq 0 3)) = Q2Qc 2
  /\ exists m', _add_pending_job "P" [] 0 shard_manager = Ok tt m'
                /\ forall i, i < 3 -> graph_amount m' (unit_name "P" i) 0 "mem" = Some third.
Proof.
  destruct (fan_out_splits_resources "P" shard_job "-" "-shard=%d" 3 [] 0%Z shard_manager
              0 [("cpu", Q2Qc 1); ("mem", Q2Qc 2)] "mem" (Q2Qc 2)
              eq_refl eq_refl eq_refl (Nat.lt_0_succ 2) eq_refl eq_refl)
    as (Hunits & Hsum & Hrun).
  split; [exact Hunits|]. split; [exact Hsum|].
  apply Hrun. intros outcome nextjobs nextjob [].
Defined.

(** The expansion of the example, evaluated: three units, each with a
    third of the cpu and two thirds of memory. *)
Lemma shards_example :
  exists m', _add_pending_job "P" [] 0 shard_manager = Ok tt m'
             /\ od_keys (jobs_graph m') = ["P_0"; "P_1"; "P_2"]
             /\ od_keys (pending_jobs m') = ["P_0"; "P_1"; "P_2"]
             /\ (od_get "P_1" (jobs_graph m') ≫= init_args) = Some ["--shard=1"]
             /\ (this <$> graph_amount m' "P_1" 0 "cpu") = Some (1 # 3)
             /\ (this <$> graph_amount m' "P_1" 0 "mem") = Some (2 # 3).
Proof.
  eexists. split; [vm_compute; reflexivity|]. repeat split; vm_compute; reflexivity.
Qed.

(* ================================================================== *)
(** * What the ledger operations leave alone *)
(* ================================================================== *)

Lemma same_jobs_refl (m : manager) : same_jobs m m.
Proof. now repeat split. Qed.

Lemma same_jobs_trans (m1 m2 m3 : manager) :
  same_jobs m1 m2 -> same_jobs m2 m3 -> same_jobs m1 m3.
Proof.
  unfold same_jobs. intros (?&?&?&?&?&?&?) (?&?&?&?&?&?&?).
  repeat split; congruence.
Qed.

Lemma take_resource_same_jobs (job : string) (ra : string * Qc) (m : manager) :
  same_jobs m (final_state (take_resource job ra m)).
Proof.
  unfold take_resource.
  destruct (available_resources m !! ra.1); simpl; now repeat split.
Qed.

Lemma try_acquire_same_jobs (job : string) (m : manager) :
  same_jobs m (final_state (_try_acquire_resources job m)).
Proof.
  unfold _try_acquire_resources, bind, get_job.
  destruct (od_get job (jobs_graph m)) as [conf|]; [|apply same_jobs_refl].
  generalize true as b.
  induction (default [] (required_resources conf)) as [|rs sets IH]; intros b; simpl;
    [apply same_jobs_refl|].
  unfold bind. pose proof (check_set_state rs m) as Hc.
  destruct (check_set rs m) as [fit m1|e m1]; simpl in Hc; subst m1;
    [|apply same_jobs_refl].
  destruct fit; [|apply IH].
  assert (same_jobs m (final_state (take_set job rs m))) as Ht.
  { apply (for_each_final_inv (same_jobs m)); [|apply same_jobs_refl].
    intros x m' Hm'. eapply same_jobs_trans; [exact Hm'|].
    apply take_resource_same_jobs. }
  destruct (take_set job rs m) as [[] m2|e m2]; exact Ht.
Qed.

Lemma release_scan_same_jobs (job res_name : string) (fuel : nat) :
  forall i m, same_jobs m (final_state (release_scan job res_name fuel i m)).
Proof.
  induction fuel as [|fuel IH]; intros i m; simpl; [apply same_jobs_refl|].
  destruct (default [] (od_get res_name (acquired_resources m)) !! i)
    as [[rjob res_amount]|]; [|apply same_jobs_refl].
  destruct (String.eqb rjob job); [|apply IH].
  destruct (available_resources m !! res_name) as [v|]; [|apply same_jobs_refl].
  destruct (py_remove (rjob, res_amount) _); [|now repeat split].
  eapply same_jobs_trans; [|apply IH]. now repeat split.
Qed.

Lemma release_same_jobs (job : string) (m : manager) :
  same_jobs m (final_state (_release_resources job m)).
Proof.
  unfold _release_resources.
  apply (for_each_final_inv (same_jobs m)); [|apply same_jobs_refl].
  intros res_name m' Hm'. eapply same_jobs_trans; [exact Hm'|].
  unfold release_resource. apply release_scan_same_jobs.
Qed.

Lemma must_wait_same_jobs (w : world) (job : string) (m : manager) :
  same_jobs m (final_state (_must_wait_time w job m)).
Proof.
  unfold _must_wait_time, bind, pending_conf.
  destruct (od_get job (pending_jobs m)) as [conf|]; [|apply same_jobs_refl].
  destruct (p_wait_time conf); simpl; now repeat split.
Qed.

Lemma run_job_same_jobs (w : world) (job : string) (r : Z) (m : manager) :
  same_jobs m (final_state (run_job w job r m))
  /\ available_resources (final_state (run_job w job r m)) = available_resources m
  /\ acquired_resources (final_state (run_job w job r m)) = acquired_resources m.
Proof.
  unfold run_job.
  destruct (task_run w job) as [run|].
  - destruct (run (io_count m) r); simpl; now repeat split.
  - unfold bind, get_command_line, bind, get_job, ret.
    destruct (od_get job (jobs_graph m)) eqn:E; simpl; [|now repeat split].
    rewrite E. simpl.
    match goal with |- context [schedule_script ?a ?b ?c ?d ?e ?f] =>
      destruct (schedule_script a b c d e f) as [[[|? ?]|]|] end; simpl; now repeat split.
Qed.

(* ================================================================== *)
(** * Releasing *)
(* ================================================================== *)

(** Nothing is released from a list that has no entry of the job from
    index [i] on. *)
Lemma release_scan_nothing (job res_name : string) (fuel : nat) :
  forall i m,
  (forall j e, i <= j -> held_for res_name m !! j = Some e -> e.1 <> job) ->
  release_scan job res_name fuel i m = Ok tt m.
Proof.
  induction fuel as [|fuel IH]; intros i m Hfree; [reflexivity|].
  rewrite release_scan_S. fold (held_for res_name m).
  destruct (held_for res_name m !! i) as [[rjob res_amount]|] eqn:Ei; [|reflexivity].
  pose proof (Hfree i _ (Nat.le_refl i) Ei) as Hne. simpl in Hne.
  apply String.eqb_neq in Hne. rewrite Hne.
  apply IH. intros j e Hj. apply Hfree. lia.
Qed.

Lemma release_resource_nothing (job res_name : string) (m : manager) :
  (forall e, In e (held_for res_name m) -> e.1 <> job) ->
  release_resource job res_name m = Ok tt m.
Proof.
  intros Hfree. unfold release_resource. apply release_scan_nothing.
  intros j e _ Hj. apply Hfree. apply list_elem_of_In. eapply list_elem_of_lookup_2. exact Hj.
Qed.

Lemma for_each_unchanged {A} (body : A -> M unit) (l : list A) (m : manager) :
  (forall x, In x l -> body x m = Ok tt m) -> for_each l body m = Ok tt m.
Proof.
  induction l as [|x l IH]; intros H; simpl; [reflexivity|].
  unfold bind. rewrite (H x (or_introl eq_refl)). apply IH.
  intros y Hy. apply H. now right.
Qed.

(** X1. Releasing a job that holds no resource changes nothing. *)
Theorem release_without_holdings (job : string) (m : manager) :
  holds_nothing job m ->
  _release_resources job m = Ok tt m.
Proof.
  intros Hfree. unfold _release_resources. apply for_each_unchanged.
  intros r _. apply release_resource_nothing. apply Hfree.
Qed.

Lemma release_without_holdings_witness :
  _release_resources "Y" busy_manager = Ok tt busy_manager.
Proof.
  apply (release_without_holdings "Y" busy_manager).
  intros r e Hin.
  change (held_for r busy_manager)
    with (default [] (if String.eqb "cpu" r then Some [("X", Q2Qc 1)] else None)) in Hin.
  destruct (String.eqb "cpu" r); simpl in Hin.
  - destruct Hin as [<-|Hin]; [discriminate | destruct Hin].
  - destruct Hin.
Defined.

(** ** Undoing an acquisition *)

Lemma py_remove_last {A} `{EqDecision A} (x : A) (pre : list A) :
  ~ In x pre -> py_remove x (pre ++ [x])%list = Some pre.
Proof.
  induction pre as [|y pre IH]; intros Hn; simpl.
  - now rewrite decide_True.
  - rewrite decide_False by (intros ->; apply Hn; now left).
    rewrite IH; [reflexivity|]. intros Hin. apply Hn. now right.
Qed.

(** The scan reaches the entry of the job at the end of the list,
    gives its amount back and removes it. *)
Lemma release_scan_last (job res_name : string) (pre : list (string * Qc)) (a v : Qc)
    (fuel : nat) :
  forall i m,
  held_for res_name m = (pre ++ [(job, a)])%list ->
  (forall e, In e pre -> e.1 <> job) ->
  available_resources m !! res_name = Some v ->
  i <= length pre -> length pre - i < fuel ->
  release_scan job res_name fuel i m
  = Ok tt (set_acquired (od_set res_name pre (acquired_resources m))
             (set_available (<[res_name := (v + a)%Qc]> (available_resources m)) m)).
Proof.
  induction fuel as [|fuel IH]; intros i m Hheld Hfree Hav Hi Hfuel; [lia|].
  rewrite release_scan_S. fold (held_for res_name m). rewrite Hheld.
  destruct (decide (i = length pre)) as [->|Hne].
  - rewrite list_lookup_middle by reflexivity. rewrite String.eqb_refl, Hav.
    rewrite py_remove_last.
    2:{ intros Hin. now apply (Hfree _ Hin). }
    apply release_scan_nothing. intros j e _ Hj.
    unfold held_for in Hj. simpl in Hj. rewrite od_get_set_eq in Hj. simpl in Hj.
    apply Hfree. apply list_elem_of_In. eapply list_elem_of_lookup_2. exact Hj.
  - assert (i < length pre) as Hlt by lia.
    rewrite lookup_app_l by assumption.
    destruct (pre !! i) as [[rjob res_amount]|] eqn:Ei.
    2:{ apply lookup_ge_None in Ei. lia. }
    assert (rjob <> job) as Hrj.
    { apply (Hfree (rjob, res_amount)). apply list_elem_of_In.
      eapply list_elem_of_lookup_2. exact Ei. }
    apply String.eqb_neq in Hrj. rewrite Hrj.
    apply IH; try assumption; lia.
Qed.

Lemma check_set_true (rs : resource_set) (m : manager) :
  check_set rs m = Ok true m ->
  forall ra, In ra rs -> is_Some (available_resources m !! ra.1).
Proof.
  induction rs as [|[res_name res_amount] rs IH]; simpl; intros H ra Hin; [destruct Hin|].
  destruct (available_resources m !! res_name) as [v|] eqn:E; [|discriminate].
  destruct (Qc_ltb v res_amount); [discriminate|].
  destruct Hin as [<-|Hin]; [simpl; rewrite E; eauto | now apply IH].
Qed.

(** An acquisition that returns [True] took nothing, or took one set
    that passed the check. *)
Lemma try_sets_true_inv (job : string) (sets : list resource_set) (m m1 : manager) :
  forall b,
  try_sets job sets b m = Ok true m1 ->
  m1 = m \/ exists rs, In rs sets /\ check_set rs m = Ok true m
                       /\ take_set job rs m = Ok tt m1.
Proof.
  induction sets as [|rs sets IH]; intros b H; simpl in H.
  - inversion H. now left.
  - unfold bind in H. pose proof (check_set_state rs m) as Hc.
    destruct (check_set rs m) as [fit m'|e m'] eqn:Ec; simpl in Hc; subst m';
      [|discriminate].
    destruct fit.
    + right. exists rs. split; [now left|]. split; [exact Ec|].
      destruct (take_set job rs m) as [[] m2|e m2]; [|discriminate].
      now inversion H.
    + destruct (IH false H) as [->|(rs' & Hin & Hrest)]; [now left|].
      right. exists rs'. split; [now right | exact Hrest].
Qed.

Lemma held_for_set (r k : string) (l : list (string * Qc))
    (acq : odict (list (string * Qc))) (m : manager) :
  held_for r (set_acquired (od_set k l acq) m)
  = if String.eqb k r then l else default [] (od_get r acq).
Proof.
  unfold held_for. simpl. rewrite od_get_set. now destruct (String.eqb k r).
Qed.

(** One iteration of the outer loop of a release, while an acquisition
    is undone. *)
Lemma release_resource_step (job : string) (rs : resource_set) (m0 m' : manager)
    (k : string) :
  holds_nothing job m0 ->
  (forall r, released_at m0 m' r \/ to_release_at job rs m0 m' r) ->
  exists m'',
    release_resource job k m' = Ok tt m''
    /\ released_at m0 m'' k
    /\ (forall r, released_at m0 m' r -> released_at m0 m'' r)
    /\ (forall r, released_at m0 m'' r \/ to_release_at job rs m0 m'' r)
    /\ same_jobs m' m''.
Proof.
  intros Hfree Hall.
  destruct (Hall k) as [[Hheld Hav]|(a & v & Hreq & Hv & Hheld & Hav)].
  - exists m'. split; [|split; [split; assumption|]].
    + apply release_resource_nothing. rewrite Hheld. apply Hfree.
    + split; [auto|]. split; [exact Hall | apply same_jobs_refl].
  - assert (forall e, In e (held_for k m0) -> e.1 <> job) as Hpre by apply Hfree.
    eexists. split.
    { unfold release_resource. fold (held_for k m'). rewrite Hheld.
      apply (release_scan_last job k (held_for k m0) a (v - a)%Qc); try assumption.
      - lia.
      - rewrite length_app. simpl. lia. }
    assert (Hk : released_at m0
                   (set_acquired (od_set k (held_for k m0) (acquired_resources m'))
                      (set_available
                         (<[k := (v - a + a)%Qc]> (available_resources m')) m')) k).
    { split.
      - rewrite held_for_set. now rewrite String.eqb_refl.
      - simpl. rewrite lookup_insert_eq, Hv. f_equal. ring. }
    assert (Hother : forall r, r <> k ->
              held_for r (set_acquired (od_set k (held_for k m0) (acquired_resources m'))
                            (set_available
                               (<[k := (v - a + a)%Qc]> (available_resources m')) m'))
              = held_for r m'
              /\ available_resources
                   (set_acquired (od_set k (held_for k m0) (acquired_resources m'))
                      (set_available
                         (<[k := (v - a + a)%Qc]> (available_resources m')) m')) !! r
                 = available_resources m' !! r).
    { intros r Hr. split.
      - rewrite held_for_set.
        destruct (String.eqb k r) eqn:E; [apply String.eqb_eq in E; congruence | reflexivity].
      - simpl. now rewrite lookup_insert_ne. }
    split; [exact Hk|]. split; [|split].
    + intros r [Hh Ha]. destruct (decide (r = k)) as [->|Hr]; [exact Hk|].
      destruct (Hother r Hr) as [Eh Ea]. split; congruence.
    + intros r. destruct (decide (r = k)) as [->|Hr]; [left; exact Hk|].
      destruct (Hother r Hr) as [Eh Ea].
      destruct (Hall r) as [[Hh Ha]|(a' & v' & ? & ? & Hh & Ha)].
      * left. split; congruence.
      * right. exists a', v'. repeat split; congruence.
    + now repeat split.
Qed.

Lemma release_loop (job : string) (rs : resource_set) (m0 : manager) (ks : list string) :
  holds_nothing job m0 ->
  forall m',
  (forall r, released_at m0 m' r \/ to_release_at job rs m0 m' r) ->
  exists m2,
    for_each ks (release_resource job) m' = Ok tt m2
    /\ (forall k, In k ks -> released_at m0 m2 k)
    /\ (forall r, released_at m0 m' r -> released_at m0 m2 r)
    /\ (forall r, released_at m0 m2 r \/ to_release_at job rs m0 m2 r)
    /\ same_jobs m' m2.
Proof.
  intros Hfree. induction ks as [|k ks IH]; intros m' Hall; simpl.
  - exists m'. split; [reflexivity|]. split; [intros k []|].
    split; [auto|]. split; [exact Hall | apply same_jobs_refl].
  - destruct (release_resource_step job rs m0 m' k Hfree Hall)
      as (m1 & Hrun & Hk & Hkeep & Hall1 & Hsame1).
    destruct (IH m1 Hall1) as (m2 & Hrun2 & Hks & Hkeep2 & Hall2 & Hsame2).
    exists m2. unfold bind. rewrite Hrun. split; [exact Hrun2|].
    split; [|split; [auto|split; [exact Hall2 | eapply same_jobs_trans; eassumption]]].
    intros k' [<-|Hin]; [now apply Hkeep2 | now apply Hks].
Qed.

Lemma requested_in (r : string) (a : Qc) (rs : resource_set) :
  requested r rs = Some a -> In (r, a) rs.
Proof.
  unfold requested. induction rs as [|[k b] rs IH]; simpl; [discriminate|].
  destruct (String.eqb k r) eqn:E; intros H.
  - apply String.eqb_eq in E. inversion H. subst. now left.
  - right. now apply IH.
Qed.

Lemma od_get_keys {V} (k : string) (v : V) (d : odict V) :
  od_get k d = Some v -> In k (od_keys d).
Proof.
  induction d as [|[k' v'] d IH]; simpl; [discriminate|].
  destruct (String.eqb k' k) eqn:E; intros H.
  - apply String.eqb_eq in E. now left.
  - right. now apply IH.
Qed.

(** After an acquisition that returned [True], every resource is as
    before or carries the entry of the job. *)
Lemma acquired_then (job : string) (m m1 : manager) :
  (forall conf rs, od_get job (jobs_graph m) = Some conf ->
     In rs (default [] (required_resources conf)) -> NoDup rs.*1) ->
  _try_acquire_resources job m = Ok true m1 ->
  exists rs, forall r, released_at m m1 r \/ to_release_at job rs m m1 r.
Proof.
  intros Hnd Hacq.
  unfold _try_acquire_resources, bind, get_job in Hacq.
  destruct (od_get job (jobs_graph m)) as [conf|] eqn:Ejob; [|discriminate].
  destruct (try_sets_true_inv job _ m m1 true Hacq) as [->|(rs & Hin & Hcheck & Htake)].
  - exists []. intros r. left. now split.
  - exists rs. pose proof (check_set_true rs m Hcheck) as Hknown.
    destruct (take_set_effect job rs m Hknown (Hnd conf rs eq_refl Hin))
      as (m1' & Htake' & Hav & Hheld & _).
    rewrite Htake in Htake'. inversion Htake'; subst m1'. clear Htake'.
    intros r. specialize (Hav r). specialize (Hheld r). fold (held_for r m1) in Hheld.
    fold (held_for r m) in Hheld.
    destruct (requested r rs) as [a|] eqn:Ereq.
    + right. destruct (Hknown (r, a) (requested_in r a rs Ereq)) as [v Hv].
      simpl in Hv. exists a, v. rewrite Hv in Hav. now repeat split.
    + left. now split.
Qed.

(** The release undoes what is left to undo. *)
Lemma undo_acquisition (job : string) (rs : resource_set) (m m1 : manager) :
  holds_nothing job m ->
  (forall r, released_at m m1 r \/ to_release_at job rs m m1 r) ->
  exists m2, _release_resources job m1 = Ok tt m2
             /\ same_ledger m m2 /\ same_jobs m1 m2.
Proof.
  intros Hfree Hall. unfold _release_resources.
  destruct (release_loop job rs m (od_keys (acquired_resources m1)) Hfree m1 Hall)
    as (m2 & Hrun & Hks & Hkeep & _ & Hsame2).
  exists m2. split; [exact Hrun|].
  assert (forall r, released_at m m2 r) as Hrel.
  { intros r.
    destruct (Hall r) as [H|(a' & v' & _ & _ & Hheld & _)]; [now apply Hkeep|].
    apply Hks. unfold held_for in Hheld.
    destruct (od_get r (acquired_resources m1)) as [l|] eqn:E;
      [eapply od_get_keys; exact E|].
    simpl in Hheld. now apply app_cons_not_nil in Hheld. }
  split; [|exact Hsame2].
  split.
  - apply map_eq. intros r. apply (Hrel r).
  - intros r. apply (Hrel r).
Qed.

(** X2. An acquisition followed by the release of the same job puts the
    ledger back: the same amounts are available and the same entries are
    recorded as before, and nothing else changed. *)
Theorem acquire_release_round_trip (job : string) (m m1 : manager) :
  holds_nothing job m ->
  (forall conf rs, od_get job (jobs_graph m) = Some conf ->
     In rs (default [] (required_resources conf)) -> NoDup rs.*1) ->
  _try_acquire_resources job m = Ok true m1 ->
  exists m2, _release_resources job m1 = Ok tt m2
             /\ same_ledger m m2 /\ same_jobs m m2.
Proof.
  intros Hfree Hnd Hacq.
  pose proof (try_acquire_same_jobs job m) as Hsame1. rewrite Hacq in Hsame1.
  simpl in Hsame1.
  destruct (acquired_then job m m1 Hnd Hacq) as [rs Hall].
  destruct (undo_acquisition job rs m m1 Hfree Hall) as (m2 & Hrun & Hledger & Hsame2).
  exists m2. split; [exact Hrun|]. split; [exact Hledger|].
  eapply same_jobs_trans; eassumption.
Qed.

Lemma acquire_release_round_trip_witness :
  exists m2,
    _release_resources "Y" (final_state (_try_acquire_resources "Y" filled_manager))
      = Ok tt m2
    /\ same_ledger filled_manager m2 /\ same_jobs filled_manager m2.
Proof.
  apply (acquire_release_round_trip "Y" filled_manager).
  - intros r e Hin. destruct Hin.
  - intros conf rs Hconf Hin. injection Hconf as <-. simpl in Hin.
    destruct Hin as [<-|[]]. apply (bool_decide_unpack _). vm_compute. exact I.
  - vm_compute. reflexivity.
Defined.

(** X3. When submitting a job raises, the resources just acquired for
    it are given back and the job stays pending: the exception leaves the
    ledger as it was before the acquisition. *)
Theorem failed_submission_releases (w : world) (job : string) (conf : pending_job)
    (m m1 m1' : manager) (e : exn) :
  holds_nothing job m ->
  (forall c rs, od_get job (jobs_graph m) = Some c ->
     In rs (default [] (required_resources c)) -> NoDup rs.*1) ->
  od_get job (pending_jobs m) = Some conf ->
  _try_acquire_resources job m = Ok true m1 ->
  run_job w job (p_retries conf) m1 = Exc e m1' ->
  exists m2, start_job w job conf m1 = Exc e m2
             /\ same_ledger m m2
             /\ od_get job (pending_jobs m2) = Some conf
             /\ running_jobs m2 = running_jobs m.
Proof.
  intros Hfree Hnd Hpend Hacq Hrun.
  pose proof (try_acquire_same_jobs job m) as Hsame1. rewrite Hacq in Hsame1.
  simpl in Hsame1.
  destruct (run_job_same_jobs w job (p_retries conf) m1) as (Hsame1' & Hav' & Hacq').
  rewrite Hrun in Hsame1', Hav', Hacq'. simpl in Hsame1', Hav', Hacq'.
  destruct (acquired_then job m m1 Hnd Hacq) as [rs Hall].
  assert (forall r, released_at m m1' r \/ to_release_at job rs m m1' r) as Hall'.
  { intros r. unfold released_at, to_release_at, held_for in *. rewrite Hav', Hacq'.
    apply Hall. }
  destruct (undo_acquisition job rs m m1' Hfree Hall') as (m2 & Hrel & Hledger & Hsame2).
  exists m2. unfold start_job. rewrite Hrun, Hrel.
  split; [reflexivity|]. split; [exact Hledger|].
  destruct Hsame1 as (_ & Hp1 & Hr1 & _), Hsame1' as (_ & Hp1' & Hr1' & _),
    Hsame2 as (_ & Hp2 & Hr2 & _).
  split; congruence.
Qed.

Lemma failed_submission_releases_witness :
  exists m2,
    start_job raising_backend "Y" (PendingJob ∅ 0 [] None None)
      (final_state (_try_acquire_resources "Y" filled_pending_manager))
      = Exc BackendError m2
    /\ same_ledger filled_pending_manager m2
    /\ od_get "Y" (pending_jobs m2) = Some (PendingJob ∅ 0 [] None None)
    /\ running_jobs m2 = running_jobs filled_pending_manager.
Proof.
  eapply (failed_submission_releases raising_backend "Y" _ filled_pending_manager).
  - intros r e Hin. destruct Hin.
  - intros conf rs Hconf Hin. injection Hconf as <-. simpl in Hin.
    destruct Hin as [<-|[]]. apply (bool_decide_unpack _). vm_compute. exact I.
  - reflexivity.
  - vm_compute. reflexivity.
  - vm_compute. reflexivity.
Defined.

(* ================================================================== *)
(** * The ledger never overcommits *)
(* ================================================================== *)

Lemma fill_resource_nonneg (av : gmap string Qc) (ra : string * Qc) :
  (forall r v, av !! r = Some v -> (Q2Qc 0 <= v)%Qc) ->
  forall r v, fill_resource av ra !! r = Some v -> (Q2Qc 0 <= v)%Qc.
Proof.
  intros Hav r v. unfold fill_resource.
  destruct (Qc_ltb (default (Q2Qc 0) (av !! ra.1)) ra.2) eqn:E; [|apply Hav].
  destruct (decide (ra.1 = r)) as [<-|Hne].
  - rewrite lookup_insert_eq. intros H; inversion H; subst v.
    apply Qc_ltb_lt in E. apply Qclt_le_weak.
    eapply Qcle_lt_trans; [|exact E].
    destruct (av !! ra.1) as [v0|] eqn:E0; simpl; [now apply (Hav ra.1) | apply Qcle_refl].
  - rewrite lookup_insert_ne by assumption. apply Hav.
Qed.

Lemma fill_graph_nonneg (g : odict jobconf) :
  forall av,
  (forall r v, av !! r = Some v -> (Q2Qc 0 <= v)%Qc) ->
  forall r v, fill_graph av g !! r = Some v -> (Q2Qc 0 <= v)%Qc.
Proof.
  unfold fill_graph. induction (od_values g) as [|c cs IH]; intros av Hav; simpl;
    [exact Hav|].
  apply IH. unfold fill_job.
  generalize dependent av.
  induction (default [] (required_resources c)) as [|rs sets IHs]; intros av Hav; simpl;
    [exact Hav|].
  apply IHs. unfold fill_set.
  generalize dependent av.
  induction rs as [|ra rs IHr]; intros av Hav; simpl; [exact Hav|].
  apply IHr. now apply fill_resource_nonneg.
Qed.

Lemma reachable_graph (g : odict jobconf) (m : manager) :
  ledger_reachable g m -> jobs_graph m = g.
Proof.
  induction 1 as [m0 Hg _ _|m job _ IH|m job _ IH].
  - exact Hg.
  - destruct (try_acquire_same_jobs job m) as (-> & _). exact IH.
  - destruct (release_same_jobs job m) as (-> & _). exact IH.
Qed.

Lemma od_get_values {V} (k : string) (v : V) (d : odict V) :
  od_get k d = Some v -> In v (od_values d).
Proof.
  induction d as [|[k' v'] d IH]; simpl; [discriminate|].
  destruct (String.eqb k' k); intros H.
  - inversion H. now left.
  - right. now apply IH.
Qed.

Lemma amount_in_graph (g : odict jobconf) (job : string) (conf : jobconf)
    (rs : resource_set) (r : string) (a : Qc) :
  od_get job g = Some conf ->
  In rs (default [] (required_resources conf)) ->
  In (r, a) rs ->
  In a (graph_amounts r g).
Proof.
  intros Hjob Hrs Hra. unfold graph_amounts, job_amounts, set_amounts.
  apply in_flat_map. exists conf. split; [eapply od_get_values; exact Hjob|].
  apply in_flat_map. exists rs. split; [exact Hrs|].
  apply in_map_iff. exists (r, a). split; [reflexivity|].
  apply filter_In. split; [exact Hra | apply String.eqb_refl].
Qed.

Lemma check_set_true_fits (rs : resource_set) (m : manager) :
  check_set rs m = Ok true m -> fits m rs = true.
Proof.
  induction rs as [|[res_name res_amount] rs IH]; simpl; intros H; [reflexivity|].
  destruct (available_resources m !! res_name) as [v|]; [|discriminate].
  destruct (Qc_ltb v res_amount); [discriminate|]. simpl. now apply IH.
Qed.

Lemma ledger_nonneg_take (job : string) (rs : resource_set) (m m1 : manager) :
  ledger_nonneg m ->
  fits m rs = true ->
  (forall ra, In ra rs -> (Q2Qc 0 <= ra.2)%Qc) ->
  after_take job rs m m1 ->
  ledger_nonneg m1.
Proof.
  intros [Hav Hheld] Hfit Hpos (Hav1 & Hheld1 & _). split.
  - intros r v Hv. rewrite Hav1 in Hv.
    destruct (requested r rs) as [a|] eqn:Ereq; [|now apply (Hav r)].
    destruct (available_resources m !! r) as [v0|] eqn:E0; [|discriminate].
    simpl in Hv. inversion Hv; subst v.
    unfold fits in Hfit. rewrite forallb_forall in Hfit.
    specialize (Hfit (r, a) (requested_in r a rs Ereq)). simpl in Hfit.
    rewrite E0 in Hfit. apply negb_true_iff in Hfit.
    assert (a <= v0)%Qc as Hle.
    { apply Qcnot_lt_le. intros Hlt. apply Qc_ltb_lt in Hlt. congruence. }
    apply -> Qcle_minus_iff. exact Hle.
  - intros r e Hin. unfold held_for in Hin. rewrite Hheld1 in Hin.
    destruct (requested r rs) as [a|] eqn:Ereq; [|now apply (Hheld r)].
    apply in_app_or in Hin as [Hin|[<-|[]]]; [now apply (Hheld r)|].
    apply (Hpos (r, a)). now apply requested_in.
Qed.

Lemma ledger_nonneg_acquire (g : odict jobconf) (job : string) (m : manager) :
  nonneg_amounts g -> sets_well_keyed g -> jobs_graph m = g ->
  ledger_nonneg m ->
  ledger_nonneg (final_state (_try_acquire_resources job m)).
Proof.
  intros Hnn Hwk Hg Hm. unfold _try_acquire_resources, bind, get_job.
  destruct (od_get job (jobs_graph m)) as [conf|] eqn:Ejob; [|exact Hm].
  rewrite Hg in Ejob.
  assert (forall rs, In rs (default [] (required_resources conf)) ->
                     In rs (default [] (required_resources conf))) as Hsub by auto.
  revert Hsub. generalize true as b.
  generalize (default [] (required_resources conf)) at 1 3 as sets.
  induction sets as [|rs sets IH]; intros b Hsub; simpl; [exact Hm|].
  unfold bind. pose proof (check_set_state rs m) as Hc.
  destruct (check_set rs m) as [fit m1|e m1] eqn:Ec; simpl in Hc; subst m1; [|exact Hm].
  destruct fit.
  - destruct (take_set_effect job rs m (check_set_true rs m Ec))
      as (m1 & -> & Heff).
    { apply (Hwk job conf rs Ejob). apply Hsub. now left. }
    simpl. apply (ledger_nonneg_take job rs m m1 Hm (check_set_true_fits rs m Ec)); [|exact Heff].
    intros [r a] Hin. apply (Hnn r).
    apply (amount_in_graph g job conf rs r a Ejob); [|exact Hin].
    apply Hsub. now left.
  - apply IH. intros rs' Hin. apply Hsub. now right.
Qed.

Lemma py_remove_subset {A} `{EqDecision A} (x : A) (l l' : list A) :
  py_remove x l = Some l' -> forall y, In y l' -> In y l.
Proof.
  revert l'. induction l as [|z l IH]; simpl; intros l' H y Hy; [discriminate|].
  destruct (decide (z = x)).
  - inversion H; subst. now right.
  - destruct (py_remove x l) as [r|]; [|discriminate].
    inversion H; subst. destruct Hy as [<-|Hy]; [now left | right; now apply (IH r)].
Qed.

Lemma ledger_nonneg_release_scan (job res_name : string) (fuel : nat) :
  forall i m,
  ledger_nonneg m ->
  ledger_nonneg (final_state (release_scan job res_name fuel i m)).
Proof.
  induction fuel as [|fuel IH]; intros i m Hm; [exact Hm|].
  rewrite release_scan_S. fold (held_for res_name m).
  destruct (held_for res_name m !! i) as [[rjob res_amount]|] eqn:Ei; [|exact Hm].
  destruct (String.eqb rjob job); [|now apply IH].
  destruct (available_resources m !! res_name) as [v|] eqn:Ev; [|exact Hm].
  destruct Hm as [Hav Hheld].
  assert (Q2Qc 0 <= res_amount)%Qc as Hamt.
  { apply (Hheld res_name (rjob, res_amount)). apply list_elem_of_In.
    eapply list_elem_of_lookup_2. exact Ei. }
  assert (forall r v', <[res_name := (v + res_amount)%Qc]> (available_resources m) !! r
                       = Some v' -> (Q2Qc 0 <= v')%Qc) as Hav'.
  { intros r v'. destruct (decide (res_name = r)) as [<-|Hne].
    - rewrite lookup_insert_eq. intros H; inversion H.
      replace (Q2Qc 0) with (Q2Qc 0 + Q2Qc 0)%Qc by ring.
      apply Qcplus_le_compat; [now apply (Hav res_name) | exact Hamt].
    - rewrite lookup_insert_ne by assumption. apply Hav. }
  destruct (py_remove (rjob, res_amount) (held_for res_name m)) as [held'|] eqn:Er.
  - apply IH. split; [exact Hav'|].
    intros r e. rewrite held_for_set.
    destruct (String.eqb res_name r) eqn:E.
    + apply String.eqb_eq in E. subst r. intros Hin. apply (Hheld res_name).
      eapply py_remove_subset; eassumption.
    + apply (Hheld r).
  - simpl. split; [exact Hav' | exact Hheld].
Qed.

Lemma ledger_nonneg_release (job : string) (m : manager) :
  ledger_nonneg m -> ledger_nonneg (final_state (_release_resources job m)).
Proof.
  unfold _release_resources. apply for_each_final_inv.
  intros res_name m'. unfold release_resource. apply ledger_nonneg_release_scan.
Qed.

Lemma amounts_sum_nonneg (l : list (string * Qc)) :
  (forall e, In e l -> (Q2Qc 0 <= e.2)%Qc) -> (Q2Qc 0 <= amounts_sum l)%Qc.
Proof.
  induction l as [|e l IH]; intros H; simpl; [apply Qcle_refl|].
  replace (Q2Qc 0) with (Q2Qc 0 + Q2Qc 0)%Qc by ring.
  apply Qcplus_le_compat; [apply H; now left | apply IH; intros; apply H; now right].
Qed.

Lemma reachable_nonneg (g : odict jobconf) (m : manager) :
  nonneg_amounts g -> sets_well_keyed g ->
  ledger_reachable g m -> ledger_nonneg m.
Proof.
  intros Hnn Hwk Hreach.
  induction Hreach as [m0 Hg Hav Hacq|m job Hreach IH|m job Hreach IH].
  - split.
    + simpl. rewrite Hav. apply fill_graph_nonneg. intros r v. now rewrite lookup_empty.
    + intros r e. unfold held_for. simpl. rewrite Hacq. simpl. intros [].
  - apply (ledger_nonneg_acquire g); auto. now apply reachable_graph.
  - now apply ledger_nonneg_release.
Qed.

Lemma reachable_total (g : odict jobconf) (m : manager) (r : string) (c : Qc) :
  nonneg_amounts g ->
  ledger_reachable g m ->
  initial_capacity r g = Some c ->
  ledger_total r m = c.
Proof.
  intros Hnn Hreach Hc.
  induction Hreach as [m0 Hg Hav Hacq|m job _ IH|m job _ IH].
  - unfold ledger_total, available_amount, acquired_sum. simpl.
    rewrite Hg, Hav, Hacq. simpl.
    rewrite (fill_initial_capacity g r c Hnn Hc). ring.
  - now rewrite try_acquire_total.
  - now rewrite release_total.
Qed.

(** X4. In every state reached from [_fill_available_resources] by
    acquisitions and releases, what is available of a resource and what is
    recorded as acquired both lie between zero and the initial capacity:
    the ledger never hands out more than there is. *)
Theorem ledger_bounds (g : odict jobconf) (m : manager) (r : string) (c : Qc) :
  nonneg_amounts g ->
  sets_well_keyed g ->
  ledger_reachable g m ->
  initial_capacity r g = Some c ->
  (Q2Qc 0 <= available_amount r m)%Qc /\ (available_amount r m <= c)%Qc
  /\ (Q2Qc 0 <= acquired_sum r m)%Qc /\ (acquired_sum r m <= c)%Qc.
Proof.
  intros Hnn Hwk Hreach Hc.
  destruct (reachable_nonneg g m Hnn Hwk Hreach) as [Hav Hheld].
  pose proof (reachable_total g m r c Hnn Hreach Hc) as Htot.
  unfold ledger_total in Htot.
  assert (Q2Qc 0 <= available_amount r m)%Qc as H1.
  { unfold available_amount. destruct (available_resources m !! r) as [v|] eqn:E; simpl;
      [now apply (Hav r) | apply Qcle_refl]. }
  assert (Q2Qc 0 <= acquired_sum r m)%Qc as H2.
  { apply amounts_sum_nonneg. apply (Hheld r). }
  split; [exact H1|]. split; [|split; [exact H2|]].
  - rewrite <- Htot.
    replace (available_amount r m) with (available_amount r m + Q2Qc 0)%Qc at 1 by ring.
    apply Qcplus_le_compat; [apply Qcle_refl | exact H2].
  - rewrite <- Htot.
    replace (acquired_sum r m) with (Q2Qc 0 + acquired_sum r m)%Qc at 1 by ring.
    apply Qcplus_le_compat; [exact H1 | apply Qcle_refl].
Qed.

Lemma sets_well_keyedb_sound (g : odict jobconf) :
  sets_well_keyedb g = true -> sets_well_keyed g.
Proof.
  unfold sets_well_keyedb, sets_well_keyed. intros H job conf rs Hjob Hrs.
  rewrite forallb_forall in H. specialize (H conf (od_get_values _ _ _ Hjob)).
  rewrite forallb_forall in H. specialize (H rs Hrs).
  now apply bool_decide_eq_true_1 in H.
Qed.

Lemma ledger_bounds_witness :
  let m0 := new_manager two_cpu_jobs None None false in
  let m1 := final_state (_fill_available_resources m0) in
  let m2 := final_state (_try_acquire_resources "X" m1) in
  let m3 := final_state (_try_acquire_resources "Y" m2) in
  (Q2Qc 0 <= available_amount "cpu" m3)%Qc /\ (available_amount "cpu" m3 <= Q2Qc 2)%Qc
  /\ (Q2Qc 0 <= acquired_sum "cpu" m3)%Qc /\ (acquired_sum "cpu" m3 <= Q2Qc 2)%Qc.
Proof.
  intros m0 m1 m2 m3.
  apply (ledger_bounds two_cpu_jobs m3 "cpu" (Q2Qc 2)).
  - apply nonneg_amountsb_sound. vm_compute. reflexivity.
  - apply sets_well_keyedb_sound. vm_compute. reflexivity.
  - unfold m3, m2, m1. apply reach_acquire, reach_acquire, reach_start; reflexivity.
  - vm_compute. reflexivity.
Defined.

(* ================================================================== *)
(** * What the initial ledger allows *)
(* ================================================================== *)

Lemma Qc_max_le_l (x y : Qc) : (x <= Qc_max x y)%Qc.
Proof.
  unfold Qc_max. destruct (Qc_ltb x y) eqn:E; [|apply Qcle_refl].
  apply Qc_ltb_lt in E. now apply Qclt_le_weak.
Qed.

Lemma Qc_max_le_r (x y : Qc) : (y <= Qc_max x y)%Qc.
Proof.
  unfold Qc_max. destruct (Qc_ltb x y) eqn:E; [apply Qcle_refl|].
  apply Qcnot_lt_le. intros Hlt. apply Qc_ltb_lt in Hlt. congruence.
Qed.

Lemma fold_max_ge_init (l : list Qc) : forall init, (init <= fold_left Qc_max l init)%Qc.
Proof.
  induction l as [|x l IH]; intros init; simpl; [apply Qcle_refl|].
  eapply Qcle_trans; [apply (Qc_max_le_l init x) | apply IH].
Qed.

Lemma fold_max_ge (l : list Qc) (a : Qc) :
  In a l -> forall init, (a <= fold_left Qc_max l init)%Qc.
Proof.
  induction l as [|x l IH]; intros Hin init; simpl; [destruct Hin|].
  destruct Hin as [->|Hin]; [|now apply IH].
  eapply Qcle_trans; [apply (Qc_max_le_r init a) | apply fold_max_ge_init].
Qed.

(** The filled ledger has at least every positive amount the graph
    asks for. *)
Lemma filled_covers (g : odict jobconf) (r : string) (a : Qc) :
  In a (graph_amounts r g) -> (Q2Qc 0 < a)%Qc ->
  exists v, fill_graph ∅ g !! r = Some v /\ (a <= v)%Qc.
Proof.
  intros Hin Hpos.
  pose proof (fill_graph_amount g r ∅) as Hfill.
  pose proof (fold_max_ge _ a Hin (default (Q2Qc 0) ((∅ : gmap string Qc) !! r))) as Hge.
  rewrite <- Hfill in Hge.
  destruct (fill_graph ∅ g !! r) as [v|]; [eauto|].
  simpl in Hge. exfalso. apply (Qclt_not_le _ _ Hpos Hge).
Qed.

(** X5. After [_fill_available_resources], every resource set with
    positive amounts of every job fits, and the first acquisition of any
    such job succeeds: each job can run on the initial ledger. *)
Theorem filled_ledger_runs_every_job (m0 : manager) (job : string) (conf : jobconf) :
  available_resources m0 = ∅ ->
  od_get job (jobs_graph m0) = Some conf ->
  (forall rs ra, In rs (default [] (required_resources conf)) -> In ra rs ->
                 (Q2Qc 0 < ra.2)%Qc) ->
  (forall rs, In rs (default [] (required_resources conf)) -> NoDup rs.*1) ->
  let m := final_state (_fill_available_resources m0) in
  (forall rs, In rs (default [] (required_resources conf)) -> fits m rs = true)
  /\ exists m', _try_acquire_resources job m = Ok true m'.
Proof.
  intros Hav Hjob Hpos Hnd m.
  assert (Hcov : forall rs ra, In rs (default [] (required_resources conf)) -> In ra rs ->
                   exists v, available_resources m !! ra.1 = Some v /\ (ra.2 <= v)%Qc).
  { intros rs [r a] Hrs Hra. unfold m. simpl. rewrite Hav.
    apply filled_covers; [|now apply (Hpos rs (r, a))].
    now apply (amount_in_graph (jobs_graph m0) job conf rs r a). }
  assert (Hfits : forall rs, In rs (default [] (required_resources conf)) -> fits m rs = true).
  { intros rs Hrs. unfold fits. apply forallb_forall. intros ra Hra.
    destruct (Hcov rs ra Hrs Hra) as (v & -> & Hle).
    apply negb_true_iff. destruct (Qc_ltb v ra.2) eqn:E; [|reflexivity].
    apply Qc_ltb_lt in E. exfalso. apply (Qclt_not_le _ _ E Hle). }
  split; [exact Hfits|].
  assert (Hknown : resources_known m (default [] (required_resources conf))).
  { intros rs ra Hrs Hra. destruct (Hcov rs ra Hrs Hra) as (v & -> & _). eauto. }
  pose proof (try_sets_first_fit job _ m Hknown Hnd true) as H.
  unfold _try_acquire_resources, bind, get_job.
  change (jobs_graph m) with (jobs_graph m0). rewrite Hjob.
  destruct (default [] (required_resources conf)) as [|rs sets] eqn:Esets.
  - exists m. exact H.
  - simpl in H. rewrite (Hfits rs (or_introl eq_refl)) in H.
    destruct H as (m' & H & _). eauto.
Qed.

Lemma filled_ledger_runs_every_job_witness :
  let m := final_state (_fill_available_resources (new_manager two_cpu_jobs None None false)) in
  (forall rs, In rs [[("cpu", Q2Qc 2); ("mem", Q2Qc 1)]] -> fits m rs = true)
  /\ exists m', _try_acquire_resources "Y" m = Ok true m'.
Proof.
  apply (filled_ledger_runs_every_job (new_manager two_cpu_jobs None None false) "Y" _
           eq_refl eq_refl).
  - intros rs ra [<-|[]] [<-|[<-|[]]]; reflexivity.
  - intros rs [<-|[]]. apply (bool_decide_unpack _). vm_compute. exact I.
Defined.

Lemma fill_graph_absent (g : odict jobconf) (r : string) :
  (forall a, In a (graph_amounts r g) -> (a <= Q2Qc 0)%Qc) ->
  forall av, av !! r = None -> fill_graph av g !! r = None.
Proof.
  unfold fill_graph, graph_amounts.
  induction (od_values g) as [|c cs IH]; intros Hle av Hav; simpl; [exact Hav|].
  apply IH; [intros a Hin; apply Hle; simpl; apply in_or_app; now right|].
  assert (Hc : forall a, In a (job_amounts r c) -> (a <= Q2Qc 0)%Qc).
  { intros a Hin. apply Hle. simpl. apply in_or_app. now left. }
  clear Hle IH. unfold fill_job, job_amounts in *.
  generalize dependent av.
  induction (default [] (required_resources c)) as [|rs sets IHs]; intros av Hav; simpl;
    [exact Hav|].
  apply IHs; [intros a Hin; apply Hc; simpl; apply in_or_app; now right|].
  assert (Hrs : forall a, In a (set_amounts r rs) -> (a <= Q2Qc 0)%Qc).
  { intros a Hin. apply Hc. simpl. apply in_or_app. now left. }
  clear Hc IHs. unfold fill_set, set_amounts in *.
  generalize dependent av.
  induction rs as [|[k a] rs IHr]; intros av Hav; simpl; [exact Hav|].
  apply IHr.
  - intros x Hin. apply Hrs. simpl. destruct (String.eqb k r); [now right | exact Hin].
  - unfold fill_resource. simpl.
    destruct (Qc_ltb (default (Q2Qc 0) (av !! k)) a) eqn:E; [|exact Hav].
    destruct (decide (k = r)) as [->|Hne]; [|now rewrite lookup_insert_ne].
    exfalso. rewrite Hav in E. simpl in E. apply Qc_ltb_lt in E.
    apply (Qclt_not_le _ _ E). apply Hrs. simpl. rewrite String.eqb_refl. now left.
Qed.

(** X6. A resource of which no resource set asks a positive amount gets
    no entry from [_fill_available_resources], and the acquisition of a
    job whose first set names it first raises [KeyError], leaving the
    manager as it was. *)
Theorem unfilled_resource_raises (m0 : manager) (job : string) (conf : jobconf)
    (r : string) (a : Qc) (rs : resource_set) (rest : list resource_set) :
  available_resources m0 = ∅ ->
  od_get job (jobs_graph m0) = Some conf ->
  required_resources conf = Some (((r, a) :: rs) :: rest) ->
  (forall x, In x (graph_amounts r (jobs_graph m0)) -> (x <= Q2Qc 0)%Qc) ->
  let m := final_state (_fill_available_resources m0) in
  available_resources m !! r = None
  /\ _try_acquire_resources job m = Exc (KeyError r) m.
Proof.
  intros Hav Hjob Hsets Hle m.
  assert (Hnone : available_resources m !! r = None).
  { unfold m. simpl. apply fill_graph_absent; [exact Hle|]. now rewrite Hav. }
  split; [exact Hnone|].
  unfold _try_acquire_resources, bind, get_job.
  change (jobs_graph m) with (jobs_graph m0). rewrite Hjob, Hsets. simpl.
  unfold bind. now rewrite Hnone.
Qed.

Lemma unfilled_resource_raises_witness :
  let m := final_state (_fill_available_resources
                          (new_manager zero_amount_graph None None false)) in
  available_resources m !! "gpu" = None
  /\ _try_acquire_resources "Z" m = Exc (KeyError "gpu") m.
Proof.
  apply (unfilled_resource_raises (new_manager zero_amount_graph None None false) "Z" _
           "gpu" (Q2Qc 0) [("cpu", Q2Qc 1)] [] eq_refl eq_refl eq_refl).
  intros x [<-|[]]. apply Qcle_refl.
Defined.

(* ================================================================== *)
(** * The admission passes, one iteration at a time *)
(* ================================================================== *)

Lemma pass_a_step (w : world) (job : string) (rest : list string) (m : manager) :
  pass_a w (job :: rest) m =
  if at_capacity m then Ok tt m
  else match od_get job (pending_jobs m) with
       | None => Exc (KeyError job) m
       | Some conf =>
           match can_run_a w job conf m with
           | Exc e m1 => Exc e m1
           | Ok true m1 =>
               match start_job w job conf m1 with
               | Ok _ m2 => pass_a w rest m2
               | Exc e m2 => Exc e m2
               end
           | Ok false m1 => pass_a w rest m1
           end
       end.
Proof.
  simpl. unfold bind at 1. unfold get at 1.
  destruct (at_capacity m); [reflexivity|].
  unfold bind at 1. unfold pending_conf at 1.
  destruct (od_get job (pending_jobs m)) as [conf|]; [|reflexivity].
  unfold bind at 1. destruct (can_run_a w job conf m) as [[] m1|e m1]; [| |reflexivity].
  - unfold bind. now destruct (start_job w job conf m1) as [[] m2|e m2].
  - reflexivity.
Qed.

Lemma pass_b_step (w : world) (job : string) (rest : list string)
    (origin_job : option string) (m : manager) :
  pass_b w (job :: rest) origin_job m =
  if at_capacity m then Ok tt m
  else match od_get job (pending_jobs m) with
       | None => Exc (KeyError job) m
       | Some conf =>
           match can_run_b job conf origin_job m with
           | Exc e m1 => Exc e m1
           | Ok can m1 =>
               match (if can then start_job w job conf m1 else Ok tt m1) with
               | Exc e m2 => Exc e m2
               | Ok _ m2 =>
                   if negb (truthy (p_origin conf)) && negb (is_empty (running_jobs m2))
                   then Ok tt m2
                   else pass_b w rest (p_origin conf) m2
               end
           end
       end.
Proof.
  simpl. unfold bind at 1. unfold get at 1.
  destruct (at_capacity m); [reflexivity|].
  unfold bind at 1. unfold pending_conf at 1.
  destruct (od_get job (pending_jobs m)) as [conf|]; [|reflexivity].
  unfold bind at 1. destruct (can_run_b job conf origin_job m) as [can m1|e m1];
    [|reflexivity].
  unfold bind at 1.
  destruct can.
  - destruct (start_job w job conf m1) as [[] m2|e m2]; [|reflexivity].
    unfold bind, get. now destruct (negb (truthy (p_origin conf)) && _).
  - unfold ret at 1. unfold bind, get.
    now destruct (negb (truthy (p_origin conf)) && _).
Qed.

Lemma can_run_a_same_jobs (w : world) (job : string) (conf : pending_job) (m : manager) :
  same_jobs m (final_state (can_run_a w job conf m)).
Proof.
  unfold can_run_a.
  destruct (bool_decide (p_wait_for conf = ∅)); [|apply same_jobs_refl].
  unfold bind. pose proof (must_wait_same_jobs w job m) as H1.
  destruct (_must_wait_time w job m) as [[] m1|e m1]; simpl in H1; try exact H1.
  eapply same_jobs_trans; [exact H1 | apply try_acquire_same_jobs].
Qed.

Lemma can_run_b_same_jobs (job : string) (conf : pending_job) (o : option string)
    (m : manager) :
  same_jobs m (final_state (can_run_b job conf o m)).
Proof.
  unfold can_run_b, bind, get.
  destruct (forallb _ _); [|apply same_jobs_refl].
  destruct (negb (truthy o) || _); [apply try_acquire_same_jobs | apply same_jobs_refl].
Qed.

(** Starting a job either moves it from the pending to the running
    map, or raises and leaves both maps alone. *)
Lemma start_job_cases (w : world) (job : string) (conf : pending_job) (m : manager) :
  (exists jobid m1,
     start_job w job conf m
     = Ok tt (set_running_jobs (od_set job jobid (running_jobs m1))
                (set_pending_jobs (od_del job (pending_jobs m1)) m1))
     /\ same_jobs m m1)
  \/ (exists e m2, start_job w job conf m = Exc e m2 /\ same_jobs m m2).
Proof.
  unfold start_job.
  destruct (run_job_same_jobs w job (p_retries conf) m) as [Hsame _].
  destruct (run_job w job (p_retries conf) m) as [jobid m1|e m1]; simpl in Hsame.
  - destruct (od_get job (pending_jobs m1)).
    + left. exists jobid, m1. split; [reflexivity | exact Hsame].
    + right. exists (KeyError job), m1. split; [reflexivity | exact Hsame].
  - right. pose proof (release_same_jobs job m1) as Hrel.
    destruct (_release_resources job m1) as [[] m2|e' m2]; simpl in Hrel;
      eexists _, m2; (split; [reflexivity | eapply same_jobs_trans; eassumption]).
Qed.

(* ================================================================== *)
(** * The cap on running jobs *)
(* ================================================================== *)

Lemma od_set_length {V} (k : string) (v : V) (d : odict V) :
  length (od_set k v d) <= S (length d).
Proof.
  induction d as [|[k' v'] d IH]; simpl; [lia|].
  destruct (String.eqb k' k); simpl; lia.
Qed.

Lemma within_cap_same_jobs (k : nat) (m m' : manager) :
  same_jobs m m' -> within_cap k m -> within_cap k m'.
Proof.
  intros (_ & _ & Hr & _ & _ & Hmax & _) [H1 H2]. split; congruence.
Qed.

Lemma at_capacity_same_jobs (m m' : manager) :
  same_jobs m m' -> at_capacity m' = at_capacity m.
Proof.
  intros (_ & _ & Hr & _ & _ & Hmax & _). unfold at_capacity. now rewrite Hr, Hmax.
Qed.

Lemma start_job_within_cap (w : world) (k : nat) (job : string) (conf : pending_job)
    (m : manager) :
  within_cap k m -> at_capacity m = false ->
  within_cap k (final_state (start_job w job conf m)).
Proof.
  intros Hcap Hfree.
  destruct (start_job_cases w job conf m) as [(jobid & m1 & -> & Hsame)|(e & m2 & -> & Hsame)].
  - destruct (within_cap_same_jobs k m m1 Hsame Hcap) as [Hmax Hlen].
    rewrite <- (at_capacity_same_jobs m m1 Hsame) in Hfree.
    unfold at_capacity in Hfree. rewrite Hmax in Hfree.
    apply Nat.leb_gt in Hfree.
    split; [exact Hmax|]. simpl.
    pose proof (od_set_length job jobid (running_jobs m1)). lia.
  - simpl. eapply within_cap_same_jobs; eassumption.
Qed.

Lemma pass_a_within_cap (w : world) (k : nat) (jobs : list string) :
  forall m, within_cap k m -> within_cap k (final_state (pass_a w jobs m)).
Proof.
  induction jobs as [|job rest IH]; intros m Hcap; [exact Hcap|].
  rewrite pass_a_step.
  destruct (at_capacity m) eqn:Hfree; [exact Hcap|].
  destruct (od_get job (pending_jobs m)) as [conf|]; [|exact Hcap].
  pose proof (can_run_a_same_jobs w job conf m) as Hsame.
  destruct (can_run_a w job conf m) as [[] m1|e m1]; simpl in Hsame.
  - pose proof (start_job_within_cap w k job conf m1
                  (within_cap_same_jobs k m m1 Hsame Hcap)) as Hstart.
    rewrite (at_capacity_same_jobs m m1 Hsame) in Hstart. specialize (Hstart Hfree).
    destruct (start_job w job conf m1) as [[] m2|e m2]; simpl in Hstart;
      [now apply IH | exact Hstart].
  - apply IH. eapply within_cap_same_jobs; eassumption.
  - simpl. eapply within_cap_same_jobs; eassumption.
Qed.

Lemma pass_b_within_cap (w : world) (k : nat) (jobs : list string) :
  forall o m, within_cap k m -> within_cap k (final_state (pass_b w jobs o m)).
Proof.
  induction jobs as [|job rest IH]; intros o m Hcap; [exact Hcap|].
  rewrite pass_b_step.
  destruct (at_capacity m) eqn:Hfree; [exact Hcap|].
  destruct (od_get job (pending_jobs m)) as [conf|]; [|exact Hcap].
  pose proof (can_run_b_same_jobs job conf o m) as Hsame.
  destruct (can_run_b job conf o m) as [can m1|e m1]; simpl in Hsame;
    [|eapply within_cap_same_jobs; eassumption].
  assert (within_cap k (final_state (if can then start_job w job conf m1 else Ok tt m1)))
    as Hnext.
  { destruct can; [|simpl; eapply within_cap_same_jobs; eassumption].
    apply start_job_within_cap; [eapply within_cap_same_jobs; eassumption|].
    now rewrite (at_capacity_same_jobs m m1 Hsame). }
  destruct (if can then start_job w job conf m1 else Ok tt m1) as [[] m2|e m2];
    simpl in Hnext; [|exact Hnext].
  destruct (negb (truthy (p_origin conf)) && negb (is_empty (running_jobs m2)));
    [exact Hnext | now apply IH].
Qed.

(** X7. With [max_running_jobs] set, [run_pending_jobs] never lets the
    running map grow beyond it, however the call ends. *)
Theorem running_jobs_capped (w : world) (k : nat) (m : manager) :
  max_running_jobs m = Some (S k) ->
  length (running_jobs m) <= S k ->
  length (running_jobs (final_state (run_pending_jobs w m))) <= S k.
Proof.
  intros Hmax Hlen.
  assert (within_cap k (final_state (run_pending_jobs w m))) as [_ H]; [|exact H].
  unfold run_pending_jobs, bind at 1. unfold get at 1.
  unfold bind at 1.
  pose proof (pass_a_within_cap w k (sorted (od_keys (pending_jobs m))) m
                (conj Hmax Hlen)) as Ha.
  destruct (pass_a w (sorted (od_keys (pending_jobs m))) m) as [[] m1|e m1];
    simpl in Ha; [|exact Ha].
  unfold bind at 1. unfold get at 1.
  destruct (enters_pass_b m1); [|exact Ha].
  unfold second_pass, bind at 1. unfold get at 1. unfold bind at 1.
  pose proof (pass_b_within_cap w k (sorted (od_keys (pending_jobs m1))) None m1 Ha) as Hb.
  destruct (pass_b w (sorted (od_keys (pending_jobs m1))) None m1) as [[] m2|e m2];
    simpl in Hb; [|exact Hb].
  unfold bind, get. now destruct (is_empty (running_jobs m2)).
Qed.

Lemma running_jobs_capped_witness :
  length (running_jobs (final_state (run_pending_jobs idle_backend capped_manager))) <= 1.
Proof.
  apply (running_jobs_capped idle_backend 0 capped_manager).
  - reflexivity.
  - simpl. lia.
Defined.

(* ================================================================== *)
(** * Which jobs the passes start *)
(* ================================================================== *)

(** X8. The first pass never starts a job that has outstanding
    dependencies: such a job is still pending after the pass, with the
    same record, and its entry in the running map is untouched. *)
Theorem first_pass_keeps_dependent_jobs (w : world) (job : string) (conf : pending_job)
    (jobs : list string) :
  p_wait_for conf <> ∅ ->
  forall m,
  od_get job (pending_jobs m) = Some conf ->
  od_get job (pending_jobs (final_state (pass_a w jobs m))) = Some conf
  /\ od_get job (running_jobs (final_state (pass_a w jobs m))) = od_get job (running_jobs m).
Proof.
  intros Hdeps. induction jobs as [|job' rest IH]; intros m Hp; [now split|].
  rewrite pass_a_step.
  destruct (at_capacity m); [now split|].
  destruct (od_get job' (pending_jobs m)) as [conf'|] eqn:Ep'; [|now split].
  destruct (String.eqb job' job) eqn:E.
  - apply String.eqb_eq in E. subst job'. rewrite Hp in Ep'. inversion Ep'; subst conf'.
    unfold can_run_a. rewrite bool_decide_eq_false_2 by exact Hdeps.
    unfold ret. now apply IH.
  - apply String.eqb_neq in E.
    pose proof (can_run_a_same_jobs w job' conf' m) as (_ & Hp1 & Hr1 & _).
    destruct (can_run_a w job' conf' m) as [[] m1|e m1]; simpl in Hp1, Hr1.
    + destruct (start_job_cases w job' conf' m1)
        as [(jobid & m2 & -> & (_ & Hp2 & Hr2 & _))|(e & m2 & -> & (_ & Hp2 & Hr2 & _))].
      * match goal with |- context [pass_a w rest ?m3] => destruct (IH m3) as [H1 H2] end.
        { simpl. rewrite od_get_del_ne by exact E. congruence. }
        split; [exact H1|]. rewrite H2. simpl.
        rewrite od_get_set_ne by exact E. congruence.
      * simpl. split; congruence.
    + destruct (IH m1) as [H1 H2]; [congruence|]. split; congruence.
    + simpl. split; congruence.
Qed.

Lemma first_pass_keeps_dependent_jobs_witness :
  let m' := final_state (pass_a idle_backend ["A"; "D"] chain_manager) in
  od_get "D" (pending_jobs m') = Some (waiting ["A"] None None)
  /\ od_get "D" (running_jobs m') = od_get "D" (running_jobs chain_manager).
Proof.
  apply (first_pass_keeps_dependent_jobs idle_backend "D" (waiting ["A"] None None)
           ["A"; "D"]).
  - intros H. assert ("A" ∈ (∅ : gset string)) as Hin; [|set_solver].
    rewrite <- H. unfold waiting. simpl. set_solver.
  - reflexivity.
Defined.

Lemma insert_sorted_in (k x : string) (l : list string) :
  In x (insert_sorted k l) -> x = k \/ In x l.
Proof.
  induction l as [|y l IH]; simpl.
  - intros [<-|[]]. now left.
  - destruct (String.leb k y); simpl.
    + intros [<-|H]; [now left | now right].
    + intros [<-|H]; [right; now left|].
      destruct (IH H) as [->|Hin]; [now left | right; now right].
Qed.

Lemma sorted_in (x : string) (l : list string) : In x (sorted l) -> In x l.
Proof.
  unfold sorted. induction l as [|y l IH]; simpl; [auto|].
  intros H. destruct (insert_sorted_in y x _ H) as [->|Hin]; [now left | right; now apply IH].
Qed.

Lemma od_keys_get {V} (k : string) (d : odict V) :
  In k (od_keys d) -> exists v, od_get k d = Some v.
Proof.
  induction d as [|[k' v'] d IH]; simpl; [intros []|].
  destruct (String.eqb k' k) eqn:E; [eauto|].
  intros [H|H]; [apply String.eqb_neq in E; contradiction | now apply IH].
Qed.

Lemma at_capacity_idle (m : manager) : running_jobs m = [] -> at_capacity m = false.
Proof.
  intros Hr. unfold at_capacity. rewrite Hr.
  now destruct (max_running_jobs m) as [[|k]|].
Qed.

(** X9. When jobs are pending, none runs, none has a [wait_time], and
    every pending job waits for another pending job, [run_pending_jobs]
    starts nothing and raises the dependency cycle error, which lists every
    pending job with its sorted dependencies. *)
Theorem dependency_cycle_detected (w : world) (m : manager) :
  stalemate m ->
  deadlocked m ->
  run_pending_jobs w m = Exc (DependencyCycle (cycle_report m)) m.
Proof.
  intros Hstale Hdead.
  pose proof Hstale as (_ & Hrun & _).
  pose proof (at_capacity_idle m Hrun) as Hcap.
  assert (Ha : forall jobs, (forall j, In j jobs -> In j (od_keys (pending_jobs m))) ->
                 pass_a w jobs m = Ok tt m).
  { induction jobs as [|job rest IH]; intros Hin; [reflexivity|].
    rewrite pass_a_step, Hcap.
    destruct (od_keys_get job _ (Hin job (or_introl eq_refl))) as [conf Hconf].
    rewrite Hconf. destruct (Hdead job conf Hconf) as (dep & Hdep & _).
    unfold can_run_a. rewrite bool_decide_eq_false_2 by set_solver.
    unfold ret. apply IH. intros j Hj. apply Hin. now right. }
  assert (Hb : forall jobs o, (forall j, In j jobs -> In j (od_keys (pending_jobs m))) ->
                 pass_b w jobs o m = Ok tt m).
  { induction jobs as [|job rest IH]; intros o Hin; [reflexivity|].
    rewrite pass_b_step, Hcap.
    destruct (od_keys_get job _ (Hin job (or_introl eq_refl))) as [conf Hconf].
    rewrite Hconf. destruct (Hdead job conf Hconf) as (dep & Hdep & Hmem).
    assert (Hfor : forallb (fun w0 => negb (od_mem w0 (pending_jobs m)))
                     (elements (p_wait_for conf)) = false).
    { destruct (forallb _ _) eqn:E; [|reflexivity].
      rewrite forallb_forall in E. specialize (E dep).
      rewrite Hmem in E. simpl in E. symmetry. apply E.
      apply list_elem_of_In. now apply elem_of_elements. }
    unfold can_run_b, bind, get. rewrite Hfor. unfold ret.
    rewrite Hrun. simpl. rewrite andb_false_r.
    apply IH. intros j Hj. apply Hin. now right. }
  unfold run_pending_jobs, bind, get.
  rewrite Ha by (intros j; apply sorted_in).
  rewrite (proj2 (enters_pass_b_stalemate m) Hstale).
  unfold second_pass, bind, get.
  rewrite Hb by (intros j; apply sorted_in).
  now rewrite Hrun.
Qed.

Lemma dependency_cycle_detected_witness :
  run_pending_jobs idle_backend cycle_manager
  = Exc (DependencyCycle (cycle_report cycle_manager)) cycle_manager.
Proof.
  apply (dependency_cycle_detected idle_backend cycle_manager).
  - split; [discriminate|]. split; [reflexivity|].
    intros conf [<-|[<-|[]]]; reflexivity.
  - intros job conf Hconf.
    change (od_get job (pending_jobs cycle_manager))
      with (if String.eqb "U" job then Some (waiting ["V"] None None)
            else if String.eqb "V" job then Some (waiting ["U"] None None) else None)
      in Hconf.
    destruct (String.eqb "U" job); [|destruct (String.eqb "V" job); [|discriminate]];
      injection Hconf as <-.
    + exists "V". split; [unfold waiting; simpl; set_solver | reflexivity].
    + exists "U". split; [unfold waiting; simpl; set_solver | reflexivity].
Defined.

Lemma pass_b_one_start (w : world) (m : manager) (jobs : list string) :
  (forall conf, In conf (od_values (pending_jobs m)) -> p_origin conf = None) ->
  forall o m1 m2,
  running_jobs m1 = [] -> pending_jobs m1 = pending_jobs m ->
  pass_b w jobs o m1 = Ok tt m2 ->
  (running_jobs m2 = [] /\ pending_jobs m2 = pending_jobs m)
  \/ exists job jobid, running_jobs m2 = [(job, jobid)]
                       /\ pending_jobs m2 = od_del job (pending_jobs m)
                       /\ od_mem job (pending_jobs m) = true.
Proof.
  intros Horigin. induction jobs as [|job rest IH]; intros o m1 m2 Hr Hp Hrun.
  - inversion Hrun; subst. now left.
  - rewrite pass_b_step in Hrun.
    destruct (at_capacity m1); [inversion Hrun; subst; now left|].
    destruct (od_get job (pending_jobs m1)) as [conf|] eqn:Econf; [|discriminate].
    assert (p_origin conf = None) as Ho.
    { apply Horigin. rewrite <- Hp. eapply od_get_values. exact Econf. }
    pose proof (can_run_b_same_jobs job conf o m1) as (_ & Hp1 & Hr1 & _).
    destruct (can_run_b job conf o m1) as [can m1'|e m1']; [|discriminate].
    simpl in Hp1, Hr1. rewrite Ho in Hrun. simpl in Hrun.
    destruct can.
    + destruct (start_job_cases w job conf m1')
        as [(jobid & m1'' & Hs & (_ & Hp2 & Hr2 & _))|(e & m3 & Hs & _)];
        rewrite Hs in Hrun; [|discriminate].
      simpl in Hrun. rewrite Hr2, Hr1, Hr in Hrun. simpl in Hrun.
      inversion Hrun; subst m2. right. exists job, jobid. simpl.
      rewrite Hp2, Hp1, Hp. repeat split.
      unfold od_mem. rewrite <- Hp. now rewrite Econf.
    + rewrite Hr1, Hr in Hrun. simpl in Hrun.
      apply (IH None m1' m2); congruence.
Qed.

(** X10. When no pending job is a fan-out unit, the stalemate escape
    that returns has started exactly one job: that job alone is in the
    running map, and the pending map lost that job and no other. *)
Theorem stalemate_escape_starts_one (w : world) (m m' : manager) :
  stalemate m ->
  (forall conf, In conf (od_values (pending_jobs m)) -> p_origin conf = None) ->
  second_pass w m = Ok tt m' ->
  exists job jobid, running_jobs m' = [(job, jobid)]
                    /\ pending_jobs m' = od_del job (pending_jobs m)
                    /\ od_mem job (pending_jobs m) = true.
Proof.
  intros (_ & Hr & _) Horigin Hrun.
  unfold second_pass, bind, get in Hrun.
  destruct (pass_b w (sorted (od_keys (pending_jobs m))) None m) as [[] m2|e m2] eqn:Eb;
    [|discriminate].
  destruct (pass_b_one_start w m _ Horigin None m m2 Hr eq_refl Eb)
    as [[Hr2 _]|Hone].
  - rewrite Hr2 in Hrun. discriminate.
  - destruct (is_empty (running_jobs m2)); [discriminate|].
    inversion Hrun; subst m'. exact Hone.
Qed.

Lemma stalemate_escape_starts_one_witness :
  exists job jobid,
    running_jobs (final_state (second_pass idle_backend stale_pair_manager)) = [(job, jobid)]
    /\ pending_jobs (final_state (second_pass idle_backend stale_pair_manager))
       = od_del job (pending_jobs stale_pair_manager)
    /\ od_mem job (pending_jobs stale_pair_manager) = true.
Proof.
  apply (stalemate_escape_starts_one idle_backend stale_pair_manager).
  - split; [discriminate|]. split; [reflexivity|].
    intros conf [<-|[<-|[]]]; reflexivity.
  - intros conf [<-|[<-|[]]]; reflexivity.
  - vm_compute. reflexivity.
Defined.

(* ================================================================== *)
(** * Completion handling *)
(* ================================================================== *)

(** X11. When the backend reports no running job finished,
    [check_running_jobs] polls every running job once and changes nothing
    else: graph, pending and running maps and ledger stay as they are. *)
Theorem idle_poll_changes_nothing (w : world) (m : manager) :
  (forall n jobid, is_finished w n jobid = None) ->
  check_running_jobs w m = Ok tt (Nat.iter (length (running_jobs m)) tick_io m).
Proof.
  intros Hidle. unfold check_running_jobs, bind, get.
  generalize (running_jobs m) as l. intros l. revert m.
  induction l as [|entry l IH]; intros m; [reflexivity|].
  simpl for_each. unfold bind at 1. unfold check_running_job, bind at 1.
  rewrite Hidle. unfold ret at 1. rewrite IH.
  now rewrite <- Nat.iter_succ_r.
Qed.

Lemma idle_poll_changes_nothing_witness :
  check_running_jobs idle_backend running_pair_manager
  = Ok tt (Nat.iter (length (running_jobs running_pair_manager)) tick_io
             running_pair_manager).
Proof.
  apply (idle_poll_changes_nothing idle_backend running_pair_manager).
  reflexivity.
Defined.

Lemma od_map_keys {V} (f : string -> V -> V) (d : odict V) :
  od_keys (od_map f d) = od_keys d.
Proof.
  unfold od_keys, od_map. rewrite map_map. reflexivity.
Qed.

Lemma same_keys_refl (m : manager) : same_keys m m.
Proof. now repeat split. Qed.

Lemma same_keys_trans (m1 m2 m3 : manager) :
  same_keys m1 m2 -> same_keys m2 m3 -> same_keys m1 m3.
Proof. intros (?&?&?) (?&?&?). repeat split; congruence. Qed.

Lemma same_jobs_keys (m m' : manager) : same_jobs m m' -> same_keys m m'.
Proof. intros (Hg & Hp & _ & _ & _ & _ & Ho). repeat split; congruence. Qed.

Lemma discard_dependency_keys (job : string) (m : manager) :
  exists m', discard_dependency job m = Ok tt m' /\ same_keys m m'.
Proof.
  unfold discard_dependency, bind, modify. eexists. split; [reflexivity|].
  repeat split; simpl; apply od_map_keys.
Qed.

Lemma pop_running_keys (job : string) (m : manager) :
  same_keys m (final_state (pop_running job m)).
Proof.
  unfold pop_running. destruct (od_get job (running_jobs m)); now repeat split.
Qed.

(** With the flag set, the handling of a finished job keeps the keys. *)
Lemma finish_job_keys (job outcome : string) (m : manager) :
  only_starting_jobs m = true ->
  same_keys m (final_state (finish_job job outcome m)).
Proof.
  intros Honly. unfold finish_job, bind at 1.
  destruct (discard_dependency_keys job m) as (m1 & -> & H1).
  pose proof H1 as (Ho1 & _). rewrite Honly in Ho1.
  unfold bind at 1. unfold _get_next_jobs, bind at 1, get. rewrite Ho1.
  unfold ret at 1. simpl for_each. unfold bind at 1. unfold ret at 1. unfold bind.
  pose proof (same_jobs_keys _ _ (release_same_jobs job m1)) as H2.
  destruct (_release_resources job m1) as [[] m2|e m2]; simpl in H2.
  - eapply same_keys_trans; [exact H1|]. eapply same_keys_trans; [exact H2|].
    apply pop_running_keys.
  - simpl. eapply same_keys_trans; eassumption.
Qed.

(** X12. With [only_starting_jobs] set, completion handling adds no
    job: whatever the running jobs' outcomes, [check_running_jobs] leaves
    the keys of the pending map and of the graph as they were (no
    successor is added, no job is retried). *)
Theorem only_starting_jobs_adds_nothing (w : world) (m : manager) :
  only_starting_jobs m = true ->
  od_keys (pending_jobs (final_state (check_running_jobs w m))) = od_keys (pending_jobs m)
  /\ od_keys (jobs_graph (final_state (check_running_jobs w m))) = od_keys (jobs_graph m).
Proof.
  intros Honly.
  assert (same_keys m (final_state (check_running_jobs w m))) as (_ & H1 & H2); [|now split].
  unfold check_running_jobs, bind, get.
  apply (for_each_final_inv (same_keys m)); [|apply same_keys_refl].
  intros [job jobid] m' Hm'.
  unfold check_running_job, bind. simpl.
  assert (same_keys m (tick_io m')) as Ht by exact Hm'.
  destruct (is_finished w (io_count m') jobid) as [outcome|]; [|exact Ht].
  eapply same_keys_trans; [exact Ht|]. apply finish_job_keys.
  change (only_starting_jobs m' = true). destruct Hm' as (Ho & _). now rewrite Ho.
Qed.

Lemma only_starting_jobs_adds_nothing_witness :
  od_keys (pending_jobs (final_state (check_running_jobs finishing_backend running_pair_manager)))
  = od_keys (pending_jobs running_pair_manager)
  /\ od_keys (jobs_graph (final_state (check_running_jobs finishing_backend running_pair_manager)))
     = od_keys (jobs_graph running_pair_manager).
Proof.
  apply (only_starting_jobs_adds_nothing finishing_backend running_pair_manager).
  reflexivity.
Defined.

(* ================================================================== *)
(** * The fan-out expansion, unit by unit *)
(* ================================================================== *)

(** ** Names of units *)

Lemma append_cancel (p s1 s2 : string) : p ++ s1 = p ++ s2 -> s1 = s2.
Proof. induction p as [|a p IH]; simpl; intros H; [exact H | inversion H; auto]. Qed.

Lemma str_of_nat_inj (i j : nat) : str_of_nat i = str_of_nat j -> i = j.
Proof.
  unfold str_of_nat. intros H. apply DecimalNat.Unsigned.to_uint_inj.
  assert (Some (Nat.to_uint i) = Some (Nat.to_uint j)) as E
    by (rewrite <- !NilEmpty.usu; now rewrite H).
  now inversion E.
Qed.

Lemma unit_name_inj (job : string) (i j : nat) :
  unit_name job i = unit_name job j -> i = j.
Proof.
  unfold unit_name. intros H. apply append_cancel in H.
  apply (append_cancel "_") in H. now apply str_of_nat_inj.
Qed.

Lemma append_length (s1 s2 : string) :
  String.length (s1 ++ s2) = String.length s1 + String.length s2.
Proof. induction s1 as [|a s1 IH]; simpl; [reflexivity | now rewrite IH]. Qed.

Lemma unit_name_not_job (job : string) (i : nat) : unit_name job i <> job.
Proof.
  unfold unit_name. intros H. apply (f_equal String.length) in H.
  rewrite append_length in H. simpl in H. lia.
Qed.

(** ** Dictionaries: keys under assignment *)

Lemma od_keys_set_present {V} (k : string) (v v0 : V) (d : odict V) :
  od_get k d = Some v0 -> od_keys (od_set k v d) = od_keys d.
Proof.
  induction d as [|[k' v'] d IH]; simpl; [discriminate|].
  destruct (String.eqb k' k) eqn:E; intros H; simpl.
  - apply String.eqb_eq in E. now subst.
  - f_equal. now apply IH.
Qed.

Lemma od_keys_set_fresh {V} (k : string) (v : V) (d : odict V) :
  od_get k d = None -> (od_keys (od_set k v d) = od_keys d ++ [k])%list.
Proof.
  induction d as [|[k' v'] d IH]; simpl; [reflexivity|].
  destruct (String.eqb k' k) eqn:E; intros H; [discriminate|].
  simpl. f_equal. now apply IH.
Qed.

Lemma od_get_absent {V} (k : string) (d : odict V) :
  ~ In k (od_keys d) -> od_get k d = None.
Proof.
  intros H. destruct (od_get k d) as [v|] eqn:E; [|reflexivity].
  exfalso. apply H. eapply od_get_keys. exact E.
Qed.

Lemma od_keys_del {V} (k : string) (d : odict V) :
  od_keys (od_del k d) = List.filter (fun x => negb (String.eqb x k)) (od_keys d).
Proof.
  induction d as [|[k' v'] d IH]; simpl; [reflexivity|].
  destruct (String.eqb k' k); simpl; [exact IH | now rewrite IH].
Qed.

(** ** What changes at most the dependencies *)

Lemma rewaits_refl (gone : list string) (c : jobconf) : rewaits gone c c.
Proof. split; [reflexivity | auto]. Qed.

Lemma rewaits_trans (gone : list string) (a b c : jobconf) :
  rewaits gone a b -> rewaits gone b c -> rewaits gone a c.
Proof. intros [E1 H1] [E2 H2]. split; [congruence | auto]. Qed.

Lemma rewaits_weaken (gone : list string) (a b : jobconf) :
  rewaits [] a b -> rewaits gone a b.
Proof. intros [E H]. split; [exact E|]. intros x Hx _. apply H; [exact Hx | intros []]. Qed.

Lemma p_rewaits_refl (gone : list string) (p : pending_job) : p_rewaits gone p p.
Proof. split; [reflexivity | auto]. Qed.

Lemma p_rewaits_trans (gone : list string) (a b c : pending_job) :
  p_rewaits gone a b -> p_rewaits gone b c -> p_rewaits gone a c.
Proof. intros [E1 H1] [E2 H2]. split; [congruence | auto]. Qed.

Lemma p_rewaits_weaken (gone : list string) (a b : pending_job) :
  p_rewaits [] a b -> p_rewaits gone a b.
Proof. intros [E H]. split; [exact E|]. intros x Hx _. apply H; [exact Hx | intros []]. Qed.

Lemma opt_rel_refl {A} (R : A -> A -> Prop) (x : option A) :
  (forall a, R a a) -> opt_rel R x x.
Proof. intros H. destruct x; simpl; auto. Qed.

Lemma opt_rel_trans {A} (R : A -> A -> Prop) (x y z : option A) :
  (forall a b c, R a b -> R b c -> R a c) ->
  opt_rel R x y -> opt_rel R y z -> opt_rel R x z.
Proof. intros H. destruct x, y, z; simpl; try tauto. apply H. Qed.

Lemma opt_rel_impl {A} (R R' : A -> A -> Prop) (x y : option A) :
  (forall a b, R a b -> R' a b) -> opt_rel R x y -> opt_rel R' x y.
Proof. intros H. destruct x, y; simpl; auto. Qed.

Lemma opt_rel_Some {A} (R : A -> A -> Prop) (a : A) (y : option A) :
  opt_rel R (Some a) y -> exists b, y = Some b /\ R a b.
Proof. destruct y; simpl; [eauto | intros []]. Qed.

Lemma opt_rel_None {A} (R : A -> A -> Prop) (y : option A) :
  opt_rel R None y -> y = None.
Proof. destruct y; simpl; [intros [] | reflexivity]. Qed.

Lemma opt_rel_Some_r {A} (R : A -> A -> Prop) (x : option A) (b : A) :
  opt_rel R x (Some b) -> exists a, x = Some a /\ R a b.
Proof. destruct x; simpl; [eauto | intros []]. Qed.

Lemma rewired_refl (gone : list string) (K : string -> Prop) (m : manager) :
  rewired gone K m m.
Proof.
  repeat split; try reflexivity; intros k.
  - apply opt_rel_refl, rewaits_refl.
  - apply opt_rel_refl, p_rewaits_refl.
Qed.

Lemma rewired_trans (gone : list string) (K : string -> Prop) (m1 m2 m3 : manager) :
  rewired gone K m1 m2 -> rewired gone K m2 m3 -> rewired gone K m1 m3.
Proof.
  intros (P1 & G1 & Q1 & A1 & B1 & C1) (P2 & G2 & Q2 & A2 & B2 & C2).
  split; [congruence|]. split; [congruence|]. split; [congruence|].
  split; [|split].
  - intros k. eapply opt_rel_trans; [apply rewaits_trans | apply A1 | apply A2].
  - intros k. eapply opt_rel_trans; [apply p_rewaits_trans | apply B1 | apply B2].
  - intros k Hk. destruct (C1 k Hk), (C2 k Hk). split; congruence.
Qed.

Lemma rewired_weaken (gone : list string) (K K' : string -> Prop) (m m' : manager) :
  (forall k, K k -> K' k) -> rewired [] K m m' -> rewired gone K' m m'.
Proof.
  intros HK (P & G & Q & A & B & C).
  split; [exact P|]. split; [exact G|]. split; [exact Q|]. split; [|split].
  - intros k. eapply opt_rel_impl; [apply rewaits_weaken | apply A].
  - intros k. eapply opt_rel_impl; [apply p_rewaits_weaken | apply B].
  - intros k Hk. apply C. intros H. apply Hk, HK, H.
Qed.

Lemma rewired_widen (gone : list string) (K K' : string -> Prop) (m m' : manager) :
  (forall k, K k -> K' k) -> rewired gone K m m' -> rewired gone K' m m'.
Proof.
  intros HK (P & G & Q & A & B & C).
  split; [exact P|]. split; [exact G|]. split; [exact Q|]. split; [exact A|].
  split; [exact B|]. intros k Hk. apply C. intros H. apply Hk, HK, H.
Qed.

(** Rewriting the description of one job. *)
Lemma update_job_rewired (gone : list string) (k : string) (f : jobconf -> jobconf)
    (m : manager) :
  (forall c, od_get k (jobs_graph m) = Some c -> rewaits gone c (f c)) ->
  exists m', update_job k f m = Ok tt m' /\ rewired gone (eq k) m m'.
Proof.
  intros Hf. unfold update_job, modify.
  destruct (od_get k (jobs_graph m)) as [c|] eqn:E;
    (eexists; split; [reflexivity|]); [|apply rewired_refl].
  split; [reflexivity|]. split; [simpl; eapply od_keys_set_present; exact E|].
  split; [reflexivity|]. split; [|split].
  - intros k'. simpl. rewrite od_get_set. destruct (String.eqb k k') eqn:E'.
    + apply String.eqb_eq in E'. subst k'. rewrite E. simpl. now apply Hf.
    + apply opt_rel_refl, rewaits_refl.
  - intros k'. apply opt_rel_refl, p_rewaits_refl.
  - intros k' Hk'. simpl. rewrite od_get_set_ne by exact Hk'. auto.
Qed.

Lemma update_pending_rewired (gone : list string) (k : string)
    (f : pending_job -> pending_job) (m : manager) :
  (forall p, p_rewaits gone p (f p)) ->
  exists m', update_pending k f m = Ok tt m' /\ rewired gone (eq k) m m'.
Proof.
  intros Hf. unfold update_pending, modify.
  destruct (od_get k (pending_jobs m)) as [p|] eqn:E;
    (eexists; split; [reflexivity|]); [|apply rewired_refl].
  split; [reflexivity|]. split; [reflexivity|].
  split; [simpl; eapply od_keys_set_present; exact E|]. split; [|split].
  - intros k'. apply opt_rel_refl, rewaits_refl.
  - intros k'. simpl. rewrite od_get_set. destruct (String.eqb k k') eqn:E'.
    + apply String.eqb_eq in E'. subst k'. rewrite E. simpl. apply Hf.
    + apply opt_rel_refl, p_rewaits_refl.
  - intros k' Hk'. simpl. rewrite od_get_set_ne by exact Hk'. auto.
Qed.

Lemma od_mem_rewired (gone : list string) (K : string -> Prop) (x : string)
    (m m' : manager) :
  rewired gone K m m' -> od_mem x (jobs_graph m') = od_mem x (jobs_graph m).
Proof.
  intros (_ & _ & _ & A & _). specialize (A x). unfold od_mem.
  destruct (od_get x (jobs_graph m)), (od_get x (jobs_graph m')); simpl in A; tauto.
Qed.

Lemma linked_rewired (gone : list string) (K : string -> Prop) (x u : string)
    (m m' : manager) :
  ~ In u gone -> rewired gone K m m' -> linked x u m -> linked x u m'.
Proof.
  intros Hu (_ & _ & _ & A & B & _) [(c & Hc & Hin) Hp]. split.
  - pose proof (A x) as Ax. rewrite Hc in Ax. apply opt_rel_Some in Ax.
    destruct Ax as (c' & Hc' & [_ Hm]). exists c'. split; [exact Hc' | auto].
  - intros p' Hp'. pose proof (B x) as Bx. rewrite Hp' in Bx.
    apply opt_rel_Some_r in Bx. destruct Bx as (p & Hpx & [_ Hm]).
    apply Hm; [now apply Hp | exact Hu].
Qed.

Lemma link_successor_rewired (nextjob job_unit : string) (m : manager) :
  od_mem nextjob (jobs_graph m) = true ->
  exists m', link_successor nextjob job_unit m = Ok tt m' /\ rewired [] (eq nextjob) m m'.
Proof.
  intros Hx. unfold link_successor, bind, get_job. unfold od_mem in Hx.
  destruct (od_get nextjob (jobs_graph m)) as [c|] eqn:E; [|discriminate].
  destruct (update_job_rewired [] nextjob
              (fun c => with_wait_for (Some (default [] (wait_for c) ++ [job_unit])%list) c) m)
    as (m1 & -> & H1).
  { intros c0 _. split; [reflexivity|]. intros x Hin _. simpl. apply in_or_app. now left. }
  destruct (update_pending_rewired [] nextjob
              (fun p => with_p_wait_for (p_wait_for p ∪ {[job_unit]}) p) m1)
    as (m2 & -> & H2).
  { intros p. split; [reflexivity|]. intros x Hin _. simpl. set_solver. }
  exists m2. split; [reflexivity | eapply rewired_trans; eassumption].
Qed.

Lemma link_successor_links (nextjob job_unit : string) (m m' : manager) :
  link_successor nextjob job_unit m = Ok tt m' -> linked nextjob job_unit m'.
Proof.
  unfold link_successor, bind, get_job.
  destruct (od_get nextjob (jobs_graph m)) as [c|] eqn:E; [|discriminate].
  unfold update_job, update_pending, modify. rewrite E.
  cbn [pending_jobs set_jobs_graph].
  intros H. inversion H. subst m'. clear H. split.
  - eexists. split.
    + destruct (od_get nextjob (pending_jobs m));
        cbn [jobs_graph set_pending_jobs set_jobs_graph]; apply od_get_set_eq.
    + simpl. apply in_or_app. right. now left.
  - intros p. destruct (od_get nextjob (pending_jobs m)) as [p0|] eqn:Ep;
      cbn [pending_jobs set_pending_jobs set_jobs_graph].
    + rewrite od_get_set_eq. intros H. inversion H. simpl.
      apply elem_of_union_r. now apply elem_of_singleton.
    + rewrite Ep. discriminate.
Qed.

(** ** One unit *)

(** Emptying a list of successors leaves the ["retry"] entries, and
    touches the successors only. *)
Lemma strip_nextjobs_result (job job_unit : string) (n : nat) (todo : list string) :
  forall kept i m,
  Forall (fun y => y = "retry") kept ->
  (forall x, In x todo -> x <> "retry" -> od_mem x (jobs_graph m) = true) ->
  exists m',
    strip_nextjobs job job_unit n todo (kept ++ todo)%list i m
    = Ok ((kept ++ List.filter (fun x => String.eqb x "retry") todo)%list, i) m'
    /\ rewired [] (fun k => In k todo /\ k <> "retry") m m'.
Proof.
  induction todo as [|x todo IH]; intros kept i m Hk Hx; simpl.
  - exists m. split; [reflexivity | apply rewired_refl].
  - destruct (String.eqb x "retry") eqn:E.
    + apply String.eqb_eq in E. subst x.
      replace (kept ++ "retry" :: todo)%list with ((kept ++ ["retry"]) ++ todo)%list
        by now rewrite <- app_assoc.
      replace (kept ++ "retry" :: List.filter (fun x => String.eqb x "retry") todo)%list
        with ((kept ++ ["retry"]) ++ List.filter (fun x => String.eqb x "retry") todo)%list
        by now rewrite <- app_assoc.
      destruct (IH (kept ++ ["retry"])%list i m) as (m' & Hrun & Hrel).
      * apply Forall_app. split; [assumption | now constructor].
      * intros y Hy. apply Hx. now right.
      * exists m'. split; [exact Hrun|].
        eapply rewired_widen; [|exact Hrel]. intros k [H1 H2]. split; [now right | exact H2].
    + apply String.eqb_neq in E.
      unfold bind at 1. unfold get at 1.
      rewrite (Hx x (or_introl eq_refl) E).
      destruct (link_successor_rewired x job_unit m (Hx x (or_introl eq_refl) E))
        as (m1 & Hl & He).
      unfold bind at 1. unfold bind at 1. rewrite Hl. unfold ret at 1.
      rewrite (py_remove_after_retries x kept todo Hk E).
      destruct (IH kept i m1 Hk) as (m2 & Hs & He2).
      { intros y Hy Hne. rewrite (od_mem_rewired _ _ _ _ _ He).
        apply Hx; [now right | assumption]. }
      exists m2. split; [exact Hs|].
      eapply rewired_trans.
      * eapply rewired_widen; [|exact He]. intros k <-. split; [now left | exact E].
      * eapply rewired_widen; [|exact He2]. intros k [H1 H2]. split; [now right | exact H2].
Qed.

Lemma successors_declared_rewired (gone : list string) (K : string -> Prop)
    (items : odict (list string)) (m m' : manager) :
  rewired gone K m m' -> successors_declared items m -> successors_declared items m'.
Proof.
  intros Hrel Hs o njs x Hin Hx Hne. rewrite (od_mem_rewired _ _ _ _ _ Hrel). eauto.
Qed.

(** Visiting [on_finish]: unit 0 keeps it, every other unit is left with
    the ["retry"] entries. *)
Lemma strip_on_finish_result (job job_unit : string) (n : nat) (items : odict (list string)) :
  forall i m,
  successors_declared items m ->
  exists m',
    strip_on_finish job job_unit n items i m
    = Ok (if Nat.eqb i 0 then items else only_retries items, i) m'
    /\ rewired [] (successor_of items) m m'.
Proof.
  induction items as [|[outcome nextjobs] items IH]; intros i m Hs; simpl.
  - exists m. split; [now destruct (Nat.eqb i 0) | apply rewired_refl].
  - assert (exists m1,
              (if Nat.eqb i 0 then ret (nextjobs, i)
               else strip_nextjobs job job_unit n nextjobs nextjobs i) m
              = Ok (if Nat.eqb i 0 then nextjobs
                    else List.filter (fun x => String.eqb x "retry") nextjobs, i) m1
              /\ rewired [] (successor_of ((outcome, nextjobs) :: items)) m m1)
      as (m1 & H1 & He1).
    { destruct (Nat.eqb i 0).
      - exists m. split; [reflexivity | apply rewired_refl].
      - destruct (strip_nextjobs_result job job_unit n nextjobs [] i m) as (m1 & H & He).
        + constructor.
        + intros x Hin Hne. apply (Hs outcome nextjobs x); [now left | assumption | assumption].
        + exists m1. split; [exact H|].
          eapply rewired_widen; [|exact He]. intros k [Hk1 Hk2].
          exists outcome, nextjobs. split; [now left | auto]. }
    destruct (IH i m1) as (m' & H2 & He2).
    { eapply successors_declared_rewired; [exact He1|].
      intros o njs x Hin Hx Hne. apply (Hs o njs x); [now right | assumption | assumption]. }
    unfold bind. rewrite H1. simpl. rewrite H2. simpl.
    exists m'. split; [now destruct (Nat.eqb i 0)|].
    eapply rewired_trans; [exact He1|].
    eapply rewired_widen; [|exact He2]. intros k (o & njs & Hin & Hk).
    exists o, njs. split; [now right | exact Hk].
Qed.

(** Every successor taken out of a list has the unit in its
    dependencies afterwards. *)
Lemma strip_nextjobs_links (job job_unit : string) (n : nat) (todo : list string) :
  forall kept i m r m',
  Forall (fun y => y = "retry") kept ->
  (forall x, In x todo -> x <> "retry" -> od_mem x (jobs_graph m) = true) ->
  strip_nextjobs job job_unit n todo (kept ++ todo)%list i m = Ok r m' ->
  forall x, In x todo -> x <> "retry" -> linked x job_unit m'.
Proof.
  induction todo as [|y todo IH]; intros kept i m r m' Hk Hx Hrun x Hin Hne;
    [destruct Hin|].
  simpl in Hrun. destruct (String.eqb y "retry") eqn:E.
  - apply String.eqb_eq in E. subst y.
    replace (kept ++ "retry" :: todo)%list with ((kept ++ ["retry"]) ++ todo)%list in Hrun
      by now rewrite <- app_assoc.
    destruct Hin as [<-|Hin]; [contradiction|].
    eapply (IH (kept ++ ["retry"])%list); try eassumption.
    + apply Forall_app. split; [assumption | now constructor].
    + intros z Hz. apply Hx. now right.
  - apply String.eqb_neq in E.
    unfold bind at 1 in Hrun. unfold get at 1 in Hrun.
    rewrite (Hx y (or_introl eq_refl) E) in Hrun.
    destruct (link_successor_rewired y job_unit m (Hx y (or_introl eq_refl) E))
      as (m1 & Hl & He).
    unfold bind at 1 in Hrun. unfold bind at 1 in Hrun. rewrite Hl in Hrun.
    unfold ret at 1 in Hrun.
    rewrite (py_remove_after_retries y kept todo Hk E) in Hrun.
    assert (forall z, In z todo -> z <> "retry" -> od_mem z (jobs_graph m1) = true) as Hx1.
    { intros z Hz Hzn. rewrite (od_mem_rewired _ _ _ _ _ He).
      apply Hx; [now right | assumption]. }
    destruct (in_dec string_dec x todo) as [Hin'|Hnin].
    + eapply (IH kept); eassumption.
    + destruct Hin as [<-|Hin]; [|contradiction].
      destruct (strip_nextjobs_result job job_unit n todo kept i m1 Hk Hx1)
        as (m2 & Hrun2 & Hrel2).
      rewrite Hrun2 in Hrun. inversion Hrun. subst m'.
      eapply linked_rewired; [|exact Hrel2|]; [intros []|].
      eapply link_successor_links. exact Hl.
Qed.

Lemma strip_on_finish_links (job job_unit : string) (n : nat) (items : odict (list string)) :
  forall i m r m',
  i <> 0 ->
  successors_declared items m ->
  strip_on_finish job job_unit n items i m = Ok r m' ->
  forall x, successor_of items x -> linked x job_unit m'.
Proof.
  induction items as [|[outcome nextjobs] items IH]; intros i m r m' Hi Hs Hrun x Hx.
  { destruct Hx as (o & njs & [] & _). }
  simpl in Hrun. unfold bind in Hrun.
  apply Nat.eqb_neq in Hi. rewrite Hi in Hrun. apply Nat.eqb_neq in Hi.
  assert (forall y, In y nextjobs -> y <> "retry" -> od_mem y (jobs_graph m) = true) as Hs0.
  { intros y Hy Hne. apply (Hs outcome nextjobs y); [now left | assumption | assumption]. }
  destruct (strip_nextjobs_result job job_unit n nextjobs [] i m (Forall_nil_2 _) Hs0)
    as (m1 & H1 & He1).
  simpl in H1. pose proof H1 as H1'. rewrite H1 in Hrun. cbn [fst snd] in Hrun.
  assert (successors_declared items m1) as Hs1.
  { eapply successors_declared_rewired; [exact He1|].
    intros o njs y Hin Hy Hne. apply (Hs o njs y); [now right | assumption | assumption]. }
  destruct (strip_on_finish_result job job_unit n items i m1 Hs1) as (m2 & H2 & He2).
  rewrite H2 in Hrun. simpl in Hrun. inversion Hrun. subst m'.
  destruct Hx as (o & njs & [E|Hin] & Hk & Hne).
  - inversion E. subst o njs.
    eapply linked_rewired; [|exact He2|]; [intros []|].
    eapply (strip_nextjobs_links job job_unit n nextjobs [] i m); eauto.
  - eapply (IH i m1); [exact Hi | exact Hs1 | exact H2|].
    exists o, njs. auto.
Qed.

(** One iteration of the expansion: the successors get the unit in
    their dependencies, then the unit is stored with its description and
    its pending record. *)
Lemma add_unit_spec (job : string) (base : jobconf) (sets : list resource_set)
    (parg : string) (deps : list string) (r : Z) (t : option Q) (n j : nat) (m : manager) :
  successors_declared (default [] (on_finish base)) m ->
  exists m1,
    rewired [] (successor_of (default [] (on_finish base))) m m1
    /\ (j <> 0 -> forall x, successor_of (default [] (on_finish base)) x ->
                  linked x (unit_name job j) m1)
    /\ add_unit job base sets parg deps r t n j m
       = Ok tt (set_pending_jobs
                  (od_set (unit_name job j) (unit_record job sets deps r t n)
                     (pending_jobs m1))
                  (set_jobs_graph
                     (od_set (unit_name job j) (unit_description base sets parg n j)
                        (jobs_graph m1)) m1)).
Proof.
  intros Hs. unfold add_unit.
  rewrite unit_conf_on_finish.
  destruct (strip_on_finish_result job (unit_name job j) n (default [] (on_finish base)) j m Hs)
    as (m1 & Hrun & Hrel).
  exists m1. split; [exact Hrel|].
  split; [intros Hj x Hx; eapply strip_on_finish_links; eassumption|].
  unfold bind, modify. rewrite Hrun. cbn [fst snd].
  unfold unit_description, unit_record. rewrite unit_conf_on_finish.
  destruct (on_finish base) as [items|]; cbn [default];
    cbn [required_resources with_on_finish]; rewrite unit_conf_required_resources;
    reflexivity.
Qed.

(** ** All units *)

(** A property that every stored unit keeps holds after the loop over
    the units, which runs to its end. *)
Lemma add_units_inv (job : string) (base : jobconf) (sets : list resource_set)
    (parg : string) (deps : list string) (r : Z) (t : option Q) (n : nat)
    (P : nat -> manager -> Prop) :
  (forall j m m1, j < n -> P j m ->
     rewired [] (successor_of (default [] (on_finish base))) m m1 ->
     (j <> 0 -> forall x, successor_of (default [] (on_finish base)) x ->
                   linked x (unit_name job j) m1) ->
     P (S j) (store_unit job base sets parg deps r t n j m1)) ->
  forall len j m,
  j + len <= n ->
  successors_declared (default [] (on_finish base)) m ->
  P j m ->
  exists m', for_each (seq j len) (add_unit job base sets parg deps r t n) m = Ok tt m'
             /\ P (j + len) m'.
Proof.
  intros Hstep. induction len as [|len IH]; intros j m Hlen Hs HP; simpl.
  - exists m. rewrite Nat.add_0_r. auto.
  - destruct (add_unit_spec job base sets parg deps r t n j m Hs)
      as (m1 & Hrel & Hlink & Hrun).
    destruct (IH (S j) (store_unit job base sets parg deps r t n j m1)) as (m2 & Hrun2 & HP2).
    + lia.
    + intros o njs x Hin Hx Hne. unfold store_unit. cbn [jobs_graph set_pending_jobs set_jobs_graph].
      apply od_mem_set. rewrite (od_mem_rewired _ _ _ _ _ Hrel). eauto.
    + apply (Hstep j m m1); [lia | exact HP | exact Hrel | exact Hlink].
    + exists m2. unfold bind. rewrite Hrun. split; [exact Hrun2|].
      now replace (j + S len) with (S j + len) by lia.
Qed.

Lemma store_unit_graph (job : string) (base : jobconf) (sets : list resource_set)
    (parg : string) (deps : list string) (r : Z) (t : option Q) (n j : nat) (m : manager)
    (k : string) :
  od_get k (jobs_graph (store_unit job base sets parg deps r t n j m))
  = if String.eqb (unit_name job j) k then Some (unit_description base sets parg n j)
    else od_get k (jobs_graph m).
Proof. unfold store_unit. cbn [jobs_graph set_pending_jobs set_jobs_graph]. apply od_get_set. Qed.

Lemma store_unit_pending (job : string) (base : jobconf) (sets : list resource_set)
    (parg : string) (deps : list string) (r : Z) (t : option Q) (n j : nat) (m : manager)
    (k : string) :
  od_get k (pending_jobs (store_unit job base sets parg deps r t n j m))
  = if String.eqb (unit_name job j) k then Some (unit_record job sets deps r t n)
    else od_get k (pending_jobs m).
Proof. unfold store_unit. cbn [pending_jobs set_pending_jobs set_jobs_graph]. apply od_get_set. Qed.

Lemma unit_name_eqb (job : string) (i j : nat) :
  String.eqb (unit_name job j) (unit_name job i) = Nat.eqb j i.
Proof.
  destruct (Nat.eqb j i) eqn:E.
  - apply Nat.eqb_eq in E. subst. apply String.eqb_refl.
  - apply String.eqb_neq. intros H. apply unit_name_inj in H.
    apply Nat.eqb_neq in E. contradiction.
Qed.

Lemma unit_name_eqb_job (job : string) (j : nat) :
  String.eqb (unit_name job j) job = false.
Proof. apply String.eqb_neq, unit_name_not_job. Qed.

(** The units stay described while later units are stored. *)
Lemma described_step (job : string) (base : jobconf) (sets : list resource_set)
    (parg : string) (deps : list string) (r : Z) (t : option Q) (n j : nat)
    (K : string -> Prop) (m m1 : manager) :
  od_get job (jobs_graph m) = None /\ parallelization m = Some n
    /\ units_described job base sets parg deps r t n j m ->
  rewired [] K m m1 ->
  let m' := store_unit job base sets parg deps r t n j m1 in
  od_get job (jobs_graph m') = None /\ parallelization m' = Some n
    /\ units_described job base sets parg deps r t n (S j) m'.
Proof.
  intros (Hjob & Hpar & Hu) Hrel m'. pose proof Hrel as (P & _ & _ & A & B & _).
  split; [|split].
  - unfold m'. rewrite store_unit_graph, unit_name_eqb_job.
    apply (opt_rel_None (rewaits [])). rewrite <- Hjob. apply A.
  - unfold m', store_unit. simpl. congruence.
  - intros i Hi. unfold m'. rewrite store_unit_graph, store_unit_pending, unit_name_eqb.
    destruct (Nat.eqb j i) eqn:E.
    + apply Nat.eqb_eq in E. subst i. eexists _, _.
      split; [reflexivity|]. split; [apply rewaits_refl|].
      split; [reflexivity | apply p_rewaits_refl].
    + apply Nat.eqb_neq in E. destruct (Hu i) as (c & p & Hc & Rc & Hp & Rp); [lia|].
      pose proof (A (unit_name job i)) as Ai. rewrite Hc in Ai.
      apply opt_rel_Some in Ai. destruct Ai as (c1 & Hc1 & Rc1).
      pose proof (B (unit_name job i)) as Bi. rewrite Hp in Bi.
      apply opt_rel_Some in Bi. destruct Bi as (p1 & Hp1 & Rp1).
      exists c1, p1. split; [exact Hc1|].
      split; [eapply rewaits_trans; [exact Rc | apply rewaits_weaken, Rc1]|].
      split; [exact Hp1|].
      eapply p_rewaits_trans; [exact Rp | apply p_rewaits_weaken, Rp1].
Qed.

(** Units that no successor is named after stay exactly as stored. *)
Lemma exact_step (job : string) (base : jobconf) (sets : list resource_set)
    (parg : string) (deps : list string) (r : Z) (t : option Q) (n j : nat)
    (K : string -> Prop) (m m1 : manager) :
  (forall k i, K k -> i < n -> k <> unit_name job i) ->
  j < n ->
  units_exact job base sets parg deps r t n j m ->
  rewired [] K m m1 ->
  units_exact job base sets parg deps r t n (S j)
    (store_unit job base sets parg deps r t n j m1).
Proof.
  intros HK Hj Hu (_ & _ & _ & _ & _ & C) i Hi.
  rewrite store_unit_graph, store_unit_pending, unit_name_eqb.
  destruct (Nat.eqb j i) eqn:E.
  - apply Nat.eqb_eq in E. subst i. auto.
  - apply Nat.eqb_neq in E. destruct (Hu i) as [Hc Hp]; [lia|].
    destruct (C (unit_name job i)) as [Ec Ep].
    { intros H. apply (HK _ i H); [lia | reflexivity]. }
    split; congruence.
Qed.

(** The other jobs are kept while the units are stored. *)
Lemma others_step (job : string) (base : jobconf) (sets : list resource_set)
    (parg : string) (deps : list string) (r : Z) (t : option Q) (n j : nat)
    (K : string -> Prop) (m0 m m1 : manager) :
  j < n ->
  others_kept job n m0 m ->
  rewired [] K m m1 ->
  others_kept job n m0 (store_unit job base sets parg deps r t n j m1).
Proof.
  intros Hj Ho (_ & _ & _ & A & B & _) k Hk.
  rewrite store_unit_graph, store_unit_pending.
  replace (String.eqb (unit_name job j) k) with false
    by (symmetry; apply String.eqb_neq; intros H; apply (Hk j Hj); now symmetry).
  destruct (Ho k Hk) as [Hc Hp]. split.
  - eapply opt_rel_trans; [apply rewaits_trans | exact Hc | apply A].
  - eapply opt_rel_trans; [apply p_rewaits_trans | exact Hp | apply B].
Qed.

(** Fresh units are appended in order. *)
Lemma appended_step (job : string) (base : jobconf) (sets : list resource_set)
    (parg : string) (deps : list string) (r : Z) (t : option Q) (n j : nat)
    (K : string -> Prop) (m0 m m1 : manager) :
  (forall i, i < n -> ~ In (unit_name job i) (od_keys (jobs_graph m0))) ->
  (forall i, i < n -> ~ In (unit_name job i) (od_keys (pending_jobs m0))) ->
  j < n ->
  units_appended job m0 j m ->
  rewired [] K m m1 ->
  units_appended job m0 (S j) (store_unit job base sets parg deps r t n j m1).
Proof.
  intros Hg Hp Hj [Kg Kp] (_ & G & Q & _).
  assert (~ In (unit_name job j) (map (unit_name job) (seq 0 j))) as Hfresh.
  { intros H. apply in_map_iff in H. destruct H as (i & Hi & Hin).
    apply unit_name_inj in Hi. apply in_seq in Hin. lia. }
  unfold units_appended, store_unit. cbn [jobs_graph pending_jobs set_pending_jobs set_jobs_graph].
  rewrite seq_S, map_app, !app_assoc. simpl. split.
  - rewrite od_keys_set_fresh; [congruence|]. apply od_get_absent.
    rewrite G, Kg. intros H. apply in_app_or in H. destruct H as [H|H]; [|tauto].
    now apply (Hg j Hj).
  - rewrite od_keys_set_fresh; [congruence|]. apply od_get_absent.
    rewrite Q, Kp. intros H. apply in_app_or in H. destruct H as [H|H]; [|tauto].
    now apply (Hp j Hj).
Qed.

(** ** The closing loop *)

Lemma py_remove_keeps {A} `{EqDecision A} (x : A) (l l' : list A) :
  py_remove x l = Some l' -> forall y, In y l -> y <> x -> In y l'.
Proof.
  revert l'. induction l as [|z l IH]; simpl; intros l' H y Hy Hne; [contradiction|].
  destruct (decide (z = x)).
  - inversion H; subst. destruct Hy as [->|Hy]; [contradiction | exact Hy].
  - destruct (py_remove x l) as [r|]; [|discriminate].
    inversion H; subst. destruct Hy as [<-|Hy]; [now left | right; now apply (IH r)].
Qed.

(** One iteration: only a job that has [job] in its dependencies is
    touched, and it loses [job] at most. *)
Lemma rewire_rewired (job : string) (n : nat) (other : string) (m : manager) :
  exists m', rewire job n other m = Ok tt m'
             /\ rewired [job] (fun k => k = other /\ waits_for job m k) m m'.
Proof.
  unfold rewire, bind, get.
  destruct (od_get other (jobs_graph m)) as [oconf|] eqn:Ho;
    [|exists m; split; [reflexivity | apply rewired_refl]].
  destruct (py_in job (default [] (wait_for oconf))) eqn:Hin;
    [|exists m; split; [reflexivity | apply rewired_refl]].
  apply bool_decide_eq_true_1 in Hin.
  destruct (py_remove_elem _ _ Hin) as [wl' Hwl]. rewrite Hwl.
  destruct (update_job_rewired [job] other
              (with_wait_for (Some (wl' ++ map (unit_name job) (seq 0 n))%list)) m)
    as (m1 & -> & H1).
  { intros c Hc. assert (c = oconf) as -> by congruence.
    split; [reflexivity|]. intros x Hx Hg. simpl. apply in_or_app. left.
    apply (py_remove_keeps _ _ _ Hwl x Hx). intros ->. apply Hg. now left. }
  destruct (update_pending_rewired [job] other
              (fun p => with_p_wait_for
                          ((p_wait_for p ∖ {[job]})
                           ∪ list_to_set (map (unit_name job) (seq 0 n))) p) m1)
    as (m2 & -> & H2).
  { intros p. split; [reflexivity|]. intros x Hx Hg. simpl.
    apply elem_of_union_l, elem_of_difference. split; [exact Hx|].
    intros Hj. apply elem_of_singleton in Hj. subst x. apply Hg. now left. }
  exists m2. split; [reflexivity|].
  assert (forall k, other = k -> k = other /\ waits_for job m k) as HK.
  { intros k <-. split; [reflexivity|]. exists oconf. split; [exact Ho|].
    now apply list_elem_of_In. }
  eapply rewired_trans; (eapply rewired_widen; [exact HK|]); [exact H1 | exact H2].
Qed.

Lemma waits_for_before (job : string) (m1 m : manager) (k : string) :
  rewired [job] (waits_for job m1) m1 m -> waits_for job m k -> waits_for job m1 k.
Proof.
  intros (_ & _ & _ & _ & _ & C) (c & Hc & Hin).
  destruct (od_get k (jobs_graph m1)) as [c1|] eqn:E1.
  - destruct (in_dec string_dec job (default [] (wait_for c1))) as [Hy|Hn].
    + exists c1. auto.
    + destruct (C k) as [Eg _].
      * intros (c' & Hc' & Hin'). rewrite E1 in Hc'. inversion Hc'. subst c'. contradiction.
      * rewrite Hc, E1 in Eg. inversion Eg. subst c1. contradiction.
  - destruct (C k) as [Eg _].
    + intros (c' & Hc' & _). rewrite E1 in Hc'. discriminate.
    + rewrite Hc, E1 in Eg. discriminate.
Qed.

(** The closing loop runs to its end; the jobs that did not wait for
    [job] are exactly as they were. *)
Lemma rewire_loop (job : string) (n : nat) (m1 : manager) (l : list string) :
  forall m,
  rewired [job] (waits_for job m1) m1 m ->
  exists m', for_each l (rewire job n) m = Ok tt m'
             /\ rewired [job] (waits_for job m1) m1 m'.
Proof.
  induction l as [|x l IH]; intros m Hrel; simpl.
  - exists m. auto.
  - destruct (rewire_rewired job n x m) as (m' & Hrun & Hstep).
    destruct (IH m') as (m2 & Hrun2 & Hrel2).
    + eapply rewired_trans; [exact Hrel|].
      eapply rewired_widen; [|exact Hstep].
      intros k [_ Hk]. eapply waits_for_before; eassumption.
    + exists m2. unfold bind. rewrite Hrun. auto.
Qed.

(** ** The whole expansion *)

(** A property that holds when the task is taken out of the graph and
    that every stored unit keeps holds after the loop over the units;
    the closing loop follows, and the expansion returns. *)
Lemma expansion_inv (job : string) (conf : jobconf) (a : ascii) (s : string)
    (n : nat) (deps : list string) (r : Z) (m : manager) (P : nat -> manager -> Prop) :
  od_get job (jobs_graph m) = Some conf ->
  parallel_arg conf = Some (String a s) ->
  parallelization m = Some n ->
  (forall outcome nextjobs nextjob,
     In (outcome, nextjobs) (default [] (on_finish conf)) -> In nextjob nextjobs ->
     nextjob <> "retry" -> nextjob <> job /\ od_mem nextjob (jobs_graph m) = true) ->
  P 0 (set_jobs_graph (od_del job (od_set job (with_parallel_arg None conf) (jobs_graph m))) m) ->
  (forall j ma mb, j < n -> P j ma ->
     rewired [] (successor_of (default [] (on_finish conf))) ma mb ->
     (j <> 0 -> forall x, successor_of (default [] (on_finish conf)) x ->
                   linked x (unit_name job j) mb) ->
     P (S j) (store_unit job (with_parallel_arg None conf)
                (default [] (required_resources conf)) (String a s) deps r
                (wait_time conf) n j mb)) ->
  exists m1 m2,
    P n m1
    /\ rewired [job] (waits_for job m1) m1 m2
    /\ for_each (od_keys (jobs_graph m1)) (rewire job n) m1 = Ok tt m2
    /\ _add_pending_job job deps r m = Ok tt m2.
Proof.
  intros Hjob Hpar Hn Hsucc H0 Hstep.
  unfold _add_pending_job. unfold bind at 1. unfold get_job at 1. rewrite Hjob, Hpar.
  unfold bind at 1. unfold update_job, modify at 1. rewrite Hjob.
  unfold bind at 1. unfold modify at 1.
  unfold bind at 1. unfold get at 1. cbn [parallelization set_jobs_graph]. rewrite Hn.
  match goal with |- exists _ _, _ /\ _ /\ _ /\ bind _ _ ?m0 = _ =>
    destruct (add_units_inv job (with_parallel_arg None conf)
                (default [] (required_resources conf)) (String a s) deps r
                (wait_time conf) n P Hstep n 0 m0) as (m1 & Hrun & HP)
  end.
  - lia.
  - intros o njs x Hin Hx Hne. simpl in Hin.
    destruct (Hsucc o njs x Hin Hx Hne) as [Hxj Hmem].
    unfold od_mem in *. simpl.
    rewrite od_get_del_ne, od_get_set_ne by congruence. exact Hmem.
  - exact H0.
  - destruct (rewire_loop job n m1 (od_keys (jobs_graph m1)) m1 (rewired_refl _ _ _))
      as (m2 & Hrun2 & Hrel).
    exists m1, m2. split; [exact HP|]. split; [exact Hrel|]. split; [exact Hrun2|].
    unfold bind at 1. rewrite Hrun.
    unfold bind at 1. unfold get at 1. exact Hrun2.
Qed.

Lemma unit_description_fields (conf : jobconf) (sets : list resource_set) (parg : string)
    (n i : nat) (c : jobconf) :
  with_wait_for None c
  = with_wait_for None (unit_description (with_parallel_arg None conf) sets parg n i) ->
  command c = command conf
  /\ init_args c
     = Some (default [] (init_args conf) ++ [replace_pct_d parg (str_of_nat i)])%list
  /\ retry_args c
     = ((fun l => l ++ [replace_pct_d parg (str_of_nat i)])%list <$> retry_args conf)
  /\ on_finish c = (if Nat.eqb i 0 then on_finish conf else only_retries <$> on_finish conf)
  /\ parallel_arg c = None
  /\ tags c = tags conf /\ units c = units conf /\ project_id c = project_id conf
  /\ retries c = retries conf /\ wait_time c = wait_time conf.
Proof.
  intros E.
  pose proof (f_equal command E) as H1. pose proof (f_equal init_args E) as H2.
  pose proof (f_equal retry_args E) as H3. pose proof (f_equal on_finish E) as H4.
  pose proof (f_equal parallel_arg E) as H5. pose proof (f_equal tags E) as H6.
  pose proof (f_equal units E) as H7. pose proof (f_equal project_id E) as H8.
  pose proof (f_equal retries E) as H9. pose proof (f_equal wait_time E) as H10.
  cbn [command init_args retry_args on_finish parallel_arg tags units project_id retries
       wait_time with_wait_for] in *.
  rewrite H1, H2, H3, H4, H5, H6, H7, H8, H9, H10.
  unfold unit_description, unit_conf.
  destruct conf as [cmd ia ra tg un pid rr wf wt rt onf pa].
  destruct ra, onf, (Nat.eqb i 0); cbn; repeat split; reflexivity.
Qed.

(** The expansion returns, and leaves the task out of the graph and
    every unit described. *)
Lemma expansion_describes_units (job : string) (conf : jobconf) (a : ascii) (s : string)
    (n : nat) (deps : list string) (r : Z) (m : manager) :
  od_get job (jobs_graph m) = Some conf ->
  parallel_arg conf = Some (String a s) ->
  parallelization m = Some n ->
  (forall outcome nextjobs nextjob,
     In (outcome, nextjobs) (default [] (on_finish conf)) -> In nextjob nextjobs ->
     nextjob <> "retry" -> nextjob <> job /\ od_mem nextjob (jobs_graph m) = true) ->
  exists m', _add_pending_job job deps r m = Ok tt m'
    /\ od_get job (jobs_graph m') = None
    /\ units_described job (with_parallel_arg None conf)
         (default [] (required_resources conf)) (String a s) deps r (wait_time conf) n n m'.
Proof.
  intros Hjob Hpar Hn Hsucc.
  destruct (expansion_inv job conf a s n deps r m
              (fun j m => od_get job (jobs_graph m) = None /\ parallelization m = Some n
                 /\ units_described job (with_parallel_arg None conf)
                      (default [] (required_resources conf)) (String a s) deps r
                      (wait_time conf) n j m)
              Hjob Hpar Hn Hsucc)
    as (m1 & m2 & (Hj1 & _ & Hu) & Hrel & _ & Hrun).
  - split; [apply od_get_del_eq|]. split; [exact Hn|]. intros i Hi. lia.
  - intros j ma mb _ HP Hr _. exact (described_step _ _ _ _ _ _ _ _ _ _ _ _ HP Hr).
  - exists m2. split; [exact Hrun|]. destruct Hrel as (_ & _ & _ & A & B & _). split.
    + apply (opt_rel_None (rewaits [job])). rewrite <- Hj1. apply A.
    + intros i Hi. destruct (Hu i Hi) as (c & p & Hc & Rc & Hp & Rp).
      pose proof (A (unit_name job i)) as Ai. rewrite Hc in Ai.
      apply opt_rel_Some in Ai. destruct Ai as (c1 & Hc1 & Rc1).
      pose proof (B (unit_name job i)) as Bi. rewrite Hp in Bi.
      apply opt_rel_Some in Bi. destruct Bi as (p1 & Hp1 & Rp1).
      exists c1, p1. split; [exact Hc1|].
      split; [eapply rewaits_trans; eassumption|].
      split; [exact Hp1 | eapply p_rewaits_trans; eassumption].
Qed.

(** X13. Fan-out replaces the task by its units in the graph.  When a
    task with a non-empty [parallel_arg] is made pending, with a
    parallelization of [n] and successors that are other jobs of the
    graph, [_add_pending_job] returns; the task is no longer in the graph,
    and each unit [job_i], [i < n], is: its description is the task's,
    with [parallel_arg] (its [%d] replaced by [i]) appended to
    [init_args], and to [retry_args] when the task has them, without
    [parallel_arg]; unit 0 keeps [on_finish], every other unit keeps only
    the ["retry"] entries of its lists. *)
Theorem fan_out_unit_descriptions (job : string) (conf : jobconf) (a : ascii) (s : string)
    (n : nat) (deps : list string) (r : Z) (m : manager) :
  od_get job (jobs_graph m) = Some conf ->
  parallel_arg conf = Some (String a s) ->
  parallelization m = Some n ->
  (forall outcome nextjobs nextjob,
     In (outcome, nextjobs) (default [] (on_finish conf)) -> In nextjob nextjobs ->
     nextjob <> "retry" -> nextjob <> job /\ od_mem nextjob (jobs_graph m) = true) ->
  exists m', _add_pending_job job deps r m = Ok tt m'
    /\ od_get job (jobs_graph m') = None
    /\ forall i, i < n ->
         exists c, od_get (unit_name job i) (jobs_graph m') = Some c
           /\ command c = command conf
           /\ init_args c
              = Some (default [] (init_args conf)
                      ++ [replace_pct_d (String a s) (str_of_nat i)])%list
           /\ retry_args c
              = ((fun l => l ++ [replace_pct_d (String a s) (str_of_nat i)])%list
                   <$> retry_args conf)
           /\ on_finish c
              = (if Nat.eqb i 0 then on_finish conf else only_retries <$> on_finish conf)
           /\ parallel_arg c = None
           /\ tags c = tags conf /\ units c = units conf /\ project_id c = project_id conf
           /\ retries c = retries conf /\ wait_time c = wait_time conf.
Proof.
  intros Hjob Hpar Hn Hsucc.
  destruct (expansion_describes_units job conf a s n deps r m Hjob Hpar Hn Hsucc)
    as (m' & Hrun & Hgone & Hu).
  exists m'. split; [exact Hrun|]. split; [exact Hgone|].
  intros i Hi. destruct (Hu i Hi) as (c & p & Hc & [Rc _] & _).
  exists c. split; [exact Hc|]. now apply unit_description_fields with (sets := default [] (required_resources conf)) (n := n).
Qed.

(** The successors of the example's fan-out task: [Q], a job of the
    graph. *)
Ltac fan_task_successors :=
  let E := fresh "E" in
  let Hx := fresh "Hx" in
  let Hne := fresh "Hne" in
  simpl; intros ? ? ? [E|[E|[]]] Hx Hne; inversion E; subst; simpl in Hx;
  [ destruct Hx as [<-|[]]; split; [discriminate | reflexivity]
  | destruct Hx as [<-|[<-|[]]]; [contradiction|]; split; [discriminate | reflexivity] ].

Lemma fan_out_unit_descriptions_witness :
  exists m', _add_pending_job "P" ["S"] 0 fan_manager = Ok tt m'
    /\ od_get "P" (jobs_graph m') = None
    /\ forall i, i < 3 ->
         exists c, od_get (unit_name "P" i) (jobs_graph m') = Some c
           /\ command c = "p.py"
           /\ init_args c = Some ["--in=x"; replace_pct_d "--part=%d" (str_of_nat i)]
           /\ retry_args c = Some ["--again"; replace_pct_d "--part=%d" (str_of_nat i)]
           /\ on_finish c
              = (if Nat.eqb i 0 then on_finish fan_task
                 else only_retries <$> on_finish fan_task)
           /\ parallel_arg c = None
           /\ tags c = None /\ units c = None /\ project_id c = None
           /\ retries c = Some 2%Z /\ wait_time c = None.
Proof.
  apply (fan_out_unit_descriptions "P" fan_task "-" "-part=%d" 3 ["S"] 0%Z fan_manager
           eq_refl eq_refl eq_refl).
  fan_task_successors.
Defined.

(** X14. Fan-out makes every unit pending.  Under the conditions of
    X13, each unit [job_i], [i < n], has a pending record with the task
    as [origin], the given retry count, the task's [wait_time], the
    task's resource sets divided by [n], and at least the requested
    dependencies (other than the task itself) in [wait_for]. *)
Theorem fan_out_pending_records (job : string) (conf : jobconf) (a : ascii) (s : string)
    (n : nat) (deps : list string) (r : Z) (m : manager) :
  od_get job (jobs_graph m) = Some conf ->
  parallel_arg conf = Some (String a s) ->
  parallelization m = Some n ->
  (forall outcome nextjobs nextjob,
     In (outcome, nextjobs) (default [] (on_finish conf)) -> In nextjob nextjobs ->
     nextjob <> "retry" -> nextjob <> job /\ od_mem nextjob (jobs_graph m) = true) ->
  exists m', _add_pending_job job deps r m = Ok tt m'
    /\ forall i, i < n ->
         exists p, od_get (unit_name job i) (pending_jobs m') = Some p
           /\ p_origin p = Some job
           /\ p_retries p = r
           /\ p_wait_time p = wait_time conf
           /\ p_required_resources p
              = unit_required_resources n (default [] (required_resources conf))
           /\ forall x, In x deps -> x <> job -> x ∈ p_wait_for p.
Proof.
  intros Hjob Hpar Hn Hsucc.
  destruct (expansion_describes_units job conf a s n deps r m Hjob Hpar Hn Hsucc)
    as (m' & Hrun & _ & Hu).
  exists m'. split; [exact Hrun|].
  intros i Hi. destruct (Hu i Hi) as (c & p & _ & _ & Hp & [E Hw]).
  exists p. split; [exact Hp|].
  pose proof (f_equal p_origin E) as H1. pose proof (f_equal p_retries E) as H2.
  pose proof (f_equal p_wait_time E) as H3.
  pose proof (f_equal p_required_resources E) as H4.
  cbn in H1, H2, H3, H4. repeat split; try assumption.
  intros x Hx Hne. apply Hw.
  - cbn. apply elem_of_list_to_set, list_elem_of_In, Hx.
  - intros [->|[]]. contradiction.
Qed.

Lemma fan_out_pending_records_witness :
  exists m', _add_pending_job "P" ["S"] 0 fan_manager = Ok tt m'
    /\ forall i, i < 3 ->
         exists p, od_get (unit_name "P" i) (pending_jobs m') = Some p
           /\ p_origin p = Some "P"
           /\ p_retries p = 0%Z
           /\ p_wait_time p = None
           /\ p_required_resources p = unit_required_resources 3 [[("cpu", Q2Qc 1)]]
           /\ forall x, In x ["S"] -> x <> "P" -> x ∈ p_wait_for p.
Proof.
  apply (fan_out_pending_records "P" fan_task "-" "-part=%d" 3 ["S"] 0%Z fan_manager
           eq_refl eq_refl eq_refl).
  fan_task_successors.
Defined.

Lemma unit_description_wait_for (base : jobconf) (sets : list resource_set) (parg : string)
    (n i : nat) :
  wait_for (unit_description base sets parg n i) = wait_for base.
Proof.
  unfold unit_description, unit_conf.
  destruct base as [cmd ia ra tg un pid rr wf wt rt onf pa].
  destruct ra, onf; reflexivity.
Qed.

Lemma od_mem_keys {V} (k : string) (d : odict V) :
  od_mem k d = false -> ~ In k (od_keys d).
Proof.
  unfold od_mem. intros H Hin. apply od_keys_get in Hin. destruct Hin as [v Hv].
  now rewrite Hv in H.
Qed.

(** X15. Fresh units wait for exactly what was asked.  When, besides
    the conditions of X13, no job of the graph has the name of a unit and
    the task does not wait for itself, each unit is stored with the
    task's own [wait_for] list in its description and with exactly the
    requested dependencies in its pending record. *)
Theorem fan_out_units_wait_as_requested (job : string) (conf : jobconf) (a : ascii)
    (s : string) (n : nat) (deps : list string) (r : Z) (m : manager) :
  od_get job (jobs_graph m) = Some conf ->
  parallel_arg conf = Some (String a s) ->
  parallelization m = Some n ->
  (forall outcome nextjobs nextjob,
     In (outcome, nextjobs) (default [] (on_finish conf)) -> In nextjob nextjobs ->
     nextjob <> "retry" -> nextjob <> job /\ od_mem nextjob (jobs_graph m) = true) ->
  (forall i, i < n -> od_mem (unit_name job i) (jobs_graph m) = false) ->
  ~ In job (default [] (wait_for conf)) ->
  exists m', _add_pending_job job deps r m = Ok tt m'
    /\ forall i, i < n ->
         exists c p,
           od_get (unit_name job i) (jobs_graph m') = Some c
           /\ wait_for c = wait_for conf
           /\ od_get (unit_name job i) (pending_jobs m') = Some p
           /\ p_wait_for p = list_to_set deps.
Proof.
  intros Hjob Hpar Hn Hsucc Hfresh Hself.
  destruct (expansion_inv job conf a s n deps r m
              (units_exact job (with_parallel_arg None conf)
                 (default [] (required_resources conf)) (String a s) deps r
                 (wait_time conf) n)
              Hjob Hpar Hn Hsucc)
    as (m1 & m2 & Hu & Hrel & _ & Hrun).
  - intros i Hi. lia.
  - intros j ma mb Hj HP Hr _.
    apply (exact_step _ _ _ _ _ _ _ _ _ _ ma mb) with (4 := Hr); [|exact Hj|exact HP].
    intros k i (o & njs & Hin & Hk & Hne) Hi ->.
    destruct (Hsucc o njs _ Hin Hk Hne) as [_ Hmem].
    rewrite (Hfresh i Hi) in Hmem. discriminate.
  - exists m2. split; [exact Hrun|]. intros i Hi.
    destruct (Hu i Hi) as [Hc Hp]. destruct Hrel as (_ & _ & _ & _ & _ & C).
    destruct (C (unit_name job i)) as [Ec Ep].
    { intros (c & Hc' & Hin). rewrite Hc in Hc'. inversion Hc'. subst c.
      rewrite unit_description_wait_for in Hin. exact (Hself Hin). }
    eexists _, _. split; [rewrite Ec; exact Hc|].
    split; [rewrite unit_description_wait_for; reflexivity|].
    split; [rewrite Ep; exact Hp | reflexivity].
Qed.

Lemma fan_out_units_wait_as_requested_witness :
  exists m', _add_pending_job "P" ["S"] 0 fan_manager = Ok tt m'
    /\ forall i, i < 3 ->
         exists c p,
           od_get (unit_name "P" i) (jobs_graph m') = Some c
           /\ wait_for c = Some ["S"]
           /\ od_get (unit_name "P" i) (pending_jobs m') = Some p
           /\ p_wait_for p = list_to_set ["S"].
Proof.
  apply (fan_out_units_wait_as_requested "P" fan_task "-" "-part=%d" 3 ["S"] 0%Z fan_manager
           eq_refl eq_refl eq_refl).
  - fan_task_successors.
  - intros i Hi. destruct i as [|[|[|i]]]; [reflexivity | reflexivity | reflexivity | lia].
  - simpl. intros [H|[]]. discriminate.
Defined.

(** ** Jobs that wait for the task *)

(** The iteration of the closing loop for a job that waits for the
    task. *)
Lemma rewire_self (job : string) (n : nat) (other : string) (c : jobconf) (m : manager) :
  od_get other (jobs_graph m) = Some c ->
  In job (default [] (wait_for c)) ->
  exists m', rewire job n other m = Ok tt m' /\ waits_for_units job n other m'.
Proof.
  intros Ho Hin. unfold rewire, bind, get. rewrite Ho.
  apply list_elem_of_In in Hin.
  unfold py_in. rewrite (bool_decide_eq_true_2 _ Hin).
  destruct (py_remove_elem _ _ Hin) as [wl' Hwl]. rewrite Hwl.
  unfold update_job, update_pending, modify. rewrite Ho.
  cbn [pending_jobs set_jobs_graph].
  eexists. split; [reflexivity|].
  eexists. split; [|split].
  - destruct (od_get other (pending_jobs m));
      cbn [jobs_graph set_pending_jobs set_jobs_graph]; apply od_get_set_eq.
  - intros i Hi. simpl. apply in_or_app. right. apply in_map, in_seq. lia.
  - intros p. destruct (od_get other (pending_jobs m)) as [p0|] eqn:Ep;
      cbn [pending_jobs set_pending_jobs set_jobs_graph].
    + rewrite od_get_set_eq. intros E. inversion E. subst p. simpl. split.
      * intros H. apply elem_of_union in H. destruct H as [H|H].
        -- apply elem_of_difference in H. destruct H as [_ H]. apply H.
           now apply elem_of_singleton.
        -- apply elem_of_list_to_set, list_elem_of_In, in_map_iff in H.
           destruct H as (i & Hi & _). exact (unit_name_not_job _ _ Hi).
      * intros i Hi. apply elem_of_union_r, elem_of_list_to_set, list_elem_of_In.
        apply in_map, in_seq. lia.
    + rewrite Ep. discriminate.
Qed.

Lemma rewire_done_keeps (job : string) (n : nat) (other x : string) (m : manager) :
  waits_for_units job n other m ->
  exists m', rewire job n x m = Ok tt m' /\ waits_for_units job n other m'.
Proof.
  intros Hd. destruct (string_dec x other) as [->|Hne].
  - pose proof Hd as (c & Hc & _).
    destruct (in_dec string_dec job (default [] (wait_for c))) as [Hin|Hn].
    + eapply rewire_self; eassumption.
    + exists m. split; [|exact Hd]. unfold rewire, bind, get. rewrite Hc.
      unfold py_in. rewrite bool_decide_eq_false_2; [reflexivity|].
      intros H. apply Hn. now apply list_elem_of_In.
  - destruct (rewire_rewired job n x m) as (m' & Hrun & (_ & _ & _ & _ & _ & C)).
    exists m'. split; [exact Hrun|].
    destruct (C other) as [Eg Ep]; [intros [H _]; congruence|].
    destruct Hd as (c & Hc & Hu & Hp). exists c.
    split; [congruence|]. split; [exact Hu|]. intros p. rewrite Ep. apply Hp.
Qed.

Lemma rewire_loop_done (job : string) (n : nat) (other : string) (l : list string) :
  forall m,
  waits_for_units job n other m ->
  exists m', for_each l (rewire job n) m = Ok tt m' /\ waits_for_units job n other m'.
Proof.
  induction l as [|x l IH]; intros m Hd; simpl.
  - exists m. auto.
  - destruct (rewire_done_keeps job n other x m Hd) as (m1 & Hrun & Hd1).
    destruct (IH m1 Hd1) as (m2 & Hrun2 & Hd2).
    exists m2. unfold bind. rewrite Hrun. auto.
Qed.

(** The closing loop reaches every job of the graph that waits for the
    task. *)
Lemma rewire_loop_reaches (job : string) (n : nat) (other : string) (l : list string) :
  forall m,
  In other l ->
  waits_for job m other ->
  exists m', for_each l (rewire job n) m = Ok tt m' /\ waits_for_units job n other m'.
Proof.
  induction l as [|x l IH]; intros m Hin Hw; simpl; [contradiction|].
  destruct (string_dec x other) as [->|Hne].
  - destruct Hw as (c & Hc & Hj).
    destruct (rewire_self job n other c m Hc Hj) as (m1 & Hrun & Hd).
    destruct (rewire_loop_done job n other l m1 Hd) as (m2 & Hrun2 & Hd2).
    exists m2. unfold bind. rewrite Hrun. auto.
  - destruct (rewire_rewired job n x m) as (m1 & Hrun & (_ & _ & _ & _ & _ & C)).
    destruct (C other) as [Eg _]; [intros [H _]; congruence|].
    destruct (IH m1) as (m2 & Hrun2 & Hd2).
    + destruct Hin as [H|H]; [contradiction | exact H].
    + destruct Hw as (c & Hc & Hj). exists c. split; [congruence | exact Hj].
    + exists m2. unfold bind. rewrite Hrun. auto.
Qed.

(** X16. Jobs that wait for a fan-out task wait for all of its units.
    Under the conditions of X13, a job of the graph (not the task, not
    named like one of its units) whose description has the task in
    [wait_for] ends with every unit [job_i], [i < n], in that list; when
    it is pending, its pending record names every unit and no longer the
    task. *)
Theorem fan_out_dependents_wait_for_units (job : string) (conf : jobconf) (a : ascii)
    (s : string) (n : nat) (deps : list string) (r : Z) (m : manager)
    (other : string) (oconf : jobconf) :
  od_get job (jobs_graph m) = Some conf ->
  parallel_arg conf = Some (String a s) ->
  parallelization m = Some n ->
  (forall outcome nextjobs nextjob,
     In (outcome, nextjobs) (default [] (on_finish conf)) -> In nextjob nextjobs ->
     nextjob <> "retry" -> nextjob <> job /\ od_mem nextjob (jobs_graph m) = true) ->
  od_get other (jobs_graph m) = Some oconf ->
  In job (default [] (wait_for oconf)) ->
  other <> job ->
  (forall i, i < n -> other <> unit_name job i) ->
  exists m' c,
    _add_pending_job job deps r m = Ok tt m'
    /\ od_get other (jobs_graph m') = Some c
    /\ (forall i, i < n -> In (unit_name job i) (default [] (wait_for c)))
    /\ forall p, od_get other (pending_jobs m') = Some p ->
         (job ∉ p_wait_for p) /\ forall i, i < n -> unit_name job i ∈ p_wait_for p.
Proof.
  intros Hjob Hpar Hn Hsucc Ho Hin Hoj Hou.
  destruct (expansion_inv job conf a s n deps r m
              (fun _ => others_kept job n
                 (set_jobs_graph
                    (od_del job (od_set job (with_parallel_arg None conf) (jobs_graph m))) m))
              Hjob Hpar Hn Hsucc)
    as (m1 & m2 & Hk & _ & Hloop & Hrun).
  - intros k _. split; [apply opt_rel_refl, rewaits_refl | apply opt_rel_refl, p_rewaits_refl].
  - intros j ma mb Hj HP Hr _. eapply others_step; eassumption.
  - destruct (Hk other Hou) as [Hc _]. cbn [jobs_graph set_jobs_graph] in Hc.
    rewrite od_get_del_ne, od_get_set_ne, Ho in Hc by congruence.
    apply opt_rel_Some in Hc. destruct Hc as (c1 & Hc1 & [_ Hmono]).
    destruct (rewire_loop_reaches job n other (od_keys (jobs_graph m1)) m1)
      as (m2' & Hloop' & (c & Hc & Hu & Hp)).
    + eapply od_get_keys. exact Hc1.
    + exists c1. split; [exact Hc1|]. apply Hmono; [exact Hin | intros []].
    + rewrite Hloop in Hloop'. inversion Hloop'. subst m2'.
      exists m2, c. auto.
Qed.

Lemma fan_out_dependents_wait_for_units_witness :
  exists m' c,
    _add_pending_job "P" ["S"] 0 fan_manager = Ok tt m'
    /\ od_get "R" (jobs_graph m') = Some c
    /\ (forall i, i < 3 -> In (unit_name "P" i) (default [] (wait_for c)))
    /\ forall p, od_get "R" (pending_jobs m') = Some p ->
         ("P" ∉ p_wait_for p) /\ forall i, i < 3 -> unit_name "P" i ∈ p_wait_for p.
Proof.
  apply (fan_out_dependents_wait_for_units "P" fan_task "-" "-part=%d" 3 ["S"] 0%Z
           fan_manager "R"
           (JobConf "r.py" None None None None None None (Some ["P"]) None None None None)
           eq_refl eq_refl eq_refl).
  - fan_task_successors.
  - reflexivity.
  - simpl. now left.
  - discriminate.
  - intros i _. unfold unit_name. simpl. discriminate.
Defined.

(** X17. Fan-out appends the units in order.  Under the conditions of
    X13, when no unit name is in the graph or pending, the keys of the
    graph afterwards are the former keys without the task, followed by
    [job_0 .. job_(n-1)], and the keys of the pending map are the former
    ones followed by the same units: the units are scheduled after what
    was already pending, in order. *)
Theorem fan_out_appends_units (job : string) (conf : jobconf) (a : ascii)
    (s : string) (n : nat) (deps : list string) (r : Z) (m : manager) :
  od_get job (jobs_graph m) = Some conf ->
  parallel_arg conf = Some (String a s) ->
  parallelization m = Some n ->
  (forall outcome nextjobs nextjob,
     In (outcome, nextjobs) (default [] (on_finish conf)) -> In nextjob nextjobs ->
     nextjob <> "retry" -> nextjob <> job /\ od_mem nextjob (jobs_graph m) = true) ->
  (forall i, i < n -> od_mem (unit_name job i) (jobs_graph m) = false) ->
  (forall i, i < n -> od_mem (unit_name job i) (pending_jobs m) = false) ->
  exists m', _add_pending_job job deps r m = Ok tt m'
    /\ od_keys (jobs_graph m')
       = (List.filter (fun x => negb (String.eqb x job)) (od_keys (jobs_graph m))
          ++ map (unit_name job) (seq 0 n))%list
    /\ od_keys (pending_jobs m')
       = (od_keys (pending_jobs m) ++ map (unit_name job) (seq 0 n))%list.
Proof.
  intros Hjob Hpar Hn Hsucc Hfg Hfp.
  assert (od_keys (od_del job (od_set job (with_parallel_arg None conf) (jobs_graph m)))
          = List.filter (fun x => negb (String.eqb x job)) (od_keys (jobs_graph m))) as Hk0.
  { rewrite od_keys_del. f_equal. eapply od_keys_set_present. exact Hjob. }
  destruct (expansion_inv job conf a s n deps r m
              (units_appended job
                 (set_jobs_graph
                    (od_del job (od_set job (with_parallel_arg None conf) (jobs_graph m))) m))
              Hjob Hpar Hn Hsucc)
    as (m1 & m2 & [Kg Kp] & (_ & G & Q & _) & _ & Hrun).
  - split; simpl; now rewrite app_nil_r.
  - intros j ma mb Hj HP Hr _. eapply appended_step; try eassumption.
    + intros i Hi. cbn [jobs_graph set_jobs_graph]. rewrite Hk0.
      intros H. apply filter_In in H. destruct H as [H _].
      exact (od_mem_keys _ _ (Hfg i Hi) H).
    + intros i Hi. cbn [pending_jobs set_jobs_graph]. apply od_mem_keys, Hfp, Hi.
  - exists m2. split; [exact Hrun|].
    cbn [jobs_graph pending_jobs set_jobs_graph] in Kg, Kp. rewrite Hk0 in Kg.
    split; congruence.
Qed.

Lemma fan_out_appends_units_witness :
  exists m', _add_pending_job "P" ["S"] 0 fan_manager = Ok tt m'
    /\ od_keys (jobs_graph m')
       = (List.filter (fun x => negb (String.eqb x "P")) (od_keys (jobs_graph fan_manager))
          ++ map (unit_name "P") (seq 0 3))%list
    /\ od_keys (pending_jobs m')
       = (od_keys (pending_jobs fan_manager) ++ map (unit_name "P") (seq 0 3))%list.
Proof.
  apply (fan_out_appends_units "P" fan_task "-" "-part=%d" 3 ["S"] 0%Z fan_manager
           eq_refl eq_refl eq_refl).
  - fan_task_successors.
  - intros i Hi. destruct i as [|[|[|i]]]; [reflexivity | reflexivity | reflexivity | lia].
  - intros i Hi. destruct i as [|[|[|i]]]; [reflexivity | reflexivity | reflexivity | lia].
Defined.

(** ** Successors of the task *)

Lemma linked_store (job : string) (base : jobconf) (sets : list resource_set)
    (parg : string) (deps : list string) (r : Z) (t : option Q) (n j : nat) (m : manager)
    (x u : string) :
  x <> unit_name job j ->
  linked x u m -> linked x u (store_unit job base sets parg deps r t n j m).
Proof.
  intros Hx [(c & Hc & Hin) Hp].
  assert (String.eqb (unit_name job j) x = false) as E
    by (apply String.eqb_neq; congruence).
  split.
  - exists c. rewrite store_unit_graph, E. auto.
  - intros p. rewrite store_unit_pending, E. apply Hp.
Qed.

(** X18. The successors of a fan-out task wait for the units that lost
    them.  Under the conditions of X13, when no job of the graph has the
    name of a unit, every successor named in the task's [on_finish]
    (other than ["retry"]) ends with each unit [job_i], [0 < i < n], in
    the [wait_for] list of its description, and in its pending record
    when it is pending: started by unit 0, it waits for all the others. *)
Theorem fan_out_successors_wait_for_units (job : string) (conf : jobconf) (a : ascii)
    (s : string) (n : nat) (deps : list string) (r : Z) (m : manager)
    (outcome : string) (nextjobs : list string) (x : string) :
  od_get job (jobs_graph m) = Some conf ->
  parallel_arg conf = Some (String a s) ->
  parallelization m = Some n ->
  (forall outcome nextjobs nextjob,
     In (outcome, nextjobs) (default [] (on_finish conf)) -> In nextjob nextjobs ->
     nextjob <> "retry" -> nextjob <> job /\ od_mem nextjob (jobs_graph m) = true) ->
  (forall i, i < n -> od_mem (unit_name job i) (jobs_graph m) = false) ->
  In (outcome, nextjobs) (default [] (on_finish conf)) ->
  In x nextjobs ->
  x <> "retry" ->
  exists m' c,
    _add_pending_job job deps r m = Ok tt m'
    /\ od_get x (jobs_graph m') = Some c
    /\ (forall i, 0 < i -> i < n -> In (unit_name job i) (default [] (wait_for c)))
    /\ forall p, od_get x (pending_jobs m') = Some p ->
         forall i, 0 < i -> i < n -> unit_name job i ∈ p_wait_for p.
Proof.
  intros Hjob Hpar Hn Hsucc Hfresh Hin Hx Hne.
  destruct (Hsucc _ _ _ Hin Hx Hne) as [Hxj Hxm].
  assert (forall i, i < n -> x <> unit_name job i) as Hxu.
  { intros i Hi ->. rewrite (Hfresh i Hi) in Hxm. discriminate. }
  assert (successor_of (default [] (on_finish conf)) x) as Hsx
    by (exists outcome, nextjobs; auto).
  destruct (expansion_inv job conf a s n deps r m
              (fun j mc => (exists c, od_get x (jobs_graph mc) = Some c)
                           /\ forall i, 0 < i -> i < j -> linked x (unit_name job i) mc)
              Hjob Hpar Hn Hsucc)
    as (m1 & m2 & [(c1 & Hc1) Hl1] & Hrel & _ & Hrun).
  - split; [|intros i Hi; lia].
    cbn [jobs_graph set_jobs_graph]. rewrite od_get_del_ne, od_get_set_ne by congruence.
    unfold od_mem in Hxm. destruct (od_get x (jobs_graph m)); [eauto | discriminate].
  - intros j ma mb Hj [(c & Hc) Hl] Hr Hlink. split.
    + pose proof Hr as (_ & _ & _ & A & _). specialize (A x). rewrite Hc in A.
      apply opt_rel_Some in A. destruct A as (c' & Hc' & _).
      exists c'. rewrite store_unit_graph.
      replace (String.eqb (unit_name job j) x) with false
        by (symmetry; apply String.eqb_neq; intros E; apply (Hxu j Hj); now symmetry).
      exact Hc'.
    + intros i Hi0 Hi. apply linked_store; [now apply Hxu|].
      destruct (decide (i = j)) as [->|Hij].
      * apply Hlink; [lia | exact Hsx].
      * eapply linked_rewired; [|exact Hr|]; [intros []|]. apply Hl; lia.
  - pose proof Hrel as (_ & _ & _ & A & _). specialize (A x). rewrite Hc1 in A.
    apply opt_rel_Some in A. destruct A as (c2 & Hc2 & _).
    assert (forall i, 0 < i -> i < n -> linked x (unit_name job i) m2) as Hl2.
    { intros i Hi0 Hi. eapply linked_rewired; [|exact Hrel|]; [|now apply Hl1].
      intros [E|[]]. exact (unit_name_not_job _ _ (eq_sym E)). }
    exists m2, c2. split; [exact Hrun|]. split; [exact Hc2|]. split.
    + intros i Hi0 Hi. destruct (Hl2 i Hi0 Hi) as [(c & Hc & Hinc) _].
      rewrite Hc2 in Hc. inversion Hc. now subst.
    + intros p Hp i Hi0 Hi. destruct (Hl2 i Hi0 Hi) as [_ Hpl]. now apply Hpl.
Qed.

Lemma fan_out_successors_wait_for_units_witness :
  exists m' c,
    _add_pending_job "P" ["S"] 0 fan_manager = Ok tt m'
    /\ od_get "Q" (jobs_graph m') = Some c
    /\ (forall i, 0 < i -> i < 3 -> In (unit_name "P" i) (default [] (wait_for c)))
    /\ forall p, od_get "Q" (pending_jobs m') = Some p ->
         forall i, 0 < i -> i < 3 -> unit_name "P" i ∈ p_wait_for p.
Proof.
  apply (fan_out_successors_wait_for_units "P" fan_task "-" "-part=%d" 3 ["S"] 0%Z
           fan_manager "default" ["Q"] "Q" eq_refl eq_refl eq_refl).
  - fan_task_successors.
  - intros i Hi. destruct i as [|[|[|i]]]; [reflexivity | reflexivity | reflexivity | lia].
  - simpl. now left.
  - simpl. now left.
  - discriminate.
Defined.

(* ================================================================== *)
(** * Releasing what a job holds *)
(* ================================================================== *)

Lemma py_remove_first {A} `{EqDecision A} (x : A) (pre post : list A) :
  ~ In x pre -> py_remove x (pre ++ x :: post)%list = Some (pre ++ post)%list.
Proof.
  induction pre as [|y pre IH]; intros Hn; simpl.
  - now rewrite decide_True.
  - rewrite decide_False by (intros ->; apply Hn; now left).
    rewrite IH; [reflexivity|]. intros Hin. apply Hn. now right.
Qed.

Lemma entries_but_free (job : string) (pre : list (string * Qc)) :
  (forall e, In e pre -> e.1 <> job) -> entries_but job pre = pre.
Proof.
  induction pre as [|e pre IH]; intros H; simpl; [reflexivity|].
  rewrite (proj2 (String.eqb_neq _ _) (H e (or_introl eq_refl))). simpl.
  f_equal. apply IH. intros e' He'. apply H. now right.
Qed.

Lemma entries_of_free (job : string) (pre : list (string * Qc)) :
  (forall e, In e pre -> e.1 <> job) -> entries_of job pre = [].
Proof.
  induction pre as [|e pre IH]; intros H; simpl; [reflexivity|].
  rewrite (proj2 (String.eqb_neq _ _) (H e (or_introl eq_refl))).
  apply IH. intros e' He'. apply H. now right.
Qed.

Lemma entries_but_in (job : string) (held : list (string * Qc)) (e : string * Qc) :
  In e (entries_but job held) -> e.1 <> job.
Proof.
  unfold entries_but. intros H. apply filter_In in H. destruct H as [_ H].
  apply negb_true_iff in H. now apply String.eqb_neq.
Qed.

(** What one scan leaves of the ledger of [res_name]: started behind
    entries of other jobs, it takes the entries of [job] out, and gives
    their amounts back. *)
Lemma release_scan_apart (job res_name : string) (fuel : nat) :
  forall (pre suf : list (string * Qc)) (m : manager),
  held_for res_name m = (pre ++ suf)%list ->
  (forall e, In e pre -> e.1 <> job) ->
  apart job suf = true ->
  (entries_of job suf <> [] -> is_Some (available_resources m !! res_name)) ->
  length suf <= fuel ->
  exists m',
    release_scan job res_name fuel (length pre) m = Ok tt m'
    /\ held_for res_name m' = (pre ++ entries_but job suf)%list
    /\ available_resources m' !! res_name
       = ((fun v => v + amounts_sum (entries_of job suf))%Qc
            <$> available_resources m !! res_name)
    /\ forall r, r <> res_name ->
         held_for r m' = held_for r m
         /\ available_resources m' !! r = available_resources m !! r.
Proof.
  induction fuel as [|fuel IH]; intros pre suf m Hheld Hfree Hap Hav Hlen.
  - destruct suf; [|simpl in Hlen; lia]. exists m. split; [reflexivity|].
    split; [exact Hheld|]. split; [|auto].
    destruct (available_resources m !! res_name); simpl; [|reflexivity].
    f_equal. change (amounts_sum []) with (Q2Qc 0). ring.
  - rewrite release_scan_S. fold (held_for res_name m). rewrite Hheld.
    destruct suf as [|[rjob a] suf].
    { rewrite app_nil_r, (lookup_ge_None_2 pre (length pre)) by lia.
      exists m. split; [reflexivity|]. split; [now rewrite Hheld|]. split; [|auto].
      destruct (available_resources m !! res_name); simpl; [|reflexivity].
      f_equal. change (amounts_sum []) with (Q2Qc 0). ring. }
    rewrite list_lookup_middle by reflexivity.
    destruct (String.eqb rjob job) eqn:E.
    + apply String.eqb_eq in E. subst rjob.
      destruct Hav as [v Hv]; [unfold entries_of; simpl; rewrite String.eqb_refl; discriminate|].
      rewrite Hv. rewrite py_remove_first.
      2:{ intros Hin. now apply (Hfree _ Hin). }
      destruct suf as [|e' suf].
      * eexists. split.
        { destruct fuel; [reflexivity|]. rewrite release_scan_S.
          unfold held_for. cbn [acquired_resources set_acquired set_available].
          rewrite od_get_set_eq. cbn [from_option id].
          rewrite app_nil_r, lookup_ge_None_2 by lia. reflexivity. }
        split; [rewrite held_for_set, String.eqb_refl; simpl; now rewrite String.eqb_refl|].
        split.
        { simpl. rewrite lookup_insert_eq, String.eqb_refl. simpl. f_equal. ring. }
        intros r Hr. rewrite held_for_set.
        replace (String.eqb res_name r) with false
          by (symmetry; apply String.eqb_neq; congruence).
        split; [reflexivity|]. simpl. now rewrite lookup_insert_ne by congruence.
      * simpl in Hap. rewrite String.eqb_refl in Hap. simpl in Hap.
        apply andb_true_iff in Hap. destruct Hap as [He' Hap].
        apply negb_true_iff in He'.
        match goal with |- exists _, release_scan _ _ _ _ ?m1 = _ /\ _ =>
          destruct (IH (pre ++ [e'])%list suf m1) as (m' & Hrun & Hh & Ha & Hfr)
        end.
        { rewrite held_for_set, String.eqb_refl. now rewrite <- app_assoc. }
        { intros e He. apply in_app_or in He. destruct He as [He|[<-|[]]];
            [now apply Hfree | now apply String.eqb_neq]. }
        { destruct suf; [reflexivity|]. simpl in Hap.
          apply andb_true_iff in Hap. apply Hap. }
        { intros _. simpl. rewrite lookup_insert_eq. eauto. }
        { simpl in Hlen. lia. }
        exists m'. split.
        { rewrite length_app, Nat.add_1_r in Hrun. exact Hrun. }
        split.
        { rewrite Hh. simpl. rewrite String.eqb_refl, He'. simpl.
          now rewrite <- app_assoc. }
        split.
        { rewrite Ha. cbn [available_resources set_acquired set_available].
          rewrite lookup_insert_eq. unfold entries_of. cbn [List.filter fst].
          rewrite String.eqb_refl, He'. simpl. f_equal. ring. }
        intros r Hr. destruct (Hfr r Hr) as [H1 H2]. rewrite H1, H2, held_for_set.
        replace (String.eqb res_name r) with false
          by (symmetry; apply String.eqb_neq; congruence).
        split; [reflexivity|]. simpl. now rewrite lookup_insert_ne by congruence.
    + destruct (IH (pre ++ [(rjob, a)])%list suf m) as (m' & Hrun & Hh & Ha & Hfr).
      { now rewrite <- app_assoc. }
      { intros e He. apply in_app_or in He. destruct He as [He|[<-|[]]];
          [now apply Hfree | now apply String.eqb_neq]. }
      { destruct suf; [reflexivity|]. simpl in Hap. rewrite E in Hap. simpl in Hap.
        exact Hap. }
      { intros Hne. apply Hav. simpl. now rewrite E. }
      { simpl in Hlen. lia. }
      exists m'. split.
      { rewrite length_app, Nat.add_1_r in Hrun. exact Hrun. }
      split; [rewrite Hh; simpl; rewrite E; simpl; now rewrite <- app_assoc|].
      split; [rewrite Ha; simpl; now rewrite E | exact Hfr].
Qed.

(** One iteration of the outer loop: the resource visited is given
    back, the others stay as they are. *)
Lemma release_resource_apart (job k : string) (m0 m : manager) :
  releasable job m0 ->
  (forall r, as_before m0 m r \/ given_back job m0 m r) ->
  exists m',
    release_resource job k m = Ok tt m'
    /\ given_back job m0 m' k
    /\ (forall r, as_before m0 m' r \/ given_back job m0 m' r)
    /\ (forall r, given_back job m0 m r -> given_back job m0 m' r).
Proof.
  intros Hrel Hall. destruct (Hall k) as [[Hh Ha]|[Hh Ha]].
  - destruct (Hrel k) as [Hap Hav].
    destruct (release_scan_apart job k (length (held_for k m)) [] (held_for k m0) m)
      as (m' & Hrun & Hh' & Ha' & Hfr).
    + exact Hh.
    + intros e [].
    + exact Hap.
    + intros Hne. rewrite Ha. now apply Hav.
    + now rewrite Hh.
    + assert (given_back job m0 m' k) as Hk.
      { split; [exact Hh'|]. now rewrite Ha', Ha. }
      exists m'. split; [exact Hrun|]. split; [exact Hk|]. split.
      * intros r. destruct (decide (r = k)) as [->|Hr]; [now right|].
        destruct (Hfr r Hr) as [E1 E2].
        destruct (Hall r) as [[H1 H2]|[H1 H2]]; [left | right]; split; congruence.
      * intros r [H1 H2]. destruct (decide (r = k)) as [->|Hr]; [exact Hk|].
        destruct (Hfr r Hr) as [E1 E2]. split; congruence.
  - exists m. split; [|split; [split; assumption|split; [exact Hall | auto]]].
    apply release_resource_nothing. rewrite Hh. intros e. apply entries_but_in.
Qed.

Lemma release_loop_apart (job : string) (m0 : manager) (ks : list string) :
  releasable job m0 ->
  forall m,
  (forall r, as_before m0 m r \/ given_back job m0 m r) ->
  exists m',
    for_each ks (release_resource job) m = Ok tt m'
    /\ (forall k, In k ks -> given_back job m0 m' k)
    /\ (forall r, as_before m0 m' r \/ given_back job m0 m' r)
    /\ (forall r, given_back job m0 m r -> given_back job m0 m' r).
Proof.
  intros Hrel. induction ks as [|k ks IH]; intros m Hall; simpl.
  - exists m. split; [reflexivity|]. split; [intros k []|]. auto.
  - destruct (release_resource_apart job k m0 m Hrel Hall) as (m1 & Hrun & Hk & Hall1 & Hkeep1).
    destruct (IH m1 Hall1) as (m2 & Hrun2 & Hks & Hall2 & Hkeep2).
    exists m2. unfold bind. rewrite Hrun. split; [exact Hrun2|].
    split; [|split; [exact Hall2 | auto]].
    intros k' [<-|Hin]; [now apply Hkeep2 | now apply Hks].
Qed.

(** X19. A release gives back what the job holds.  When the entries of
    [job] in the acquired ledger are apart (no two next to each other in
    the list of a resource) and every resource it holds has an available
    amount, [_release_resources] returns; under every resource the entries
    of [job] are gone and those of the other jobs are left in order, and
    the available amount grew by the sum of the amounts [job] held; the
    graph and the pending and running maps are untouched. *)
Theorem release_returns_holdings (job : string) (m : manager) :
  releasable job m ->
  exists m',
    _release_resources job m = Ok tt m'
    /\ same_jobs m m'
    /\ holds_nothing job m'
    /\ forall r,
         held_for r m' = entries_but job (held_for r m)
         /\ available_resources m' !! r
            = ((fun v => v + amounts_sum (entries_of job (held_for r m)))%Qc
                 <$> available_resources m !! r).
Proof.
  intros Hrel. unfold _release_resources.
  destruct (release_loop_apart job m (od_keys (acquired_resources m)) Hrel m)
    as (m' & Hrun & Hks & Hall & _).
  { intros r. left. split; reflexivity. }
  assert (forall r, given_back job m m' r) as Hdone.
  { intros r. destruct (Hall r) as [[H1 H2]|H]; [|exact H].
    destruct (od_get r (acquired_resources m)) as [l|] eqn:E.
    - apply Hks. eapply od_get_keys. exact E.
    - assert (held_for r m = []) as Hn by (unfold held_for; now rewrite E).
      split; [now rewrite H1, Hn|]. rewrite H2, Hn.
      destruct (available_resources m !! r); simpl; [|reflexivity].
      f_equal. change (amounts_sum []) with (Q2Qc 0). ring. }
  exists m'. split; [exact Hrun|]. split.
  - pose proof (release_same_jobs job m) as Hs. unfold _release_resources in Hs.
    now rewrite Hrun in Hs.
  - split; [|exact Hdone]. intros r e He.
    destruct (Hdone r) as [Hh _]. rewrite Hh in He. eapply entries_but_in. exact He.
Qed.

Lemma release_returns_holdings_witness :
  exists m',
    _release_resources "X" twice_manager = Ok tt m'
    /\ same_jobs twice_manager m'
    /\ holds_nothing "X" m'
    /\ forall r,
         held_for r m' = entries_but "X" (held_for r twice_manager)
         /\ available_resources m' !! r
            = ((fun v => v + amounts_sum (entries_of "X" (held_for r twice_manager)))%Qc
                 <$> available_resources twice_manager !! r).
Proof.
  apply (release_returns_holdings "X" twice_manager).
  intros r.
  change (held_for r twice_manager)
    with (default [] (if String.eqb "cpu" r
                      then Some [("X", Q2Qc 1); ("Y", Q2Qc 1); ("X", Q2Qc 2)]
                      else if String.eqb "mem" r then Some [("Y", Q2Qc 1)] else None)).
  destruct (String.eqb "cpu" r) eqn:E.
  - apply String.eqb_eq in E. subst r. split; [reflexivity|].
    intros _. exists (Q2Qc 0). vm_compute. reflexivity.
  - destruct (String.eqb "mem" r); (split; [reflexivity|]); intros H; now contradiction H.
Defined.

(* ================================================================== *)
(** * Finished jobs and the dependencies on them *)
(* ================================================================== *)

Lemma od_get_map {V} (f : string -> V -> V) (k : string) (d : odict V) :
  od_get k (od_map f d) = (f k <$> od_get k d).
Proof.
  induction d as [|[k' v] d IH]; simpl; [reflexivity|].
  destruct (String.eqb k' k) eqn:E; [|exact IH].
  apply String.eqb_eq in E. now subst.
Qed.

Lemma py_remove_NoDup {A} `{EqDecision A} (x : A) (l l' : list A) :
  py_remove x l = Some l' -> NoDup l -> NoDup l' /\ ~ In x l'.
Proof.
  revert l'. induction l as [|z l IH]; simpl; intros l' H Hnd; [discriminate|].
  apply NoDup_cons in Hnd. destruct Hnd as [Hz Hl].
  destruct (decide (z = x)) as [->|Hne].
  - inversion H; subst. split; [exact Hl|]. intros Hin. apply Hz. now apply list_elem_of_In.
  - destruct (py_remove x l) as [r|] eqn:Er; [|discriminate].
    inversion H; subst. destruct (IH r eq_refl Hl) as [Hr Hx]. split.
    + apply NoDup_cons. split; [|exact Hr]. intros Hin. apply Hz.
      apply list_elem_of_In. apply list_elem_of_In in Hin.
      exact (py_remove_subset _ _ _ Er _ Hin).
    + intros [E|Hin]; [congruence | contradiction].
Qed.

Lemma py_remove_None {A} `{EqDecision A} (x : A) (l : list A) :
  py_remove x l = None -> ~ In x l.
Proof.
  intros H Hin. apply list_elem_of_In in Hin.
  destruct (py_remove_elem x l Hin) as [r Hr]. congruence.
Qed.

Lemma for_each_ok_inv {A} (P : manager -> Prop) (body : A -> M unit) (l : list A) :
  (forall x m m', P m -> body x m = Ok tt m' -> P m') ->
  forall m m', P m -> for_each l body m = Ok tt m' -> P m'.
Proof.
  intros Hbody. induction l as [|x l IH]; intros m m' Hm; simpl.
  - intros H. inversion H. now subst.
  - unfold bind. destruct (body x m) as [[] m1|e m1] eqn:E; [|discriminate].
    apply IH. eapply Hbody; eassumption.
Qed.

(** ** Making jobs pending *)

Lemma enqueues_refl (m : manager) : enqueues m m.
Proof. split; [reflexivity|]. split; [eauto | auto]. Qed.

Lemma enqueues_trans (m1 m2 m3 : manager) :
  enqueues m1 m2 -> enqueues m2 m3 -> enqueues m1 m3.
Proof.
  intros (R1 & G1 & P1) (R2 & G2 & P2). split; [congruence|]. split.
  - intros k c3 H3. destruct (G2 k c3 H3) as (c2 & H2 & W2 & F2).
    destruct (G1 k c2 H2) as (c1 & H1 & W1 & F1).
    exists c1. split; [exact H1|]. split; [congruence | auto].
  - intros k p H3. destruct (P2 k p H3) as [H2|(j & c2 & Hj & Hw)]; [now apply P1|].
    right. destruct (G1 j c2 Hj) as (c1 & H1 & W1 & _).
    exists j, c1. split; [exact H1|]. now rewrite <- W1.
Qed.

Lemma enqueues_plain (m m' : manager) :
  enqueues m m' -> plain_graph m -> plain_graph m'.
Proof.
  intros (_ & G & _) Hp k c' Hc'. destruct (G k c' Hc') as (c & Hc & _ & F). eauto.
Qed.

Lemma enqueues_distinct (m m' : manager) :
  enqueues m m' -> distinct_waits m -> distinct_waits m'.
Proof.
  intros (_ & G & _) Hd k c' Hc'. destruct (G k c' Hc') as (c & Hc & W & _).
  rewrite W. eauto.
Qed.

Lemma enqueues_nobody (m m' : manager) (x : string) :
  enqueues m m' -> nobody_waits_for x m -> nobody_waits_for x m'.
Proof.
  intros (_ & G & P) [Hg Hp]. split.
  - intros k c' Hc'. destruct (G k c' Hc') as (c & Hc & W & _). rewrite W. eauto.
  - intros k p Hk. destruct (P k p Hk) as [H|(j & c & Hj & Hw)]; [eauto|].
    intros Hx. exact (Hg j c Hj (Hw x Hx)).
Qed.

(** Making a job that is not a fan-out task pending. *)
Lemma add_pending_plain_state (job : string) (conf : jobconf) (deps : list string) (r : Z)
    (m : manager) :
  od_get job (jobs_graph m) = Some conf ->
  truthy (parallel_arg conf) = false ->
  _add_pending_job job deps r m
  = Ok tt (set_pending_jobs
             (od_set job
                (PendingJob (list_to_set deps) r (default [] (required_resources conf))
                   None (wait_time conf))
                (pending_jobs m))
             (set_jobs_graph (od_set job (with_parallel_arg None conf) (jobs_graph m)) m)).
Proof.
  intros Hjob Hpar.
  unfold _add_pending_job, update_job, modify, bind, get_job. rewrite Hjob. simpl.
  rewrite Hjob.
  destruct (parallel_arg conf) as [[|? ?]|]; try discriminate; reflexivity.
Qed.

Lemma add_pending_enqueues (job : string) (deps : list string) (r : Z) (m m' : manager)
    (j : string) (cj : jobconf) :
  plain_graph m ->
  od_get j (jobs_graph m) = Some cj ->
  (forall x, In x deps -> In x (default [] (wait_for cj))) ->
  _add_pending_job job deps r m = Ok tt m' ->
  enqueues m m'.
Proof.
  intros Hplain Hj Hdeps.
  destruct (od_get job (jobs_graph m)) as [conf|] eqn:Hjob.
  2:{ unfold _add_pending_job, bind, get_job. rewrite Hjob. discriminate. }
  rewrite (add_pending_plain_state job conf deps r m Hjob (Hplain job conf Hjob)).
  intros H. inversion H. subst m'. clear H.
  split; [reflexivity|]. split.
  - intros k c'. cbn [jobs_graph set_pending_jobs set_jobs_graph]. rewrite od_get_set.
    destruct (String.eqb job k) eqn:E.
    + apply String.eqb_eq in E. subst k. intros H. inversion H. subst c'.
      exists conf. split; [exact Hjob|]. split; reflexivity.
    + intros H. exists c'. auto.
  - intros k p'. cbn [jobs_graph pending_jobs set_pending_jobs set_jobs_graph].
    rewrite od_get_set. destruct (String.eqb job k).
    + intros H. inversion H. subst p'. right. exists j, cj. split; [exact Hj|].
      intros x Hx. simpl in Hx. apply elem_of_list_to_set, list_elem_of_In in Hx. auto.
    + auto.
Qed.

Lemma decrement_retries_enqueues (job : string) (m m' : manager) :
  decrement_retries job m = Ok tt m' -> enqueues m m'.
Proof.
  unfold decrement_retries, update_job, modify.
  destruct (od_get job (jobs_graph m)) as [c|] eqn:E; intros H; inversion H; subst m';
    [|apply enqueues_refl].
  split; [reflexivity|]. split; [|auto].
  intros k c'. cbn [jobs_graph set_jobs_graph]. rewrite od_get_set.
  destruct (String.eqb job k) eqn:E'.
  - apply String.eqb_eq in E'. subst k. intros H'. inversion H'. subst c'.
    exists c. split; [exact E|]. split; [reflexivity | auto].
  - intros H'. exists c'. auto.
Qed.

(** What happens to one successor of a finished job. *)
Lemma handle_next_enqueues (job nextjob : string) (m m' : manager) :
  plain_graph m -> handle_next job nextjob m = Ok tt m' -> enqueues m m'.
Proof.
  intros Hplain. unfold handle_next.
  destruct (String.eqb nextjob "retry").
  - unfold bind at 1. unfold get_job.
    destruct (od_get job (jobs_graph m)) as [conf|] eqn:Hjob; [|discriminate].
    destruct (0 <? default 0 (retries conf))%Z.
    + unfold bind.
      destruct (_add_pending_job job [] 1 m) as [[] m1|e m1] eqn:Ea; [|discriminate].
      intros Hd. eapply enqueues_trans.
      * eapply (add_pending_enqueues job [] 1 m m1 job conf); try eassumption.
        intros x [].
      * eapply decrement_retries_enqueues. exact Hd.
    + intros H. inversion H. apply enqueues_refl.
  - unfold bind at 1. unfold get at 1.
    destruct (od_mem nextjob (pending_jobs m)).
    + intros H. inversion H. apply enqueues_refl.
    + unfold bind, get_job.
      destruct (od_get nextjob (jobs_graph m)) as [c|] eqn:Hc; [|discriminate].
      intros Ha. eapply (add_pending_enqueues nextjob _ 0 m m' nextjob c); eauto.
Qed.

Lemma handle_all_enqueues (job : string) (nextjobs : list string) :
  forall m m',
  plain_graph m -> for_each nextjobs (handle_next job) m = Ok tt m' -> enqueues m m'.
Proof.
  induction nextjobs as [|x l IH]; intros m m' Hplain; simpl.
  - intros H. inversion H. apply enqueues_refl.
  - unfold bind. destruct (handle_next job x m) as [[] m1|e m1] eqn:E; [|discriminate].
    intros H. pose proof (handle_next_enqueues job x m m1 Hplain E) as H1.
    eapply enqueues_trans; [exact H1|].
    apply IH; [eapply enqueues_plain; eassumption | exact H].
Qed.

(** ** A finished job *)

(** The two loops that take the finished job out of the
    dependencies. *)
Lemma discard_dependency_clean (job : string) (m : manager) :
  exists m1,
    discard_dependency job m = Ok tt m1
    /\ running_jobs m1 = running_jobs m
    /\ (plain_graph m -> plain_graph m1)
    /\ (distinct_waits m -> distinct_waits m1 /\ nobody_waits_for job m1)
    /\ (forall x, nobody_waits_for x m -> nobody_waits_for x m1).
Proof.
  unfold discard_dependency, bind, modify. eexists. split; [reflexivity|].
  split; [reflexivity|].
  unfold plain_graph, distinct_waits, nobody_waits_for.
  cbn [jobs_graph pending_jobs set_pending_jobs set_jobs_graph].
  assert (forall k c1,
            od_get k
              (od_map (fun _ conf =>
                 match wait_for conf with
                 | Some l => match py_remove job l with
                             | Some l' => with_wait_for (Some l') conf
                             | None => conf
                             end
                 | None => conf
                 end) (jobs_graph m)) = Some c1 ->
            exists c, od_get k (jobs_graph m) = Some c
              /\ parallel_arg c1 = parallel_arg c
              /\ (forall x, In x (default [] (wait_for c1)) -> In x (default [] (wait_for c)))
              /\ (NoDup (default [] (wait_for c)) ->
                  NoDup (default [] (wait_for c1))
                  /\ ~ In job (default [] (wait_for c1)))) as Hg.
  { intros k c1. rewrite od_get_map.
    destruct (od_get k (jobs_graph m)) as [c|]; [|discriminate].
    simpl. intros H. inversion H. subst c1. clear H. exists c. split; [reflexivity|].
    destruct (wait_for c) as [l|] eqn:Ew.
    - destruct (py_remove job l) as [l'|] eqn:Er.
      + split; [reflexivity|]. simpl. split.
        * intros x. apply (py_remove_subset _ _ _ Er).
        * intros Hnd. exact (py_remove_NoDup _ _ _ Er Hnd).
      + rewrite Ew. split; [reflexivity|]. split; [auto|]. intros Hnd.
        split; [exact Hnd | exact (py_remove_None _ _ Er)].
    - rewrite Ew. split; [reflexivity|]. split; [auto|]. simpl. intros Hnd.
      split; [exact Hnd | intros []]. }
  assert (forall k p1,
            od_get k
              (od_map (fun _ conf => with_p_wait_for (p_wait_for conf ∖ {[job]}) conf)
                 (pending_jobs m)) = Some p1 ->
            exists p, od_get k (pending_jobs m) = Some p
              /\ p_wait_for p1 = p_wait_for p ∖ {[job]}) as Hp.
  { intros k p1. rewrite od_get_map.
    destruct (od_get k (pending_jobs m)) as [p|]; [|discriminate].
    simpl. intros H. inversion H. exists p. auto. }
  split; [|split].
  - intros Hplain k c1 Hc1. destruct (Hg k c1 Hc1) as (c & Hc & Hpar & _).
    rewrite Hpar. eauto.
  - intros Hd. split.
    + intros k c1 Hc1. destruct (Hg k c1 Hc1) as (c & Hc & _ & _ & Hnd).
      apply (Hnd (Hd k c Hc)).
    + split.
      * intros k c1 Hc1. destruct (Hg k c1 Hc1) as (c & Hc & _ & _ & Hnd).
        apply (Hnd (Hd k c Hc)).
      * intros k p1 Hp1. destruct (Hp k p1 Hp1) as (p & _ & ->).
        intros H. apply elem_of_difference in H. destruct H as [_ H].
        apply H. now apply elem_of_singleton.
  - intros x [Hxg Hxp]. split.
    + intros k c1 Hc1. destruct (Hg k c1 Hc1) as (c & Hc & _ & Hsub & _).
      intros Hin. exact (Hxg k c Hc (Hsub x Hin)).
    + intros k p1 Hp1. destruct (Hp k p1 Hp1) as (p & Hpk & ->).
      intros H. apply elem_of_difference in H. destruct H as [H _].
      exact (Hxp k p Hpk H).
Qed.

Lemma get_next_jobs_state (job outcome : string) (l : list string) (m m' : manager) :
  _get_next_jobs job outcome m = Ok l m' -> m' = m.
Proof.
  unfold _get_next_jobs, bind, get, get_job.
  destruct (only_starting_jobs m); [intros H; now inversion H|].
  destruct (od_get job (jobs_graph m)) as [c|]; [|discriminate].
  destruct (od_get outcome (default [] (on_finish c))); [intros H; now inversion H|].
  destruct (py_in outcome (failed_outcomes m)); intros H; now inversion H.
Qed.

(** After the handling of a finished job nobody waits for it, also not
    the jobs it made pending. *)
Lemma finish_job_clean (job outcome : string) (m m' : manager) :
  plain_graph m -> distinct_waits m ->
  finish_job job outcome m = Ok tt m' ->
  running_jobs m' = od_del job (running_jobs m)
  /\ plain_graph m' /\ distinct_waits m'
  /\ nobody_waits_for job m'
  /\ forall x, nobody_waits_for x m -> nobody_waits_for x m'.
Proof.
  intros Hplain Hdist. unfold finish_job. unfold bind at 1.
  destruct (discard_dependency_clean job m) as (m1 & -> & Hr1 & Hp1 & Hd1 & Hn1).
  specialize (Hp1 Hplain). destruct (Hd1 Hdist) as [Hdist1 Hjob1].
  unfold bind at 1.
  destruct (_get_next_jobs job outcome m1) as [l m1'|e m1'] eqn:En; [|discriminate].
  apply get_next_jobs_state in En. subst m1'.
  unfold bind at 1.
  destruct (for_each l (handle_next job) m1) as [[] m2|e m2] eqn:Eh; [|discriminate].
  pose proof (handle_all_enqueues job l m1 m2 Hp1 Eh) as Henq.
  unfold bind at 1.
  pose proof (release_same_jobs job m2) as Hs.
  destruct (_release_resources job m2) as [[] m3|e m3]; [|discriminate].
  simpl in Hs. destruct Hs as (Eg & Ep & Er & _).
  unfold pop_running. destruct (od_get job (running_jobs m3)); [|discriminate].
  intros H. inversion H. subst m'. clear H.
  assert (forall P : manager -> Prop,
            (forall ma mb, jobs_graph mb = jobs_graph ma -> pending_jobs mb = pending_jobs ma ->
                           P ma -> P mb) ->
            P m2 -> P (set_running_jobs (od_del job (running_jobs m3)) m3)) as Hmove.
  { intros P HP H2. apply (HP m2); [exact Eg | exact Ep | exact H2]. }
  assert (forall x ma mb, jobs_graph mb = jobs_graph ma -> pending_jobs mb = pending_jobs ma ->
            nobody_waits_for x ma -> nobody_waits_for x mb) as Hnw.
  { intros x ma mb E1 E2 [H1 H2]. split; [rewrite E1 | rewrite E2]; assumption. }
  split; [simpl; destruct Henq as (Rq & _); congruence|].
  split; [|split; [|split]].
  - apply (Hmove plain_graph).
    + intros ma mb E1 _ H k c. rewrite E1. apply H.
    + eapply enqueues_plain; eassumption.
  - apply (Hmove distinct_waits).
    + intros ma mb E1 _ H k c. rewrite E1. apply H.
    + eapply enqueues_distinct; eassumption.
  - apply (Hmove (nobody_waits_for job)); [apply Hnw|].
    eapply enqueues_nobody; eassumption.
  - intros x Hx. apply (Hmove (nobody_waits_for x)); [apply Hnw|].
    eapply enqueues_nobody; [exact Henq | auto].
Qed.

Lemma od_mem_del {V} (k job : string) (d : odict V) :
  od_mem k (od_del job d) = false -> k = job \/ od_mem k d = false.
Proof.
  unfold od_mem. destruct (string_dec job k) as [->|Hne]; [now left|].
  rewrite od_get_del_ne by exact Hne. now right.
Qed.

Lemma plain_graphb_sound (m : manager) : plain_graphb m = true -> plain_graph m.
Proof.
  unfold plain_graphb. intros H k c Hc. apply od_get_values in Hc.
  rewrite forallb_forall in H. specialize (H c Hc). now apply negb_true_iff in H.
Qed.

Lemma distinct_waitsb_sound (m : manager) : distinct_waitsb m = true -> distinct_waits m.
Proof.
  unfold distinct_waitsb. intros H k c Hc. apply od_get_values in Hc.
  rewrite forallb_forall in H. specialize (H c Hc). now apply bool_decide_eq_true_1 in H.
Qed.

(** X20. Nobody waits for a job that finished.  In a graph without
    fan-out tasks whose [wait_for] lists name no job twice, when
    [check_running_jobs] returns, every job that left the running map
    during the call is named by no pending record and by no [wait_for]
    list of the graph: neither by the jobs that were pending, nor by the
    successors that the call made pending. *)
Theorem finished_jobs_leave_dependencies (w : world) (m m' : manager) :
  plain_graph m ->
  distinct_waits m ->
  check_running_jobs w m = Ok tt m' ->
  forall job,
    od_mem job (running_jobs m) = true ->
    od_mem job (running_jobs m') = false ->
    nobody_waits_for job m'.
Proof.
  intros Hplain Hdist Hrun.
  unfold check_running_jobs, bind, get in Hrun.
  pose (Inv := fun mc : manager =>
          plain_graph mc /\ distinct_waits mc /\
          forall job, od_mem job (running_jobs m) = true ->
                      od_mem job (running_jobs mc) = false -> nobody_waits_for job mc).
  assert (Inv m') as (_ & _ & H).
  { apply (for_each_ok_inv Inv (check_running_job w) (running_jobs m)) with (m := m);
      [| |exact Hrun].
    - intros [j jobid] mc mc' (Hp & Hd & Hn). unfold check_running_job, bind.
      cbn [fst snd].
      destruct (is_finished w (io_count mc) jobid) as [o|].
      + intros Hf.
        destruct (finish_job_clean j o (tick_io mc) mc' Hp Hd Hf)
          as (Hr & Hp' & Hd' & Hj & Hkeep).
        split; [exact Hp'|]. split; [exact Hd'|].
        intros job Hwas Hnow. rewrite Hr in Hnow.
        apply od_mem_del in Hnow. destruct Hnow as [->|Hnow]; [exact Hj|].
        apply Hkeep. apply (Hn job Hwas Hnow).
      + intros Hf. inversion Hf. subst mc'. split; [exact Hp|]. split; [exact Hd|].
        exact Hn.
    - split; [exact Hplain|]. split; [exact Hdist|].
      intros job Hwas Hnow. congruence. }
  exact H.
Qed.

Lemma finished_jobs_leave_dependencies_witness :
  nobody_waits_for "A"
    (final_state (check_running_jobs finishing_backend finishing_manager)).
Proof.
  apply (finished_jobs_leave_dependencies finishing_backend finishing_manager
           (final_state (check_running_jobs finishing_backend finishing_manager))).
  - apply plain_graphb_sound. reflexivity.
  - apply distinct_waitsb_sound. reflexivity.
  - vm_compute. reflexivity.
  - reflexivity.
  - vm_compute. reflexivity.
Defined.

(* ================================================================== *)
(** * Jobs that are ready *)
(* ================================================================== *)

Lemma in_insert_sorted (k x : string) (l : list string) :
  x = k \/ In x l -> In x (insert_sorted k l).
Proof.
  induction l as [|y l IH]; simpl.
  - intros [->|[]]. now left.
  - destruct (String.leb k y); simpl.
    + intros [->|H]; [now left | now right].
    + intros [->|[->|H]]; [right; apply IH; now left | now left | right; apply IH; now right].
Qed.

Lemma in_sorted (x : string) (l : list string) : In x l -> In x (sorted l).
Proof.
  unfold sorted. induction l as [|y l IH]; simpl; [auto|].
  intros [->|H]; apply in_insert_sorted; [now left | right; now apply IH].
Qed.

Lemma no_cap_capacity (m : manager) :
  (forall k, max_running_jobs m <> Some (S k)) -> at_capacity m = false.
Proof.
  intros H. unfold at_capacity. destruct (max_running_jobs m) as [[|k]|]; try reflexivity.
  now contradiction (H k).
Qed.

Lemma ready_same_jobs (job : string) (m m' : manager) :
  same_jobs m m' -> ready job m -> ready job m'.
Proof.
  intros (Eg & Ep & _ & _ & _ & Ec & _) (Hc & Hp & Hg).
  split; [now rewrite Ec|]. split; [now rewrite Ep | now rewrite Eg].
Qed.

(** A ready job passes the test of the first loop, which changes
    nothing. *)
Lemma can_run_a_ready (w : world) (job : string) (p : pending_job) (m : manager) :
  ready job m -> od_get job (pending_jobs m) = Some p ->
  can_run_a w job p m = Ok true m.
Proof.
  intros (_ & (p' & Hp' & Hw & Ht) & (conf & Hc & Hr)) Hp.
  assert (p' = p) as -> by congruence.
  unfold can_run_a. rewrite bool_decide_eq_true_2 by exact Hw.
  unfold bind, _must_wait_time, bind, pending_conf. rewrite Hp, Ht.
  unfold ret, _try_acquire_resources, bind, get_job. rewrite Hc, Hr. reflexivity.
Qed.

(** The first loop never takes a job out of the running map, nor puts
    one back in the pending map. *)
Lemma pass_a_keeps_started (w : world) (job : string) (jobs : list string) :
  forall m m', started job m -> pass_a w jobs m = Ok tt m' -> started job m'.
Proof.
  induction jobs as [|job' rest IH]; intros m m' Hs.
  - intros H. inversion H. now subst.
  - rewrite pass_a_step.
    destruct (at_capacity m); [intros H; inversion H; now subst|].
    destruct (od_get job' (pending_jobs m)) as [conf'|] eqn:Ep'; [|discriminate].
    pose proof (can_run_a_same_jobs w job' conf' m) as (_ & Hp1 & Hr1 & _).
    destruct (can_run_a w job' conf' m) as [[] m1|e m1]; simpl in Hp1, Hr1; [| |discriminate].
    + destruct (start_job_cases w job' conf' m1)
        as [(jobid & m2 & -> & (_ & Hp2 & Hr2 & _))|(e & m2 & -> & _)]; [|discriminate].
      apply IH. destruct Hs as [Hsp Hsr]. split.
      * cbn [pending_jobs set_running_jobs set_pending_jobs]. rewrite Hp2, Hp1.
        destruct (string_dec job' job) as [->|Hne];
          [apply od_get_del_eq | now rewrite od_get_del_ne].
      * cbn [running_jobs set_running_jobs]. apply od_mem_set. now rewrite Hr2, Hr1.
    + apply IH. destruct Hs as [Hsp Hsr]. split; [now rewrite Hp1 | now rewrite Hr1].
Qed.

(** The first loop starts a ready job when it comes to it. *)
Lemma pass_a_starts_ready (w : world) (job : string) (jobs : list string) :
  forall m m',
  ready job m -> In job jobs -> pass_a w jobs m = Ok tt m' -> started job m'.
Proof.
  induction jobs as [|job' rest IH]; intros m m' Hr Hin; [destruct Hin|].
  rewrite pass_a_step. rewrite no_cap_capacity by apply Hr.
  destruct (od_get job' (pending_jobs m)) as [conf'|] eqn:Ep'; [|discriminate].
  destruct (string_dec job' job) as [->|Hne].
  - rewrite (can_run_a_ready w job conf' m Hr Ep').
    destruct (start_job_cases w job conf' m)
      as [(jobid & m2 & -> & _)|(e & m2 & -> & _)]; [|discriminate].
    apply pass_a_keeps_started. split.
    + cbn [pending_jobs set_running_jobs set_pending_jobs]. apply od_get_del_eq.
    + cbn [running_jobs set_running_jobs]. unfold od_mem. now rewrite od_get_set_eq.
  - destruct Hin as [E|Hin]; [contradiction|].
    pose proof (can_run_a_same_jobs w job' conf' m) as Hs1.
    destruct (can_run_a w job' conf' m) as [[] m1|e m1]; simpl in Hs1; [| |discriminate].
    + destruct (start_job_cases w job' conf' m1)
        as [(jobid & m2 & -> & Hs2)|(e & m2 & -> & _)]; [|discriminate].
      apply IH; [|exact Hin].
      pose proof (ready_same_jobs job m m2 (same_jobs_trans _ _ _ Hs1 Hs2) Hr)
        as (Hc & (p & Hp & Hw & Ht) & Hg).
      split; [exact Hc|]. split; [|exact Hg].
      exists p. cbn [pending_jobs set_running_jobs set_pending_jobs].
      rewrite od_get_del_ne by exact Hne. auto.
    + apply IH; [|exact Hin]. eapply ready_same_jobs; eassumption.
Qed.

(** X21. A ready job is started.  When no cap on running jobs is set,
    a pending job with no dependency left and no timer whose description
    asks for no resource is started by every [run_pending_jobs] that
    returns: it left the pending map and is in the running map. *)
Theorem ready_job_is_started (w : world) (job : string) (m m' : manager) :
  ready job m ->
  run_pending_jobs w m = Ok tt m' ->
  started job m'.
Proof.
  intros Hr. unfold run_pending_jobs. unfold bind at 1. unfold get at 1.
  unfold bind at 1.
  destruct (pass_a w (sorted (od_keys (pending_jobs m))) m) as [[] m1|e m1] eqn:Ea;
    [|discriminate].
  assert (started job m1) as Hs.
  { apply (pass_a_starts_ready w job (sorted (od_keys (pending_jobs m))) m m1 Hr); [|exact Ea].
    destruct Hr as (_ & (p & Hp & _) & _). apply in_sorted. eapply od_get_keys. exact Hp. }
  unfold bind at 1. unfold get at 1.
  assert (enters_pass_b m1 = false) as ->.
  { unfold enters_pass_b. destruct Hs as [_ Hrun]. unfold od_mem in Hrun.
    destruct (running_jobs m1); [discriminate|].
    simpl. now rewrite orb_true_r. }
  intros H. inversion H. now subst.
Qed.

Lemma ready_job_is_started_witness :
  started "B" (final_state (run_pending_jobs idle_backend ready_manager)).
Proof.
  apply (ready_job_is_started idle_backend "B" ready_manager).
  - split; [discriminate|]. split.
    + exists (waiting [] None None). split; [reflexivity|]. split; reflexivity.
    + exists (plain_job "b.py"). split; reflexivity.
  - vm_compute. reflexivity.
Defined.

(* ================================================================== *)
(** * Reading the starting jobs back *)
(* ================================================================== *)

Lemma scan_job_cmd_rendered (l : list cli_option) :
  forall acc,
  forallb plain_option l = true ->
  scan_job_cmd (map render_option l) false acc
  = (acc ++ map Some (starting_jobs_of l))%list.
Proof.
  induction l as [|o l IH]; intros acc Hl.
  - simpl. now rewrite app_nil_r.
  - cbn [forallb] in Hl. apply andb_true_iff in Hl. destruct Hl as [Ho Hl].
    destruct o as [task|text]; cbn [plain_option] in Ho;
      cbn [map render_option scan_job_cmd starting_jobs_of flat_map].
    + apply andb_true_iff in Ho. destruct Ho as [Hne Hdot].
      apply String.eqb_eq in Hdot.
      destruct task as [|c task]; [simpl in Hne; discriminate|].
      rewrite (starting_job_match_equals c task Hdot).
      fold (starting_jobs_of l). rewrite IH by exact Hl.
      cbn [map app]. now rewrite <- app_assoc.
    + unfold starting_job_match.
      destruct (strip_prefix "--starting-job" text); [discriminate|].
      fold (starting_jobs_of l). cbn [app]. now apply IH.
Qed.

(** X22. The starting jobs are read back from a recorded command line.
    For a command line whose options are starting jobs in the form
    [--starting-job=<task>] (the task not empty, without line feed) and
    options that do not begin with [--starting-job],
    [_get_starting_jobs_from_resumed_job] returns exactly the tasks, in
    the order given. *)
Theorem starting_jobs_read_back (l : list cli_option) :
  forallb plain_option l = true ->
  _get_starting_jobs_from_resumed_job (map render_option l)
  = map Some (starting_jobs_of l).
Proof.
  intros Hl. unfold _get_starting_jobs_from_resumed_job.
  now rewrite scan_job_cmd_rendered.
Qed.

Lemma starting_jobs_read_back_witness :
  _get_starting_jobs_from_resumed_job
    ["manager.py"; "--starting-job=A"; "--max-running-jobs=2"; "--starting-job=B"]
  = [Some "A"; Some "B"].
Proof.
  apply (starting_jobs_read_back
           [OtherOption "manager.py"; StartingJob "A"; OtherOption "--max-running-jobs=2";
            StartingJob "B"]).
  reflexivity.
Defined.

(* ================================================================== *)
(** * Timers *)
(* ================================================================== *)




(* ================================================================== *)
(** * Successors of finished jobs *)
(* ================================================================== *)

Lemma same_successors_refl (c : jobconf) : same_successors c c.
Proof. split; auto. Qed.

Lemma same_successors_trans (a b c : jobconf) :
  same_successors a b -> same_successors b c -> same_successors a c.
Proof. intros [E1 F1] [E2 F2]. split; [congruence | auto]. Qed.

Lemma follows_refl (m : manager) : follows m m.
Proof.
  repeat split; auto. intros k. apply opt_rel_refl, same_successors_refl.
Qed.

Lemma follows_trans (m1 m2 m3 : manager) :
  follows m1 m2 -> follows m2 m3 -> follows m1 m3.
Proof.
  intros (I1 & O1 & F1 & G1 & P1) (I2 & O2 & F2 & G2 & P2).
  split; [congruence|]. split; [congruence|]. split; [congruence|]. split; [|auto].
  intros k. eapply opt_rel_trans; [apply same_successors_trans | apply G1 | apply G2].
Qed.

Lemma follows_plain (m m' : manager) : follows m m' -> plain_graph m -> plain_graph m'.
Proof.
  intros (_ & _ & _ & G & _) Hp k c' Hc'. specialize (G k). rewrite Hc' in G.
  apply opt_rel_Some_r in G. destruct G as (c & Hc & _ & F). eauto.
Qed.

(** Rewriting one description without touching its successors. *)
Lemma set_job_follows (k : string) (c c' : jobconf) (m : manager) :
  od_get k (jobs_graph m) = Some c -> same_successors c c' ->
  follows m (set_jobs_graph (od_set k c' (jobs_graph m)) m).
Proof.
  intros Hc Hs. repeat split; auto.
  intros k'. cbn [jobs_graph set_jobs_graph]. rewrite od_get_set.
  destruct (String.eqb k k') eqn:E.
  - apply String.eqb_eq in E. subst k'. now rewrite Hc.
  - apply opt_rel_refl, same_successors_refl.
Qed.

Lemma set_pending_follows (k : string) (p : pending_job) (m : manager) :
  follows m (set_pending_jobs (od_set k p (pending_jobs m)) m).
Proof.
  repeat split; auto.
  - intros k'. apply opt_rel_refl, same_successors_refl.
  - intros k'. cbn [pending_jobs set_pending_jobs]. apply od_mem_set.
Qed.

Lemma add_pending_follows (job : string) (deps : list string) (r : Z) (m m' : manager) :
  plain_graph m ->
  _add_pending_job job deps r m = Ok tt m' ->
  follows m m' /\ od_mem job (pending_jobs m') = true.
Proof.
  intros Hplain.
  destruct (od_get job (jobs_graph m)) as [conf|] eqn:Hjob.
  2:{ unfold _add_pending_job, bind, get_job. rewrite Hjob. discriminate. }
  rewrite (add_pending_plain_state job conf deps r m Hjob (Hplain job conf Hjob)).
  intros H. inversion H. subst m'. clear H. split.
  - eapply follows_trans;
      [|apply (set_pending_follows job _
                 (set_jobs_graph (od_set job (with_parallel_arg None conf) (jobs_graph m)) m))].
    apply (set_job_follows job conf); [exact Hjob | split; auto].
  - cbn [pending_jobs set_pending_jobs]. unfold od_mem. now rewrite od_get_set_eq.
Qed.

Lemma decrement_retries_follows (job : string) (m m' : manager) :
  decrement_retries job m = Ok tt m' -> follows m m'.
Proof.
  unfold decrement_retries, update_job, modify.
  destruct (od_get job (jobs_graph m)) as [c|] eqn:E; intros H; inversion H; subst m';
    [|apply follows_refl].
  apply (set_job_follows job c); [exact E | split; auto].
Qed.

(** One successor: it is pending afterwards, and no job left the
    pending map. *)
Lemma handle_next_follows (job nextjob : string) (m m' : manager) :
  plain_graph m -> handle_next job nextjob m = Ok tt m' ->
  follows m m' /\ (nextjob <> "retry" -> od_mem nextjob (pending_jobs m') = true).
Proof.
  intros Hplain. unfold handle_next.
  destruct (String.eqb nextjob "retry") eqn:Er.
  - apply String.eqb_eq in Er. unfold bind at 1. unfold get_job.
    destruct (od_get job (jobs_graph m)) as [conf|] eqn:Hjob; [|discriminate].
    destruct (0 <? default 0 (retries conf))%Z.
    + unfold bind.
      destruct (_add_pending_job job [] 1 m) as [[] m1|e m1] eqn:Ea; [|discriminate].
      intros Hd. split; [|congruence].
      eapply follows_trans; [apply (add_pending_follows job [] 1 m m1 Hplain Ea)|].
      eapply decrement_retries_follows. exact Hd.
    + intros H. inversion H. split; [apply follows_refl | congruence].
  - unfold bind at 1. unfold get at 1.
    destruct (od_mem nextjob (pending_jobs m)) eqn:Em.
    + intros H. inversion H. subst m'. split; [apply follows_refl | auto].
    + unfold bind, get_job.
      destruct (od_get nextjob (jobs_graph m)) as [c|] eqn:Hc; [|discriminate].
      intros Ha. destruct (add_pending_follows nextjob _ 0 m m' Hplain Ha). auto.
Qed.

Lemma handle_all_follows (job : string) (nextjobs : list string) :
  forall m m',
  plain_graph m -> for_each nextjobs (handle_next job) m = Ok tt m' ->
  follows m m'
  /\ forall x, In x nextjobs -> x <> "retry" -> od_mem x (pending_jobs m') = true.
Proof.
  induction nextjobs as [|y l IH]; intros m m' Hplain; simpl.
  - intros H. inversion H. split; [apply follows_refl | intros x []].
  - unfold bind. destruct (handle_next job y m) as [[] m1|e m1] eqn:E; [|discriminate].
    intros H. destruct (handle_next_follows job y m m1 Hplain E) as [F1 Hy].
    destruct (IH m1 m' (follows_plain _ _ F1 Hplain) H) as [F2 Hl].
    split; [eapply follows_trans; eassumption|].
    intros x [<-|Hin] Hne; [|now apply Hl].
    destruct F2 as (_ & _ & _ & _ & P). apply P. now apply Hy.
Qed.

Lemma discard_dependency_follows (job : string) (m : manager) :
  exists m1, discard_dependency job m = Ok tt m1 /\ follows m m1.
Proof.
  unfold discard_dependency, bind, modify. eexists. split; [reflexivity|].
  repeat split; auto.
  - intros k. cbn [jobs_graph set_jobs_graph set_pending_jobs]. rewrite od_get_map.
    destruct (od_get k (jobs_graph m)) as [c|]; simpl; [|exact I].
    destruct (wait_for c) as [l|]; [|apply same_successors_refl].
    destruct (py_remove job l); [split; auto | apply same_successors_refl].
  - intros k. cbn [pending_jobs set_pending_jobs set_jobs_graph]. unfold od_mem.
    rewrite od_get_map. now destruct (od_get k (pending_jobs m)).
Qed.

Lemma release_scan_io (job res_name : string) (fuel : nat) :
  forall i m, io_count (final_state (release_scan job res_name fuel i m)) = io_count m.
Proof.
  induction fuel as [|fuel IH]; intros i m; simpl; [reflexivity|].
  destruct (default [] (od_get res_name (acquired_resources m)) !! i)
    as [[rjob res_amount]|]; [|reflexivity].
  destruct (String.eqb rjob job); [|apply IH].
  destruct (available_resources m !! res_name) as [v|]; [|reflexivity].
  destruct (py_remove (rjob, res_amount) _); [|reflexivity].
  now rewrite IH.
Qed.

Lemma release_follows (job : string) (m m' : manager) :
  _release_resources job m = Ok tt m' -> follows m m'.
Proof.
  intros Hrun. pose proof (release_same_jobs job m) as Hs. rewrite Hrun in Hs. simpl in Hs.
  destruct Hs as (Eg & Ep & _ & Ef & _ & _ & Eo).
  assert (io_count m' = io_count m) as Ei.
  { unfold _release_resources in Hrun.
    assert (io_count (final_state
                        (for_each (od_keys (acquired_resources m)) (release_resource job) m))
            = io_count m) as H.
    { apply (for_each_final_inv (fun mc => io_count mc = io_count m)); [|reflexivity].
      intros r mc Hmc. unfold release_resource. now rewrite release_scan_io. }
    now rewrite Hrun in H. }
  split; [exact Ei|]. split; [exact Eo|]. split; [exact Ef|]. split.
  - intros k. rewrite Eg. apply opt_rel_refl, same_successors_refl.
  - intros k. now rewrite Ep.
Qed.

Lemma get_next_jobs_follows (job outcome : string) (m m' : manager) :
  follows m m' ->
  forall l, _get_next_jobs job outcome m = Ok l m -> _get_next_jobs job outcome m' = Ok l m'.
Proof.
  intros (_ & Eo & Ef & G & _) l. unfold _get_next_jobs, bind, get, get_job.
  rewrite Eo, Ef. destruct (only_starting_jobs m); [intros H; inversion H; reflexivity|].
  specialize (G job).
  destruct (od_get job (jobs_graph m)) as [c|]; [|discriminate].
  apply opt_rel_Some in G. destruct G as (c' & -> & -> & _).
  destruct (od_get outcome (default [] (on_finish c))); [intros H; inversion H; reflexivity|].
  destruct (py_in outcome (failed_outcomes m)); intros H; inversion H; reflexivity.
Qed.

(** The handling of one finished job. *)
Lemma finish_job_follows (job outcome : string) (l : list string) (m m' : manager) :
  plain_graph m ->
  finish_job job outcome m = Ok tt m' ->
  follows m m'
  /\ (_get_next_jobs job outcome m = Ok l m ->
      forall x, In x l -> x <> "retry" -> od_mem x (pending_jobs m') = true).
Proof.
  intros Hplain. unfold finish_job. unfold bind at 1.
  destruct (discard_dependency_follows job m) as (m1 & -> & F1).
  unfold bind at 1.
  destruct (_get_next_jobs job outcome m1) as [l1 m1'|e m1'] eqn:En; [|discriminate].
  pose proof (get_next_jobs_state _ _ _ _ _ En). subst m1'.
  unfold bind at 1.
  destruct (for_each l1 (handle_next job) m1) as [[] m2|e m2] eqn:Eh; [|discriminate].
  destruct (handle_all_follows job l1 m1 m2 (follows_plain _ _ F1 Hplain) Eh) as [F2 Hl].
  unfold bind at 1.
  destruct (_release_resources job m2) as [[] m3|e m3] eqn:Er; [|discriminate].
  pose proof (release_follows job m2 m3 Er) as F3.
  unfold pop_running. destruct (od_get job (running_jobs m3)); [|discriminate].
  intros H. inversion H. subst m'. clear H.
  assert (follows m3 (set_running_jobs (od_del job (running_jobs m3)) m3)) as F4.
  { repeat split; auto. intros k. apply opt_rel_refl, same_successors_refl. }
  assert (follows m2 (set_running_jobs (od_del job (running_jobs m3)) m3)) as F34
    by (eapply follows_trans; eassumption).
  split; [eapply follows_trans; [exact F1|]; eapply follows_trans; eassumption|].
  intros Hn x Hx Hne.
  pose proof (get_next_jobs_follows job outcome m m1 F1 l Hn) as Hn1.
  rewrite En in Hn1. inversion Hn1. subst l1.
  destruct F34 as (_ & _ & _ & _ & P). apply P. now apply Hl.
Qed.

Lemma keeps_successors_trans (m1 m2 m3 : manager) :
  keeps_successors m1 m2 -> keeps_successors m2 m3 -> keeps_successors m1 m3.
Proof.
  intros (O1 & F1 & G1 & P1) (O2 & F2 & G2 & P2).
  split; [congruence|]. split; [congruence|]. split; [|auto].
  intros k. eapply opt_rel_trans; [apply same_successors_trans | apply G1 | apply G2].
Qed.

Lemma keeps_successors_plain (m m' : manager) :
  keeps_successors m m' -> plain_graph m -> plain_graph m'.
Proof.
  intros (_ & _ & G & _) Hp k c' Hc'. specialize (G k). rewrite Hc' in G.
  apply opt_rel_Some_r in G. destruct G as (c & Hc & _ & F). eauto.
Qed.

Lemma get_next_jobs_kept (job outcome : string) (m m' : manager) :
  keeps_successors m m' ->
  forall l, _get_next_jobs job outcome m = Ok l m -> _get_next_jobs job outcome m' = Ok l m'.
Proof.
  intros (Eo & Ef & G & _) l. unfold _get_next_jobs, bind, get, get_job.
  rewrite Eo, Ef. destruct (only_starting_jobs m); [intros H; inversion H; reflexivity|].
  specialize (G job).
  destruct (od_get job (jobs_graph m)) as [c|]; [|discriminate].
  apply opt_rel_Some in G. destruct G as (c' & -> & -> & _).
  destruct (od_get outcome (default [] (on_finish c))); [intros H; inversion H; reflexivity|].
  destruct (py_in outcome (failed_outcomes m)); intros H; inversion H; reflexivity.
Qed.

(** One poll: one interaction; when the job finished, its successors
    are pending. *)
Lemma check_running_job_follows (w : world) (job : string) (jobid : option string)
    (m m' : manager) :
  plain_graph m ->
  check_running_job w (job, jobid) m = Ok tt m' ->
  io_count m' = S (io_count m)
  /\ keeps_successors m m'
  /\ forall outcome l x,
       is_finished w (io_count m) jobid = Some outcome ->
       _get_next_jobs job outcome m = Ok l m ->
       In x l -> x <> "retry" -> od_mem x (pending_jobs m') = true.
Proof.
  intros Hplain. unfold check_running_job, bind. cbn [fst snd].
  assert (keeps_successors m (tick_io m)) as Ht.
  { repeat split; auto. intros k. apply opt_rel_refl, same_successors_refl. }
  destruct (is_finished w (io_count m) jobid) as [o|].
  - intros Hf. split; [|split].
    + destruct (finish_job_follows job o [] (tick_io m) m' Hplain Hf) as [(Ei & _) _].
      exact Ei.
    + destruct (finish_job_follows job o [] (tick_io m) m' Hplain Hf) as [(_ & Hk) _].
      exact (keeps_successors_trans _ _ _ Ht Hk).
    + intros outcome l x Ho Hn Hx Hne. inversion Ho. subst o.
      destruct (finish_job_follows job outcome l (tick_io m) m' Hplain Hf) as [_ Hl].
      apply Hl; [|exact Hx | exact Hne].
      exact (get_next_jobs_kept job outcome m (tick_io m) Ht l Hn).
  - intros H. inversion H. subst m'. split; [reflexivity|]. split; [exact Ht|].
    intros outcome l x Ho. discriminate.
Qed.

Lemma poll_loop_follows (w : world) (l : list (string * option string)) :
  forall m m',
  plain_graph m ->
  for_each l (check_running_job w) m = Ok tt m' ->
  keeps_successors m m'.
Proof.
  induction l as [|[j id] l IH]; intros m m' Hplain; simpl.
  - intros H. inversion H. repeat split; auto.
    intros k. apply opt_rel_refl, same_successors_refl.
  - unfold bind.
    destruct (check_running_job w (j, id) m) as [[] m1|e m1] eqn:E; [|discriminate].
    intros H. destruct (check_running_job_follows w j id m m1 Hplain E) as (_ & K1 & _).
    eapply keeps_successors_trans; [exact K1|].
    apply IH; [eapply keeps_successors_plain; eassumption | exact H].
Qed.

Lemma poll_loop_pends (w : world) (job : string) (jobid : option string)
    (outcome : string) (nextjobs : list string) (x : string)
    (l : list (string * option string)) :
  In x nextjobs -> x <> "retry" ->
  forall k m m',
  plain_graph m ->
  l !! k = Some (job, jobid) ->
  is_finished w (io_count m + k) jobid = Some outcome ->
  _get_next_jobs job outcome m = Ok nextjobs m ->
  for_each l (check_running_job w) m = Ok tt m' ->
  od_mem x (pending_jobs m') = true.
Proof.
  intros Hx Hne. induction l as [|[j id] l IH]; intros k m m' Hplain Hk Hfin Hn;
    [discriminate|].
  simpl. unfold bind.
  destruct (check_running_job w (j, id) m) as [[] m1|e m1] eqn:E; [|discriminate].
  destruct (check_running_job_follows w j id m m1 Hplain E) as (Ei & K1 & Hl).
  pose proof (keeps_successors_plain _ _ K1 Hplain) as Hplain1.
  intros Hrest. destruct k as [|k].
  - simpl in Hk. inversion Hk. subst j id. rewrite Nat.add_0_r in Hfin.
    destruct (poll_loop_follows w l m1 m' Hplain1 Hrest) as (_ & _ & _ & P).
    apply P. eapply Hl; eassumption.
  - simpl in Hk. apply (IH k m1 m' Hplain1 Hk); [| |exact Hrest].
    + rewrite Ei. now replace (S (io_count m) + k) with (io_count m + S k) by lia.
    + exact (get_next_jobs_kept job outcome m m1 K1 nextjobs Hn).
Qed.

(** X24. The successors of a finished job become pending.  In a graph
    without fan-out tasks, when the poll of the [k]-th running job (the
    [k]-th interaction of the call) reports an outcome and
    [check_running_jobs] returns, every successor that [_get_next_jobs]
    gives for this job and outcome, other than ["retry"], is in the
    pending map afterwards. *)
Theorem successors_become_pending (w : world) (m m' : manager) (k : nat) (job : string)
    (jobid : option string) (outcome : string) (nextjobs : list string) (x : string) :
  plain_graph m ->
  running_jobs m !! k = Some (job, jobid) ->
  is_finished w (io_count m + k) jobid = Some outcome ->
  _get_next_jobs job outcome m = Ok nextjobs m ->
  In x nextjobs ->
  x <> "retry" ->
  check_running_jobs w m = Ok tt m' ->
  od_mem x (pending_jobs m') = true.
Proof.
  intros Hplain Hk Hfin Hn Hx Hne Hrun.
  unfold check_running_jobs, bind, get in Hrun.
  exact (poll_loop_pends w job jobid outcome nextjobs x (running_jobs m) Hx Hne
           k m m' Hplain Hk Hfin Hn Hrun).
Qed.

Lemma successors_become_pending_witness :
  od_mem "B"
    (pending_jobs (final_state (check_running_jobs finishing_backend two_running_manager)))
  = true.
Proof.
  apply (successors_become_pending finishing_backend two_running_manager
           (final_state (check_running_jobs finishing_backend two_running_manager))
           1 "A" (Some "job1") "finished" ["B"] "B").
  - apply plain_graphb_sound. reflexivity.
  - reflexivity.
  - reflexivity.
  - reflexivity.
  - simpl. now left.
  - discriminate.
  - vm_compute. reflexivity.
Defined.

(* ================================================================== *)
(** * Configuring the workflow *)
(* ================================================================== *)

(** Induction on a task and on the tasks that follow it. *)
Lemma task_induction (P : task -> Prop) :
  (forall id d nexts, Forall P nexts -> P (Task id d nexts)) ->
  forall t, P t.
Proof.
  intros Hstep. fix IH 1. intros [id d nexts]. apply Hstep.
  induction nexts as [|n nexts IHn]; constructor; [apply IH | exact IHn].
Qed.

Lemma add_tasks_nil (st : registry) : add_tasks [] st = Some st.
Proof. reflexivity. Qed.

Lemma fold_add_none (l : list task) :
  fold_left (fun acc t => match acc with
                          | Some st' => _add_task t st'
                          | None => None
                          end) l None = None.
Proof. induction l as [|t l IH]; simpl; [reflexivity | exact IH]. Qed.

Lemma add_tasks_cons (t : task) (l : list task) (st : registry) :
  add_tasks (t :: l) st
  = match _add_task t st with Some st' => add_tasks l st' | None => None end.
Proof.
  unfold add_tasks. simpl. destruct (_add_task t st); [reflexivity | apply fold_add_none].
Qed.

Lemma add_tasks_one (t : task) (st : registry) : add_tasks [t] st = _add_task t st.
Proof. reflexivity. Qed.

Lemma add_task_unfold (id : string) (d : jobconf) (nexts : list task) (st : registry) :
  _add_task (Task id d nexts) st
  = if od_mem id st.1 then None
    else add_tasks nexts (od_set id d st.1, od_set id (Task id d nexts) st.2).
Proof. reflexivity. Qed.

Lemma task_ids_unfold (id : string) (d : jobconf) (nexts : list task) :
  task_ids (Task id d nexts) = id :: flat_map task_ids nexts.
Proof.
  unfold task_ids. simpl. f_equal.
  induction nexts as [|n nexts IH]; simpl; [reflexivity|].
  now rewrite map_app, IH.
Qed.

Lemma od_mem_set_ne {V} (x k : string) (v : V) (d : odict V) :
  k <> x -> od_mem x (od_set k v d) = od_mem x d.
Proof. intros H. unfold od_mem. now rewrite od_get_set_ne. Qed.

Lemma od_mem_set_eq {V} (k : string) (v : V) (d : odict V) :
  od_mem k (od_set k v d) = true.
Proof. unfold od_mem. now rewrite od_get_set_eq. Qed.

Lemma od_mem_false_get {V} (k : string) (d : odict V) :
  od_mem k d = false -> od_get k d = None.
Proof. unfold od_mem. now destruct (od_get k d). Qed.

Lemma task_ids_subtask (x : string) (l : list task) :
  In x (flat_map task_ids l) ->
  exists t, In t (flat_map subtasks l) /\ task_id t = x.
Proof.
  intros H. apply in_flat_map in H. destruct H as (r & Hr & Hx).
  unfold task_ids in Hx. apply in_map_iff in Hx. destruct Hx as (t & Ht & Hin).
  exists t. split; [|exact Ht]. apply in_flat_map. eauto.
Qed.

Lemma fresh_ids_tail (t : task) (l : list task) (g : odict jobconf) :
  fresh_ids (t :: l) g -> fresh_ids [t] g.
Proof.
  intros [Hnd Hf]. unfold fresh_ids. simpl in *. rewrite app_nil_r. split.
  - apply NoDup_app in Hnd. apply Hnd.
  - intros id Hid. apply Hf. apply in_or_app. now left.
Qed.

Lemma registers_list (l : list task) :
  Forall (fun t => forall st, registers [t] st) l -> forall st, registers l st.
Proof.
  induction l as [|t l IH]; intros HP st.
  - unfold registers. rewrite add_tasks_nil. simpl. split; [|split; [|split]].
    + split; [constructor | intros id []].
    + now rewrite app_nil_r.
    + intros t [].
    + auto.
  - apply Forall_cons in HP. destruct HP as [Ht Hl].
    specialize (Ht st). specialize (IH Hl).
    unfold registers in *. rewrite add_tasks_one in Ht. rewrite add_tasks_cons.
    destruct (_add_task t st) as [st1|].
    2:{ intros Hf. apply Ht. eapply fresh_ids_tail. exact Hf. }
    destruct Ht as ([Nd1 Hf1] & K1 & L1 & Fr1). simpl in Nd1, Hf1, K1, L1, Fr1.
    rewrite app_nil_r in Nd1, Hf1, K1, L1, Fr1.
    assert (forall x, In x (task_ids t) -> od_mem x st1.1 = true) as Hin1.
    { intros x Hx. destruct (task_ids_subtask x [t]) as (sub & Hsub & <-).
      { simpl. now rewrite app_nil_r. }
      simpl in Hsub. rewrite app_nil_r in Hsub.
      destruct (L1 sub Hsub) as [Hg _]. unfold od_mem. now rewrite Hg. }
    specialize (IH st1). destruct (add_tasks l st1) as [st2|].
    + destruct IH as ([Nd2 Hf2] & K2 & L2 & Fr2).
      assert (forall x, In x (task_ids t) -> ~ In x (flat_map task_ids l)) as Hdis.
      { intros x Hx Hx2. specialize (Hin1 x Hx). rewrite (Hf2 x Hx2) in Hin1. discriminate. }
      split; [|split; [|split]].
      * split.
        -- simpl. apply NoDup_app. split; [exact Nd1|]. split; [|exact Nd2].
           intros x Hx Hx2. apply list_elem_of_In in Hx, Hx2. exact (Hdis x Hx Hx2).
        -- intros id Hid. simpl in Hid. apply in_app_or in Hid.
           destruct Hid as [Hid|Hid]; [now apply Hf1|].
           destruct (Fr1 id) as [Eg _].
           { intros Hid1. exact (Hdis id Hid1 Hid). }
           pose proof (Hf2 id Hid) as Hm. unfold od_mem in *. now rewrite <- Eg.
      * simpl. rewrite K2, K1. now rewrite <- app_assoc.
      * intros sub Hsub. simpl in Hsub. apply in_app_or in Hsub.
        destruct Hsub as [Hsub|Hsub]; [|now apply L2].
        destruct (L1 sub Hsub) as [Hg Hts].
        destruct (Fr2 (task_id sub)) as [Eg Ets].
        { apply Hdis. unfold task_ids. now apply in_map. }
        split; congruence.
      * intros k Hk. simpl in Hk.
        destruct (Fr2 k) as [Eg2 Et2]; [intros H; apply Hk, in_or_app; now right|].
        destruct (Fr1 k) as [Eg1 Et1]; [intros H; apply Hk, in_or_app; now left|].
        split; congruence.
    + intros [Nd Hf]. apply IH. simpl in Nd, Hf. apply NoDup_app in Nd.
      destruct Nd as (_ & Hdis & Nd2). split; [exact Nd2|].
      intros id Hid. destruct (Fr1 id) as [Eg _].
      { intros Hid1. apply list_elem_of_In in Hid1, Hid. exact (Hdis id Hid1 Hid). }
      pose proof (Hf id (in_or_app _ _ _ (or_intror Hid))) as Hm.
      unfold od_mem in *. now rewrite Eg.
Qed.

Lemma registers_task (t : task) : forall st, registers [t] st.
Proof.
  induction t as [id d nexts IH] using task_induction. intros st.
  pose proof (registers_list nexts IH
                (od_set id d st.1, od_set id (Task id d nexts) st.2)) as Hl.
  unfold registers, fresh_ids in *. rewrite add_tasks_one, add_task_unfold.
  cbn [flat_map]. rewrite !app_nil_r, task_ids_unfold.
  destruct (od_mem id st.1) eqn:Em.
  { intros [_ Hf]. rewrite (Hf id) in Em; [discriminate | now left]. }
  destruct (add_tasks nexts (od_set id d st.1, od_set id (Task id d nexts) st.2))
    as [st'|].
  - destruct Hl as ([Nd Hf] & K & L & Fr). cbn [fst snd] in Hf, K, Fr.
    assert (~ In id (flat_map task_ids nexts)) as Hid.
    { intros H. specialize (Hf id H). now rewrite od_mem_set_eq in Hf. }
    split; [|split; [|split]].
    + split.
      * apply NoDup_cons. split; [|exact Nd]. intros H. apply Hid. now apply list_elem_of_In.
      * intros x [<-|Hx]; [exact Em|]. specialize (Hf x Hx).
        rewrite od_mem_set_ne in Hf; [exact Hf|]. intros ->. contradiction.
    + rewrite K, od_keys_set_fresh by now apply od_mem_false_get.
      now rewrite <- app_assoc.
    + intros sub [<-|Hsub]; [|now apply L].
      destruct (Fr id Hid) as [Eg Ets]. cbn [task_id as_jobgraph_dict].
      rewrite Eg, Ets, !od_get_set_eq. split; reflexivity.
    + intros k Hk. destruct (Fr k) as [Eg Ets]; [intros H; apply Hk; now right|].
      rewrite Eg, Ets, !od_get_set_ne by (intros ->; apply Hk; now left).
      split; reflexivity.
  - intros [Nd Hf]. apply Hl. apply NoDup_cons in Nd. destruct Nd as [Hid Nd].
    split; [exact Nd|]. intros x Hx. cbn [fst].
    rewrite od_mem_set_ne; [apply Hf; now right|].
    intros ->. apply Hid. now apply list_elem_of_In.
Qed.

(** X25. Configuring the workflow registers every task once.  The loop
    of [__init__] over a list of tasks passes every assertion of
    [_add_task] exactly when the ids of all tasks reachable from the list
    are pairwise distinct and none is in the graph; then the ids are
    appended to the keys of the graph in preorder, every reachable task is
    in the graph with its description and in [__tasks] under its id, and
    no other entry of either has changed. *)
Theorem configure_registers_tasks (roots : list task) (st : registry) :
  match add_tasks roots st with
  | Some st' =>
      fresh_ids roots st.1
      /\ od_keys st'.1 = (od_keys st.1 ++ flat_map task_ids roots)%list
      /\ (forall t, In t (flat_map subtasks roots) ->
            od_get (task_id t) st'.1 = Some (as_jobgraph_dict t)
            /\ od_get (task_id t) st'.2 = Some t)
      /\ (forall k, ~ In k (flat_map task_ids roots) ->
            od_get k st'.1 = od_get k st.1 /\ od_get k st'.2 = od_get k st.2)
  | None => ~ fresh_ids roots st.1
  end.
Proof.
  apply (registers_list roots). apply Forall_forall. intros t _. apply registers_task.
Qed.

(* ================================================================== *)
(** * Where a resumed workflow starts *)
(* ================================================================== *)

Lemma setup_candidates_nil (ts : odict task) (ran : list string) (fuel : nat) (m : manager) :
  setup_candidates ts ran (S fuel) [] m = Some (Ok tt m).
Proof. reflexivity. Qed.

Lemma setup_candidates_cons (ts : odict task) (ran : list string) (fuel : nat)
    (candidate : option string) (rest : list (option string)) (m : manager) :
  setup_candidates ts ran (S fuel) (candidate :: rest) m
  = match
      match candidate with
      | Some taskid =>
          if py_in taskid ran then
            match od_get taskid ts with
            | None => Some (Exc (KeyError taskid) m)
            | Some t =>
                match map task_id (get_next_tasks t) with
                | [] => Some (Ok tt m)
                | next_tasks => setup_candidates ts ran fuel (map Some next_tasks) m
                end
            end
          else Some (pend_candidate candidate m)
      | None => Some (pend_candidate candidate m)
      end
    with
    | Some (Ok _ m1) => setup_candidates ts ran (S fuel) rest m1
    | Some (Exc e m1) => Some (Exc e m1)
    | None => None
    end.
Proof.
  cbn [setup_candidates].
  destruct candidate as [taskid|].
  - destruct (py_in taskid ran).
    + destruct (od_get taskid ts) as [t|]; [|reflexivity].
      destruct (map task_id (get_next_tasks t)); [reflexivity|].
      destruct (setup_candidates ts ran fuel _ m) as [[[] m1|]|]; reflexivity.
    + destruct (pend_candidate (Some taskid) m) as [[] m1|]; reflexivity.
  - destruct (pend_candidate None m) as [[] m1|]; reflexivity.
Qed.

Lemma frontier_unfold (ran : list string) (id : string) (d : jobconf) (nexts : list task) :
  frontier ran (Task id d nexts)
  = if py_in id ran then flat_map (frontier ran) nexts else [id].
Proof. reflexivity. Qed.

Lemma frontier_not_ran (ran : list string) (k : string) (t : task) :
  In k (frontier ran t) -> ~ In k ran.
Proof.
  induction t as [id d nexts IH] using task_induction. rewrite frontier_unfold.
  destruct (py_in id ran) eqn:E.
  - intros H. apply in_flat_map in H. destruct H as (n & Hn & Hk).
    rewrite Forall_forall in IH. apply (IH n); [now apply list_elem_of_In | exact Hk].
  - intros [<-|[]] Hin. apply bool_decide_eq_false_1 in E. apply E.
    now apply list_elem_of_In.
Qed.

Lemma depth_next (id : string) (d : jobconf) (nexts : list task) (n : task) :
  In n nexts -> S (depth n) <= depth (Task id d nexts).
Proof.
  simpl. intros H. apply le_n_S. induction nexts as [|x nexts IH]; [destruct H|].
  simpl. destruct H as [->|H]; [lia|]. specialize (IH H). lia.
Qed.

Lemma od_mem_graph_follows (m m' : manager) (k : string) :
  follows m m' -> od_mem k (jobs_graph m) = true -> od_mem k (jobs_graph m') = true.
Proof.
  intros (_ & _ & _ & G & _) H. specialize (G k). unfold od_mem in *.
  destruct (od_get k (jobs_graph m)); [|discriminate].
  apply opt_rel_Some in G. destruct G as (c' & -> & _). reflexivity.
Qed.

(** A candidate that did not run is made pending. *)
Lemma pend_candidate_plain (taskid : string) (m : manager) :
  plain_graph m -> od_mem taskid (jobs_graph m) = true ->
  exists m', pend_candidate (Some taskid) m = Ok tt m'
             /\ follows m m'
             /\ forall k, od_mem k (pending_jobs m') = true
                          <-> od_mem k (pending_jobs m) = true \/ k = taskid.
Proof.
  intros Hplain Hin. unfold pend_candidate, _add_initial_pending_job, bind, get_job.
  unfold od_mem in Hin.
  destruct (od_get taskid (jobs_graph m)) as [conf|] eqn:Hc; [|discriminate].
  pose proof (add_pending_plain_state taskid conf (default [] (wait_for conf)) 0 m Hc
                (Hplain taskid conf Hc)) as Hrun.
  eexists. split; [exact Hrun|]. split.
  - apply (add_pending_follows taskid (default [] (wait_for conf)) 0 m _ Hplain Hrun).
  - intros k. cbn [pending_jobs set_pending_jobs]. unfold od_mem. rewrite od_get_set.
    destruct (String.eqb taskid k) eqn:E.
    + apply String.eqb_eq in E. subst k. split; [now right | reflexivity].
    + apply String.eqb_neq in E. split; [now left|]. intros [H|H]; [exact H | congruence].
Qed.

(** The loop over the candidates, given what the recursive calls do. *)
Lemma setup_loop_frontier (ts : odict task) (ran : list string) (fuel : nat) :
  (forall (cs : list task) (m : manager),
     cs <> [] ->
     plain_graph m ->
     (forall t, In t (flat_map subtasks cs) ->
        od_get (task_id t) ts = Some t /\ od_mem (task_id t) (jobs_graph m) = true) ->
     (forall c, In c cs -> depth c <= fuel) ->
     exists m',
       setup_candidates ts ran fuel (map (fun c => Some (task_id c)) cs) m = Some (Ok tt m')
       /\ follows m m'
       /\ forall k, od_mem k (pending_jobs m') = true
                    <-> od_mem k (pending_jobs m) = true
                        \/ In k (flat_map (frontier ran) cs)) ->
  forall (cs : list task) (m : manager),
  plain_graph m ->
  (forall t, In t (flat_map subtasks cs) ->
     od_get (task_id t) ts = Some t /\ od_mem (task_id t) (jobs_graph m) = true) ->
  (forall c, In c cs -> depth c <= S fuel) ->
  exists m',
    setup_candidates ts ran (S fuel) (map (fun c => Some (task_id c)) cs) m = Some (Ok tt m')
    /\ follows m m'
    /\ forall k, od_mem k (pending_jobs m') = true
                 <-> od_mem k (pending_jobs m) = true \/ In k (flat_map (frontier ran) cs).
Proof.
  intros Hrec. induction cs as [|c cs IHc]; intros m Hplain Hreg Hdepth.
  { exists m. split; [reflexivity|]. split; [apply follows_refl|]. intros k. simpl. tauto. }
  assert (forall m1,
            follows m m1 ->
            (forall k, od_mem k (pending_jobs m1) = true
                       <-> od_mem k (pending_jobs m) = true \/ In k (frontier ran c)) ->
            exists m',
              setup_candidates ts ran (S fuel) (map (fun c => Some (task_id c)) cs) m1
              = Some (Ok tt m')
              /\ follows m m'
              /\ forall k, od_mem k (pending_jobs m') = true
                           <-> od_mem k (pending_jobs m) = true
                               \/ In k (flat_map (frontier ran) (c :: cs))) as Hrest.
  { intros m1 F1 P1. destruct (IHc m1) as (m' & Hrun & F & P).
    - eapply follows_plain; eassumption.
    - intros t Ht. destruct (Hreg t) as [H1 H2]; [simpl; apply in_or_app; now right|].
      split; [exact H1 | eapply od_mem_graph_follows; eassumption].
    - intros c' Hc'. apply Hdepth. now right.
    - exists m'. split; [exact Hrun|]. split; [eapply follows_trans; eassumption|].
      intros k. rewrite (P k), (P1 k). cbn [flat_map]. rewrite in_app_iff. tauto. }
  cbn [map]. rewrite setup_candidates_cons.
  destruct c as [id d nexts]. cbn [task_id].
  destruct (Hreg (Task id d nexts)) as [Hts Hg]; [simpl; now left|]. cbn [task_id] in Hts, Hg.
  rewrite frontier_unfold in Hrest.
  destruct (py_in id ran).
  - rewrite Hts. cbn [get_next_tasks]. destruct nexts as [|n nexts].
    + cbn [map]. apply Hrest; [apply follows_refl|]. intros k. simpl. tauto.
    + destruct (Hrec (n :: nexts) m) as (m1 & Hrun & F1 & P1).
      * discriminate.
      * exact Hplain.
      * intros t Ht. apply Hreg. simpl. right. apply in_or_app. left. exact Ht.
      * intros c Hc. specialize (Hdepth (Task id d (n :: nexts)) (or_introl eq_refl)).
        pose proof (depth_next id d (n :: nexts) c Hc). lia.
      * assert (map Some (map task_id (n :: nexts))
                = map (fun c => Some (task_id c)) (n :: nexts)) as Emap
          by now rewrite map_map.
        cbn [map] in Emap, Hrun |- *. rewrite Emap, Hrun.
        apply Hrest; assumption.
  - destruct (pend_candidate_plain id m Hplain Hg) as (m1 & -> & F1 & P1).
    apply Hrest; [exact F1|]. intros k. rewrite (P1 k). simpl.
    split; (intros [H|H]; [now left | right]); [now left | destruct H as [H|[]]; now symmetry].
Qed.

Lemma depth_positive (t : task) : 0 < depth t.
Proof. destruct t. simpl. lia. Qed.

Lemma setup_candidates_frontier (ts : odict task) (ran : list string) (fuel : nat) :
  forall (cs : list task) (m : manager),
  plain_graph m ->
  (forall t, In t (flat_map subtasks cs) ->
     od_get (task_id t) ts = Some t /\ od_mem (task_id t) (jobs_graph m) = true) ->
  (forall c, In c cs -> depth c <= S fuel) ->
  exists m',
    setup_candidates ts ran (S fuel) (map (fun c => Some (task_id c)) cs) m = Some (Ok tt m')
    /\ follows m m'
    /\ forall k, od_mem k (pending_jobs m') = true
                 <-> od_mem k (pending_jobs m) = true \/ In k (flat_map (frontier ran) cs).
Proof.
  induction fuel as [|fuel IH]; apply setup_loop_frontier.
  - intros [|c cs] m Hne _ _ Hdepth; [contradiction|].
    specialize (Hdepth c (or_introl eq_refl)). pose proof (depth_positive c). lia.
  - intros cs m _. apply IH.
Qed.

(** X26. A resumed workflow starts at the frontier of what ran.  Let
    the candidates of [_setup_starting_jobs] (the [--starting-job]
    options or, without any, the [--starting-job=<task>] options of the
    resumed job's command line) be the ids of tasks that, with all tasks
    reachable from them, are registered in [__tasks] under their ids and
    are jobs of a graph without fan-out tasks.  Then, at a recursion depth
    that covers the tasks, [_setup_starting_jobs] returns; the jobs
    pending afterwards are those pending before and, below every
    candidate, the first tasks that did not run; no task that ran is made
    pending. *)
Theorem resume_starts_at_frontier (ts : odict task) (ran : list string) (fuel : nat)
    (cs : list task) (starting_job job_cmd : list string) (m : manager) :
  (starting_job = map task_id cs /\ cs <> [])
  \/ (starting_job = []
      /\ exists l, job_cmd = map render_option l /\ forallb plain_option l = true
                   /\ starting_jobs_of l = map task_id cs) ->
  plain_graph m ->
  (forall t, In t (flat_map subtasks cs) ->
     od_get (task_id t) ts = Some t /\ od_mem (task_id t) (jobs_graph m) = true) ->
  0 < fuel ->
  (forall c, In c cs -> depth c <= fuel) ->
  exists m',
    _setup_starting_jobs ts ran fuel starting_job job_cmd m = Some (Ok tt m')
    /\ (forall k, od_mem k (pending_jobs m') = true
                  <-> od_mem k (pending_jobs m) = true
                      \/ In k (flat_map (frontier ran) cs))
    /\ (forall k, In k ran -> od_mem k (pending_jobs m') = od_mem k (pending_jobs m)).
Proof.
  intros Hcand Hplain Hreg Hfuel Hdepth.
  destruct fuel as [|fuel]; [lia|].
  destruct (setup_candidates_frontier ts ran fuel cs m Hplain Hreg Hdepth)
    as (m' & Hrun & _ & P).
  exists m'. split; [|split; [exact P|]].
  - unfold _setup_starting_jobs. rewrite <- Hrun.
    destruct Hcand as [[-> Hne]|(-> & l & -> & Hl & Hs)].
    + destruct cs as [|c cs]; [contradiction|]. cbn [map]. now rewrite map_map.
    + unfold _get_starting_jobs_from_resumed_job.
      rewrite (scan_job_cmd_rendered l [] Hl), Hs. cbn [app]. now rewrite map_map.
  - intros k Hk.
    assert (~ In k (flat_map (frontier ran) cs)) as Hnot.
    { intros H. apply in_flat_map in H. destruct H as (c & _ & Hc).
      exact (frontier_not_ran ran k c Hc Hk). }
    specialize (P k). destruct (od_mem k (pending_jobs m')), (od_mem k (pending_jobs m));
      try reflexivity.
    + destruct (proj1 P eq_refl) as [H|H]; [discriminate | contradiction].
    + assert (false = true) as H by (apply P; now left). discriminate.
Qed.

Lemma resume_starts_at_frontier_witness :
  exists m',
    _setup_starting_jobs three_registry.2 ["T1"] 2 []
      ["manager.py"; "--starting-job=T1"] three_manager = Some (Ok tt m')
    /\ (forall k, od_mem k (pending_jobs m') = true
                  <-> od_mem k (pending_jobs three_manager) = true
                      \/ In k (flat_map (frontier ["T1"]) [three_tasks]))
    /\ (forall k, In k ["T1"] ->
          od_mem k (pending_jobs m') = od_mem k (pending_jobs three_manager)).
Proof.
  apply (resume_starts_at_frontier three_registry.2 ["T1"] 2 [three_tasks] []
           ["manager.py"; "--starting-job=T1"] three_manager).
  - right. split; [reflexivity|].
    exists [OtherOption "manager.py"; StartingJob "T1"]. repeat split; reflexivity.
  - apply plain_graphb_sound. reflexivity.
  - intros t Ht. simpl in Ht.
    destruct Ht as [<-|[<-|[<-|[]]]]; split; reflexivity.
  - lia.
  - intros c [<-|[]]. simpl. lia.
Defined.
